(** * PetIBM: marker partitioner, boundary dispatcher and delta kernel

    A shallow embedding of
      - src/boundary/singleboundary.cpp   (petibm::boundary::createSingleBoundary)
      - src/body/singlebodypoints.cpp     (petibm::body::SingleBodyPoints)
    together with the discrete delta function exercised by
    tests/misc/delta_test.cpp.

    Conventions.
      - [PetscInt] and [PetscMPIInt] are C [int]s of 32 bits (PETSc's
        default index width), held as integers [Z].  The products and sums
        the source computes in [PetscInt] are reduced to the 32-bit range
        by [PetscInt_wrap], which is what the two's-complement machines
        PETSc runs on produce; loop counters, which stay below a bound
        held in a [PetscInt], are not.  The cast [(unsigned)dim] in [init]
        is written out with its modulus.
      - [PetscReal] is a C [double]: a NaN, an infinity or a finite value.
        The embedded functions compare coordinates and never compute with
        them, so a finite value is held as the rational [Q] it
        denotes (the two zeros, which compare equal, are one value) and
        the comparisons are those of IEEE 754: false whenever an operand
        is a NaN.  The delta function, which takes square roots, is
        stated over the real numbers [R] instead.
      - A [std::vector] is a [list]; [operator[]] outside the vector is
        undefined behaviour in C++ and is the outcome [Undefined] here.
      - A function returning [PetscErrorCode] returns a [PetscResult]:
        [Ok] for code 0, [Err] for a [SETERRQ], [Undefined] as above.
      - PETSc and MPI are not part of the sources.  Their calls are taken
        to return success; what a 1-D DMDA hands to each process is the
        parameter [DMDA_ownership]. *)

From Stdlib Require Import ZArith QArith Lia String Ascii Reals Lra.
From stdpp Require Import base list pretty.

Local Open Scope Z_scope.

(** ** PETSc scalars and error codes *)

Abbreviation PetscInt := Z (only parsing).
Abbreviation PetscMPIInt := Z (only parsing).

Definition PETSC_MAX_INT : Z := 2147483647.
Definition PETSC_MIN_INT : Z := -2147483648.

(** The value a [PetscInt] holds after an arithmetic operation whose
    exact result is [z]. *)
Definition PetscInt_wrap (z : Z) : Z :=
  (z - PETSC_MIN_INT) `mod` 2 ^ 32 + PETSC_MIN_INT.

Inductive PetscReal :=
| NaN
| NegInf
| Num (q : Q)
| PosInf.

(** The PETSc error classes raised by the embedded functions. *)
Inductive PetscErrorCode :=
| PETSC_ERR_ARG_SIZ
| PETSC_ERR_FILE_READ
| PETSC_ERR_FILE_WRITE
| PETSC_ERR_MAX_VALUE.

(** Outcome of a call.  The message of [Err] is the format string handed
    to [SETERRQ]; its arguments are not rendered. *)
Inductive PetscResult (A : Type) :=
| Ok (a : A)
| Err (code : PetscErrorCode) (msg : string)
| Undefined.
Arguments Ok {A} a.
Arguments Err {A} code msg.
Arguments Undefined {A}.

(** [CHKERRQ]: the first failure is returned unchanged. *)
#[global] Instance PetscResult_ret : MRet PetscResult := @Ok.
#[global] Instance PetscResult_bind : MBind PetscResult := fun A B f r =>
  match r with
  | Ok a => f a
  | Err code msg => Err code msg
  | Undefined => Undefined
  end.

Definition is_Err {A} (r : PetscResult A) : bool :=
  match r with Err _ _ => true | _ => false end.

(** [v[i]] on a [std::vector]. *)
Definition vec_at {A} (v : list A) (i : Z) : PetscResult A :=
  if i <? 0 then Undefined
  else match v !! Z.to_nat i with
       | Some a => Ok a
       | None => Undefined
       end.

(** [v[i] = a]. *)
Definition vec_set {A} (v : list A) (i : Z) (a : A) : PetscResult (list A) :=
  if i <? 0 then Undefined
  else if (Z.to_nat i <? length v)%nat then Ok (<[Z.to_nat i := a]> v)
  else Undefined.

(** [v[i][j] = a] on a vector of vectors. *)
Definition vec_set2 {A} (v : list (list A)) (i j : Z) (a : A)
  : PetscResult (list (list A)) :=
  row ← vec_at v i;
  row' ← vec_set row j a;
  vec_set v i row'.

(** Comparison of two rationals, as booleans. *)
Definition Qltb (x y : Q) : bool := (Qnum x * QDen y <? Qnum y * QDen x)%Z.
Definition Qleb (x y : Q) : bool := (Qnum x * QDen y <=? Qnum y * QDen x)%Z.

(** [x < y], [x <= y] and [x >= y] on doubles. *)
Definition real_ltb (x y : PetscReal) : bool :=
  match x, y with
  | NaN, _ | _, NaN => false
  | Num a, Num b => Qltb a b
  | _, NegInf => false
  | NegInf, _ => true
  | PosInf, _ => false
  | _, PosInf => true
  end.

Definition real_leb (x y : PetscReal) : bool :=
  match x, y with
  | NaN, _ | _, NaN => false
  | Num a, Num b => Qleb a b
  | NegInf, _ => true
  | _, PosInf => true
  | _, _ => false
  end.

Definition real_geb (x y : PetscReal) : bool := real_leb y x.

(** ** [std::upper_bound]

    The bisection of the C++ standard library over the range
    [first, first + len) of the array [a]: positions are indices into
    [a].  [fuel] bounds the number of halvings; [upper_bound] starts it
    with the length of the range, which the loop never exhausts. *)
Fixpoint upper_bound_loop {A} (comp : A -> A -> bool) (a : list A) (val : A)
    (fuel first len : nat) : nat :=
  match fuel with
  | O => first
  | S fuel' =>
      if (len =? 0)%nat then first
      else
        let half := Nat.div2 len in
        let middle := (first + half)%nat in
        match a !! middle with
        | Some m =>
            if comp val m
            then upper_bound_loop comp a val fuel' first half
            else upper_bound_loop comp a val fuel' (middle + 1)%nat
                                  (len - half - 1)%nat
        | None => first
        end
  end.

Definition upper_bound {A} (comp : A -> A -> bool) (a : list A) (val : A) : nat :=
  upper_bound_loop comp a val (length a) 0 (length a).

(** ** Boundary-condition dispatcher (singleboundary.cpp) *)

(** [type::BCType] is declared in petibm/type.h, which is not part of the
    sources at hand.  A C++ enumeration object holds a value of its
    underlying integer type; the class below names the values of the five
    enumerators the switch lists, which the language requires to be
    pairwise distinct case labels. *)
Class BCTypeEnum := {
  NOBC : Z;
  PERIODIC : Z;
  DIRICHLET : Z;
  NEUMANN : Z;
  CONVECTIVE : Z;
  BCType_distinct : NoDup [NOBC; PERIODIC; DIRICHLET; NEUMANN; CONVECTIVE]
}.

(** The classes instantiated by the factory. *)
Inductive SingleBoundaryClass :=
| SingleBoundaryBase
| SingleBoundaryPeriodic
| SingleBoundaryDirichlet
| SingleBoundaryNeumann
| SingleBoundaryConvective.

Section Boundary.
(** [type::Mesh], [type::BCLoc] and [type::Field] are passed through to
    the constructors unchanged. *)
Context {MeshT BCLocT FieldT : Type}.
Context `{BCTypeEnum}.

(** What [std::make_shared<C>(mesh, loc, field, value)] builds. *)
Record SingleBoundaryObj := {
  bd_class : SingleBoundaryClass;
  bd_mesh : MeshT;
  bd_loc : BCLocT;
  bd_field : FieldT;
  bd_value : PetscReal
}.

(** [type::SingleBoundary] is a shared pointer: [None] is the null
    pointer. *)
Definition SingleBoundary := option SingleBoundaryObj.

(** Returns the error code together with the output parameter
    [singleBd] as the call leaves it. *)
Definition createSingleBoundary (mesh : MeshT) (loc : BCLocT) (field : FieldT)
    (value : PetscReal) (bcType : Z) (singleBd : SingleBoundary)
  : PetscResult unit * SingleBoundary :=
  let singleBd' :=
    if bcType =? NOBC then
      Some (Build_SingleBoundaryObj SingleBoundaryBase mesh loc field value)
    else if bcType =? PERIODIC then
      Some (Build_SingleBoundaryObj SingleBoundaryPeriodic mesh loc field value)
    else if bcType =? DIRICHLET then
      Some (Build_SingleBoundaryObj SingleBoundaryDirichlet mesh loc field value)
    else if bcType =? NEUMANN then
      Some (Build_SingleBoundaryObj SingleBoundaryNeumann mesh loc field value)
    else if bcType =? CONVECTIVE then
      Some (Build_SingleBoundaryObj SingleBoundaryConvective mesh loc field value)
    else singleBd in
  (Ok tt, singleBd').
End Boundary.

Arguments SingleBoundaryObj : clear implicits.
Arguments SingleBoundary : clear implicits.

(** ** PETSc and MPI services used by SingleBodyPoints *)

(** A communicator as one process sees it. *)
Record MPI_Comm := {
  comm_size : PetscMPIInt;
  comm_rank : PetscMPIInt
}.

(** The sum of a list of integers. *)
Definition sumZ (l : list Z) : Z := foldr Z.add 0 l.

(** How PETSc divides the [M] points of a 1-D DMDA among the [m]
    processes of its communicator when the caller passes no [lx] array:
    [DMDA_lx m M] is the array [lx] PETSc then builds for itself, the
    number of points of each process in rank order.  Which array this is
    depends on PETSc's run-time options; what PETSc guarantees of it in
    every case is that it has one entry per process, none negative, and
    that the entries add up to [M]. *)
Class DMDA_ownership := {
  DMDA_lx : PetscMPIInt -> PetscInt -> list PetscInt;
  DMDA_lx_length : forall m M, 1 <= m -> 0 <= M ->
    length (DMDA_lx m M) = Z.to_nat m;
  DMDA_lx_nonneg : forall m M, 1 <= m -> 0 <= M ->
    Forall (fun n => 0 <= n) (DMDA_lx m M);
  DMDA_lx_sum : forall m M, 1 <= m -> 0 <= M -> sumZ (DMDA_lx m M) = M
}.

(** A one-dimensional DMDA of [da_M] points carrying [da_dof] values
    each, divided among the processes as [da_lx] says. *)
Record DM := {
  da_comm : MPI_Comm;
  da_M : PetscInt;
  da_dof : PetscInt;
  da_lx : list PetscInt
}.

Record DMDALocalInfo := {
  xs : PetscInt;
  xm : PetscInt
}.

(** The local info of the calling process: it owns [xm] points starting
    at [xs], after the points of the lower ranks. *)
Definition DMDAGetLocalInfo (da : DM) : DMDALocalInfo :=
  let rank := Z.to_nat (comm_rank (da_comm da)) in
  {| xs := sumZ (take rank (da_lx da));
     xm := default 0 (da_lx da !! rank) |}.

Section DMDA.
Context `{DMDA_ownership}.

(** [DMDACreate1d(comm, DM_BOUNDARY_NONE, M, dof, 0, nullptr, &da)]
    followed by [DMSetUp]. *)
Definition DMDACreate1d (comm : MPI_Comm) (M dof : PetscInt) : DM :=
  {| da_comm := comm; da_M := M; da_dof := dof;
     da_lx := DMDA_lx (comm_size comm) M |}.
End DMDA.

(** A PETSc ASCII viewer: the file it is bound to and the lines printed
    to it so far. *)
Record PetscViewer := {
  viewer_file : string;
  viewer_lines : list string
}.

(** ** The background mesh

    [type::Mesh] (petibm/mesh.h) is consumed through four members:
    [min] and [max] (domain bounds per direction), [n] (number of points
    per field and direction) and [coord] (coordinates per field and
    direction; field 4 holds the cell boundaries). *)
Record Mesh := {
  mesh_min : list PetscReal;
  mesh_max : list PetscReal;
  mesh_n : list (list PetscInt);
  mesh_coord : list (list (list PetscReal))
}.

(** ** SingleBodyPoints (singlebodypoints.cpp) *)

Record MatStencil := {
  stencil_k : PetscInt;
  stencil_j : PetscInt;
  stencil_i : PetscInt;
  stencil_c : PetscInt
}.

(** The data members of [SingleBodyBase] that the member functions of
    [SingleBodyPoints] read or write. *)
Record SingleBodyPoints := {
  comm : MPI_Comm;
  mpiSize : PetscMPIInt;
  mpiRank : PetscMPIInt;
  dim : PetscInt;
  name : string;
  filePath : string;
  nPts : PetscInt;
  coords : list (list PetscReal);
  coords0 : list (list PetscReal);
  nLclPts : PetscInt;
  bgPt : PetscInt;
  edPt : PetscInt;
  meshIdx : list (list PetscInt);
  da : DM;
  nLclAllProcs : list PetscInt;
  offsetsAllProcs : list PetscInt;
  info : string
}.

Definition endl : string := String (ascii_of_nat 10) EmptyString.
Definition tab : string := String (ascii_of_nat 9) EmptyString.

(** [std::string(n, c)] *)
Fixpoint string_fill (n : nat) (c : ascii) : string :=
  match n with
  | O => EmptyString
  | S n' => String c (string_fill n' c)
  end.

Section CreateDMDA.
Context `{DMDA_ownership}.

(** [MPI_Allgather(&nLclPts, 1, MPIU_INT, recvbuf, 1, MPIU_INT, comm)]
    inside [createDMDA]: every process of the communicator runs
    [createDMDA] on the same [nPts] and [dim] and contributes the [xm] of
    its own local info. *)
Definition MPI_Allgather_nLclPts (c : MPI_Comm) (M dof : PetscInt)
  : list PetscInt :=
  (fun r => xm (DMDAGetLocalInfo
                  (DMDACreate1d {| comm_size := comm_size c; comm_rank := r |}
                                M dof)))
    <$> seqZ 0 (comm_size c).

(** [for (r = mpiSize - 1; r > 0; r--) offsetsAllProcs[r] = nLclAllProcs[r - 1];] *)
Fixpoint createDMDA_shift (count : nat) (r : Z) (nLcl offs : list PetscInt)
  : PetscResult (list PetscInt) :=
  match count with
  | O => Ok offs
  | S count' =>
      v ← vec_at nLcl (r - 1);
      offs' ← vec_set offs r v;
      createDMDA_shift count' (r - 1) nLcl offs'
  end.

(** [for (r = 1; r < mpiSize; r++) offsetsAllProcs[r] += offsetsAllProcs[r - 1];] *)
Fixpoint createDMDA_accumulate (count : nat) (r : Z) (offs : list PetscInt)
  : PetscResult (list PetscInt) :=
  match count with
  | O => Ok offs
  | S count' =>
      a ← vec_at offs r;
      b ← vec_at offs (r - 1);
      offs' ← vec_set offs r (PetscInt_wrap (a + b));
      createDMDA_accumulate count' (r + 1) offs'
  end.

Definition createDMDA (self : SingleBodyPoints) : PetscResult SingleBodyPoints :=
  let da' := DMDACreate1d (comm self) (nPts self) (dim self) in
  let lclInfo := DMDAGetLocalInfo da' in
  let bgPt' := xs lclInfo in
  let nLclPts' := xm lclInfo in
  let edPt' := PetscInt_wrap (bgPt' + nLclPts') in
  let gathered := MPI_Allgather_nLclPts (comm self) (nPts self) (dim self) in
  if (length (nLclAllProcs self) <? length gathered)%nat then Undefined
  else
    let nLcl := gathered ++ drop (length gathered) (nLclAllProcs self) in
    let nLcl := (fun it => PetscInt_wrap (it * dim self)) <$> nLcl in
    offs ← createDMDA_shift (Z.to_nat (mpiSize self - 1)) (mpiSize self - 1)
                            nLcl (offsetsAllProcs self);
    offs ← createDMDA_accumulate (Z.to_nat (mpiSize self - 1)) 1 offs;
    Ok {| comm := comm self; mpiSize := mpiSize self; mpiRank := mpiRank self;
          dim := dim self; name := name self; filePath := filePath self;
          nPts := nPts self; coords := coords self; coords0 := coords0 self;
          nLclPts := nLclPts'; bgPt := bgPt'; edPt := edPt';
          meshIdx := meshIdx self; da := da';
          nLclAllProcs := nLcl; offsetsAllProcs := offs;
          info := info self |}.
End CreateDMDA.

Definition createInfoString (self : SingleBodyPoints) : PetscResult SingleBodyPoints :=
  let header :=
    if mpiRank self =? 0 then
      string_fill 80 "="%char +:+ endl +:+
      "Body " +:+ name self +:+ ":" +:+ endl +:+
      string_fill 80 "="%char +:+ endl +:+
      tab +:+ "Input mesh file: " +:+ filePath self +:+ endl +:+ endl +:+
      tab +:+ "Dimension: " +:+ pretty (dim self) +:+ endl +:+ endl +:+
      tab +:+ "Total number of Lagrangian points: " +:+ pretty (nPts self)
          +:+ endl +:+ endl +:+
      tab +:+ "Body is distributed to " +:+ pretty (mpiSize self)
          +:+ " processes" +:+ endl +:+ endl +:+
      tab +:+ "Distribution of Lagrangian points:" +:+ endl +:+ endl
    else EmptyString in
  let ss :=
    header +:+
    tab +:+ tab +:+ "Rank " +:+ pretty (mpiRank self) +:+ ":" +:+ endl +:+
    tab +:+ tab +:+ tab +:+ "Number of points: " +:+ pretty (nLclPts self)
        +:+ endl +:+
    tab +:+ tab +:+ tab +:+ "Range of points: [" +:+ pretty (bgPt self)
        +:+ ", " +:+ pretty (edPt self) +:+ ")" +:+ endl in
  Ok {| comm := comm self; mpiSize := mpiSize self; mpiRank := mpiRank self;
        dim := dim self; name := name self; filePath := filePath self;
        nPts := nPts self; coords := coords self; coords0 := coords0 self;
        nLclPts := nLclPts self; bgPt := bgPt self; edPt := edPt self;
        meshIdx := meshIdx self; da := da self;
        nLclAllProcs := nLclAllProcs self;
        offsetsAllProcs := offsetsAllProcs self;
        info := ss |}.

Section SingleBodyPoints.
Context `{DMDA_ownership}.

(** [io::readLagrangianPoints(file, nPts, coords)] (petibm/io.h) is not
    part of the sources at hand: its outcome on a file is taken as
    given. *)
Variable readLagrangianPoints :
  string -> PetscResult (PetscInt * list (list PetscReal)).

(** How [printf] renders one real under the conversion [%10.8e]. *)
Variable printf_e : PetscReal -> string.

(** The parameter [filepath] is not used by the source: the member
    [filePath] is read. *)
Definition readBody (self : SingleBodyPoints) (filepath : string)
  : PetscResult SingleBodyPoints :=
  '(nPts', coords') ← readLagrangianPoints (filePath self);
  Ok {| comm := comm self; mpiSize := mpiSize self; mpiRank := mpiRank self;
        dim := dim self; name := name self; filePath := filePath self;
        nPts := nPts'; coords := coords'; coords0 := coords0 self;
        nLclPts := nLclPts self; bgPt := bgPt self; edPt := edPt self;
        meshIdx := meshIdx self; da := da self;
        nLclAllProcs := nLclAllProcs self;
        offsetsAllProcs := offsetsAllProcs self;
        info := info self |}.

(** [init]'s parameters [dim] and [filePath] hide the members of the
    same name; they are [dim_arg] and [filePath_arg] here. *)
Definition init (self : SingleBodyPoints) (comm_arg : MPI_Comm)
    (dim_arg : PetscInt) (name_arg filePath_arg : string)
  : PetscResult SingleBodyPoints :=
  self ← readBody self filePath_arg;
  row0 ← vec_at (coords self) 0;
  if negb (dim_arg `mod` 2 ^ 32 =? Z.of_nat (length row0)) then
    Err PETSC_ERR_FILE_READ
        ("The dimension of Lagrangian points are different than that "
         +:+ "of the background mesh!" +:+ endl)
  else
    let self :=
      {| comm := comm self; mpiSize := mpiSize self; mpiRank := mpiRank self;
         dim := dim self; name := name self; filePath := filePath self;
         nPts := nPts self; coords := coords self; coords0 := coords self;
         nLclPts := nLclPts self; bgPt := bgPt self; edPt := edPt self;
         meshIdx := meshIdx self; da := da self;
         nLclAllProcs := nLclAllProcs self;
         offsetsAllProcs := offsetsAllProcs self;
         info := info self |} in
    self ← createDMDA self;
    let self :=
      {| comm := comm self; mpiSize := mpiSize self; mpiRank := mpiRank self;
         dim := dim self; name := name self; filePath := filePath self;
         nPts := nPts self; coords := coords self; coords0 := coords0 self;
         nLclPts := nLclPts self; bgPt := bgPt self; edPt := edPt self;
         meshIdx := replicate (Z.to_nat (nLclPts self))
                              (replicate (Z.to_nat dim_arg) 0);
         da := da self;
         nLclAllProcs := nLclAllProcs self;
         offsetsAllProcs := offsetsAllProcs self;
         info := info self |} in
    createInfoString self.

(** *** updateMeshIdx *)

(** The body of the inner loop for marker [i] (local number [c]) and
    direction [d]: the domain check, then the search.  [||] reads
    [mesh->max[d]] only when its left operand is false; the arguments of
    [SETERRQ3] read it in either case.  The search runs over the first
    [mesh->n[4][d]] entries of the array; the difference of pointers it
    ends in is at most that [PetscInt], so the index stored is exact. *)
Definition updateMeshIdx_body (self : SingleBodyPoints) (mesh : Mesh)
    (i c d : PetscInt) (mIdx : list (list PetscInt))
  : PetscResult (list (list PetscInt)) :=
  lo ← vec_at (mesh_min mesh) d;
  row ← vec_at (coords self) i;
  x ← vec_at row d;
  outside ← (if real_geb lo x then Ok true
             else hi ← vec_at (mesh_max mesh) d; Ok (real_leb hi x));
  if (outside : bool) then
    (* SETERRQ3 is handed coords[i][d], mesh->min[d] and mesh->max[d] *)
    _ ← vec_at (mesh_max mesh) d;
    Err PETSC_ERR_MAX_VALUE "body coordinate %g is outside domain [%g, %g] !"
  else
    coord4 ← vec_at (mesh_coord mesh) 4;
    arr ← vec_at coord4 d;
    n4 ← vec_at (mesh_n mesh) 4;
    n ← vec_at n4 d;
    if (n <? 0) || (Z.of_nat (length arr) <? n) then Undefined
    else
      let ub := upper_bound real_ltb (take (Z.to_nat n) arr) x in
      vec_set2 mIdx c d (Z.of_nat ub - 1).

(** [for (d = 0; d < dim; ++d)]; a failure leaves [meshIdx] as the
    iterations before it wrote it. *)
Fixpoint updateMeshIdx_dims (count : nat) (d : PetscInt)
    (self : SingleBodyPoints) (mesh : Mesh) (i c : PetscInt)
    (mIdx : list (list PetscInt))
  : PetscResult unit * list (list PetscInt) :=
  match count with
  | O => (Ok tt, mIdx)
  | S count' =>
      match updateMeshIdx_body self mesh i c d mIdx with
      | Ok mIdx' => updateMeshIdx_dims count' (d + 1) self mesh i c mIdx'
      | Err code msg => (Err code msg, mIdx)
      | Undefined => (Undefined, mIdx)
      end
  end.

(** [for (i = bgPt, c = 0; i < edPt; ++i, ++c)] *)
Fixpoint updateMeshIdx_points (count : nat) (i c : PetscInt)
    (self : SingleBodyPoints) (mesh : Mesh) (mIdx : list (list PetscInt))
  : PetscResult unit * list (list PetscInt) :=
  match count with
  | O => (Ok tt, mIdx)
  | S count' =>
      match updateMeshIdx_dims (Z.to_nat (dim self)) 0 self mesh i c mIdx with
      | (Ok _, mIdx') =>
          updateMeshIdx_points count' (i + 1) (c + 1) self mesh mIdx'
      | failure => failure
      end
  end.

Definition set_meshIdx (self : SingleBodyPoints) (mIdx : list (list PetscInt))
  : SingleBodyPoints :=
  {| comm := comm self; mpiSize := mpiSize self; mpiRank := mpiRank self;
     dim := dim self; name := name self; filePath := filePath self;
     nPts := nPts self; coords := coords self; coords0 := coords0 self;
     nLclPts := nLclPts self; bgPt := bgPt self; edPt := edPt self;
     meshIdx := mIdx; da := da self;
     nLclAllProcs := nLclAllProcs self;
     offsetsAllProcs := offsetsAllProcs self;
     info := info self |}.

(** Returns the error code and the object as the call leaves it. *)
Definition updateMeshIdx (self : SingleBodyPoints) (mesh : Mesh)
  : PetscResult unit * SingleBodyPoints :=
  let '(r, mIdx) :=
    updateMeshIdx_points (Z.to_nat (edPt self - bgPt self)) (bgPt self) 0
                         self mesh (meshIdx self) in
  (r, set_meshIdx self mIdx).

(** *** findProc and getGlobalIndex *)

Definition findProc (self : SingleBodyPoints) (i : PetscInt)
  : PetscResult PetscMPIInt :=
  if (i <? 0) || (i >=? nPts self) then
    Err PETSC_ERR_ARG_SIZ
        "Index %d of Lagrangian point on the body %s is out of range."
  else
    Ok (Z.of_nat (upper_bound Z.ltb (offsetsAllProcs self)
                              (PetscInt_wrap (i * dim self))) - 1).

Definition getGlobalIndex (self : SingleBodyPoints) (i dof : PetscInt)
  : PetscResult PetscInt :=
  if (i <? 0) || (i >=? nPts self) then
    Err PETSC_ERR_ARG_SIZ
        "Index %d of Lagrangian point on the body %s is out of range."
  else if (dof <? 0) || (dof >=? dim self) then
    Err PETSC_ERR_ARG_SIZ "DoF %d is not correct. The dimension is %d."
  else
    Ok (PetscInt_wrap (PetscInt_wrap (i * dim self) + dof)).

Definition getGlobalIndex_stencil (self : SingleBodyPoints) (s : MatStencil)
  : PetscResult PetscInt :=
  getGlobalIndex self (stencil_i s) (stencil_c s).

(** *** writeBody *)

Definition PetscViewerASCIIPrintf (viewer : PetscViewer) (line : string)
  : PetscViewer :=
  {| viewer_file := viewer_file viewer;
     viewer_lines := viewer_lines viewer ++ [line] |}.

(** [for (k = 0; k < nPts; ++k)] of the branch [dim == 3] *)
Fixpoint writeBody_rows3 (count : nat) (k : PetscInt)
    (self : SingleBodyPoints) (viewer : PetscViewer)
  : PetscResult PetscViewer :=
  match count with
  | O => Ok viewer
  | S count' =>
      row ← vec_at (coords self) k;
      x ← vec_at row 0;
      y ← vec_at row 1;
      z ← vec_at row 2;
      writeBody_rows3 count' (k + 1) self
        (PetscViewerASCIIPrintf viewer
           (printf_e x +:+ tab +:+ printf_e y +:+ tab +:+ printf_e z
            +:+ endl))
  end.

(** [for (k = 0; k < nPts; ++k)] of the branch [dim == 2] *)
Fixpoint writeBody_rows2 (count : nat) (k : PetscInt)
    (self : SingleBodyPoints) (viewer : PetscViewer)
  : PetscResult PetscViewer :=
  match count with
  | O => Ok viewer
  | S count' =>
      row ← vec_at (coords self) k;
      x ← vec_at row 0;
      y ← vec_at row 1;
      writeBody_rows2 count' (k + 1) self
        (PetscViewerASCIIPrintf viewer
           (printf_e x +:+ tab +:+ printf_e y +:+ endl))
  end.

(** Returns the error code, the viewer with what was printed to the
    file, and the object as the call leaves it.  The PETSc viewer calls
    themselves are taken to succeed. *)
Definition writeBody (self : SingleBodyPoints) (filepath : string)
  : PetscResult unit * PetscViewer * SingleBodyPoints :=
  let viewer := {| viewer_file := filepath; viewer_lines := [] |} in
  if dim self =? 3 then
    match writeBody_rows3 (Z.to_nat (nPts self)) 0 self viewer with
    | Ok viewer' => (Ok tt, viewer', self)
    | Err code msg => (Err code msg, viewer, self)
    | Undefined => (Undefined, viewer, self)
    end
  else if dim self =? 2 then
    match writeBody_rows2 (Z.to_nat (nPts self)) 0 self viewer with
    | Ok viewer' => (Ok tt, viewer', self)
    | Err code msg => (Err code msg, viewer, self)
    | Undefined => (Undefined, viewer, self)
    end
  else
    (Err PETSC_ERR_FILE_WRITE
         ("Function only supports 2D and 3D bodies." +:+ endl),
     viewer, self).
End SingleBodyPoints.

(** ** The discrete delta function (petibm/delta.h) *)

Module delta.
Local Open Scope R_scope.

(** Modelled from the spec: [petibm::delta::Roma_et_al_1999(r, dr)]
    (declared in petibm/delta.h, called by tests/misc/delta_test.cpp) is
    not part of the sources at hand.  The spec calls it the reference
    kernel, evaluated at the displacement scaled by the mesh spacing,
    zero beyond 1.5 mesh widths and with peak value 2/3 at zero
    distance: this is the three-point function of Roma, Peskin and
    Berger (1999) of the scaled distance [x = |r| / dr],
      (1 + sqrt(1 - 3 x^2)) / 3                 for x <= 0.5,
      (5 - 3 x - sqrt(1 - 3 (1 - x)^2)) / 6     for 0.5 < x <= 1.5,
      0                                         for 1.5 < x,
    over the real numbers. *)
Definition Roma_et_al_1999 (r dr : R) : R :=
  let x := Rabs r / dr in
  if Rlt_dec (3 / 2) x then 0
  else if Rlt_dec (1 / 2) x then
    (5 - 3 * x - sqrt (-3 * (1 - x) * (1 - x) + 1)) / 6
  else
    (1 + sqrt (-3 * x * x + 1)) / 3.
End delta.

(** * Vocabulary of the statements *)

Section UpperBoundVocabulary.
Context {A : Type} (comp : A -> A -> bool) (a : list A) (val : A).

(** The precondition of [std::upper_bound]: the elements for which
    [val < element] is false precede those for which it is true. *)
Definition partitioned : Prop :=
  forall (i j : nat) (x y : A),
    (i <= j)%nat -> a !! i = Some x -> a !! j = Some y ->
    comp val x = true -> comp val y = true.

Definition all_false_below (k : nat) : Prop :=
  forall (j : nat) (x : A), (j < k)%nat -> a !! j = Some x -> comp val x = false.

Definition all_true_from (k : nat) : Prop :=
  forall (j : nat) (x : A), (k <= j)%nat -> a !! j = Some x -> comp val x = true.
End UpperBoundVocabulary.

(** An enumeration whose enumerators are numbered from 0 in the order of
    the switch, as C++ numbers enumerators that carry no initialiser. *)
#[local] Instance BCType_consecutive : BCTypeEnum.
Proof.
  refine {| NOBC := 0; PERIODIC := 1; DIRICHLET := 2; NEUMANN := 3;
            CONVECTIVE := 4 |}.
  apply (bool_decide_unpack _). vm_compute. exact I.
Defined.

(** PETSc's default for a 1-D DMDA: every process gets [M / m] points
    and the [M % m] left over go one each to the first processes ([/] and
    [%] are C's truncating operators). *)
Definition DMDA_regular_lx (m : PetscMPIInt) (M : PetscInt) : list PetscInt :=
  (fun r => M ÷ m + (if Z.rem M m >? r then 1 else 0)) <$> seqZ 0 m.

#[local] Instance DMDA_regular : DMDA_ownership.
Proof.
  refine {| DMDA_lx := DMDA_regular_lx |}.
  - intros m M Hm HM. unfold DMDA_regular_lx.
    rewrite length_fmap. apply length_seqZ.
  - intros m M Hm HM. unfold DMDA_regular_lx.
    apply Forall_fmap, Forall_forall. intros r _. cbn.
    assert (0 <= M ÷ m) by (apply Z.quot_pos; lia).
    destruct (Z.rem M m >? r); lia.
  - intros m M Hm HM. unfold DMDA_regular_lx.
    assert (M = m * (M ÷ m) + Z.rem M m) as Hqr by (apply Z.quot_rem'; lia).
    assert (0 <= Z.rem M m < m) as Ht by (apply Z.rem_bound_pos; lia).
    generalize dependent (M ÷ m). generalize dependent (Z.rem M m).
    intros t Ht q Hqr.
    assert (forall (n : nat) (k : Z), 0 <= k ->
              sumZ ((fun r => q + (if t >? r then 1 else 0))
                      <$> seqZ k (Z.of_nat n))
              = Z.of_nat n * q + (Z.min (k + Z.of_nat n) t - Z.min k t))
      as Hsum.
    { induction n as [|n IH]; intros k Hk.
      - change (seqZ k (Z.of_nat 0)) with (@nil Z). cbn [fmap list_fmap sumZ foldr].
        lia.
      - rewrite seqZ_cons by lia. cbn [fmap list_fmap sumZ foldr].
        fold (sumZ ((fun r => q + (if t >? r then 1 else 0))
                      <$> seqZ (Z.succ k) (Z.pred (Z.of_nat (S n))))).
        replace (Z.pred (Z.of_nat (S n))) with (Z.of_nat n) by lia.
        rewrite IH by lia.
        destruct (Z.gtb_spec t k); lia. }
    specialize (Hsum (Z.to_nat m) 0 ltac:(lia)).
    rewrite Z2Nat.id in Hsum by lia. rewrite Hsum. lia.
Defined.

Section OwnershipVocabulary.
Context `{DMDA_ownership}.

(** The local info of the process of rank [r] among the [m] processes
    that share a DMDA of [M] points. *)
Definition rank_info (m : PetscMPIInt) (M dof : PetscInt) (r : PetscMPIInt)
  : DMDALocalInfo :=
  DMDAGetLocalInfo
    (DMDACreate1d {| comm_size := m; comm_rank := r |} M dof).
End OwnershipVocabulary.

(** The running sums the second loop of [createDMDA] leaves in the
    offset table: entry 0 keeps the value [o0] it had, and entry [j + 1]
    is the sum, in [PetscInt], of [counts j] and entry [j]. *)
Fixpoint offset_sum (counts : nat -> Z) (o0 : Z) (j : nat) : Z :=
  match j with
  | O => o0
  | S j' => PetscInt_wrap (counts j' + offset_sum counts o0 j')
  end.

(** The object as the base-class constructor hands it to [init], as far
    as [createDMDA] depends on it: the rank and size members mirror the
    communicator and both per-process tables hold one zero per process. *)
Record base_constructed (self : SingleBodyPoints) : Prop := {
  base_size : mpiSize self = comm_size (comm self);
  base_rank : mpiRank self = comm_rank (comm self);
  base_size_pos : 1 <= mpiSize self;
  base_nLcl : length (nLclAllProcs self) = Z.to_nat (mpiSize self);
  base_offsets : length (offsetsAllProcs self) = Z.to_nat (mpiSize self);
  base_offsets_0 : offsetsAllProcs self !! 0%nat = Some 0
}.

(** The objects of all [P] processes of the communicator, in rank order,
    as they enter a collective call on a body of [N] markers in [D]
    dimensions. *)
Definition collective (P : PetscMPIInt) (N D : PetscInt)
    (world : list SingleBodyPoints) : Prop :=
  length world = Z.to_nat P /\
  forall (r : nat) (self : SingleBodyPoints),
    world !! r = Some self ->
    base_constructed self /\ mpiSize self = P /\ mpiRank self = Z.of_nat r /\
    nPts self = N /\ dim self = D.

(** [v[i][j]] read on a vector of vectors. *)
Definition vec_at2 {A} (v : list (list A)) (i j : Z) : PetscResult A :=
  row ← vec_at v i; vec_at row j.

(** The comparisons as propositions. *)
Definition real_lt (x y : PetscReal) : Prop := real_ltb x y = true.
Definition real_le (x y : PetscReal) : Prop := real_leb x y = true.

(** A non-decreasing array of numbers. *)
Definition sorted (arr : list PetscReal) : Prop :=
  forall (j j' : nat) (y y' : PetscReal),
    (j <= j')%nat -> arr !! j = Some y -> arr !! j' = Some y' -> real_le y y'.

(** [k] is the index of the last of the first [n] entries of [arr] that
    is less than or equal to [x] ([-1] if there is none): the entries up
    to [k] are at most [x] and the entries after [k] exceed [x]. *)
Definition last_not_above (arr : list PetscReal) (n : Z) (x : PetscReal)
    (k : Z) : Prop :=
  -1 <= k < n /\
  (forall (j : Z) (y : PetscReal),
      0 <= j <= k -> arr !! Z.to_nat j = Some y -> real_le y x) /\
  (forall (j : Z) (y : PetscReal),
      k < j < n -> arr !! Z.to_nat j = Some y -> real_lt x y).

(** Coordinate [d] of marker [i] lies strictly between the bounds of the
    mesh in direction [d]. *)
Definition inside_domain (self : SingleBodyPoints) (mesh : Mesh) (i d : Z)
  : Prop :=
  exists x lo hi : PetscReal,
    vec_at2 (coords self) i d = Ok x /\
    vec_at (mesh_min mesh) d = Ok lo /\ vec_at (mesh_max mesh) d = Ok hi /\
    real_lt lo x /\ real_lt x hi.

(** The test of [updateMeshIdx] holds of coordinate [d] of marker [i]:
    the lower bound of the mesh in direction [d] is greater than or equal
    to it, or the upper bound is less than or equal to it. *)
Definition outside_domain (self : SingleBodyPoints) (mesh : Mesh) (i d : Z)
  : Prop :=
  exists x lo hi : PetscReal,
    vec_at2 (coords self) i d = Ok x /\
    vec_at (mesh_min mesh) d = Ok lo /\ vec_at (mesh_max mesh) d = Ok hi /\
    (real_geb lo x = true \/ real_leb hi x = true).

(** The test of [updateMeshIdx] does not hold of coordinate [d] of
    marker [i]: both comparisons are false. *)
Definition passes_check (self : SingleBodyPoints) (mesh : Mesh) (i d : Z)
  : Prop :=
  exists x lo hi : PetscReal,
    vec_at2 (coords self) i d = Ok x /\
    vec_at (mesh_min mesh) d = Ok lo /\ vec_at (mesh_max mesh) d = Ok hi /\
    real_geb lo x = false /\ real_leb hi x = false.

(** Coordinate [d] of marker [i] and both bounds of the mesh in
    direction [d] are numbers. *)
Definition numbers_at (self : SingleBodyPoints) (mesh : Mesh) (i d : Z)
  : Prop :=
  exists x lo hi : PetscReal,
    vec_at2 (coords self) i d = Ok x /\
    vec_at (mesh_min mesh) d = Ok lo /\ vec_at (mesh_max mesh) d = Ok hi /\
    x <> NaN /\ lo <> NaN /\ hi <> NaN.

(** The data [updateMeshIdx] indexes are there: a coordinate for every
    local marker and direction, the bounds and the cell boundaries of the
    mesh for every direction, and a slot of [meshIdx] for every local
    marker and direction. *)
Record indexable (self : SingleBodyPoints) (mesh : Mesh) : Prop := {
  ix_bgPt : 0 <= bgPt self;
  ix_coords : forall i d, bgPt self <= i < edPt self -> 0 <= d < dim self ->
      exists x, vec_at2 (coords self) i d = Ok x;
  ix_min : forall d, 0 <= d < dim self ->
      exists lo, vec_at (mesh_min mesh) d = Ok lo;
  ix_max : forall d, 0 <= d < dim self ->
      exists hi, vec_at (mesh_max mesh) d = Ok hi;
  ix_coord : forall d, 0 <= d < dim self ->
      exists arr n, vec_at2 (mesh_coord mesh) 4 d = Ok arr /\
                    vec_at2 (mesh_n mesh) 4 d = Ok n /\
                    0 <= n <= Z.of_nat (length arr);
  ix_meshIdx : forall c d, 0 <= c < edPt self - bgPt self -> 0 <= d < dim self ->
      exists k, vec_at2 (meshIdx self) c d = Ok k
}.

(** Slot [(c, d)] of [mIdx] holds what the search of [updateMeshIdx]
    returns for coordinate [d] of marker [i], less one. *)
Definition entry_located (self : SingleBodyPoints) (mesh : Mesh)
    (mIdx : list (list Z)) (i c d : Z) : Prop :=
  exists (x : PetscReal) (arr : list PetscReal) (n : Z),
    vec_at2 (coords self) i d = Ok x /\
    vec_at2 (mesh_coord mesh) 4 d = Ok arr /\
    vec_at2 (mesh_n mesh) 4 d = Ok n /\
    0 <= n <= Z.of_nat (length arr) /\
    vec_at2 mIdx c d
    = Ok (Z.of_nat (upper_bound real_ltb (take (Z.to_nat n) arr) x) - 1).

(** What iteration [d] of the inner loop of [updateMeshIdx] reads for
    marker [i] is there. *)
Definition dim_indexable (self : SingleBodyPoints) (mesh : Mesh) (i d : Z)
  : Prop :=
  (exists x, vec_at2 (coords self) i d = Ok x) /\
  (exists lo, vec_at (mesh_min mesh) d = Ok lo) /\
  (exists hi, vec_at (mesh_max mesh) d = Ok hi) /\
  (exists arr n, vec_at2 (mesh_coord mesh) 4 d = Ok arr /\
                 vec_at2 (mesh_n mesh) 4 d = Ok n /\
                 0 <= n <= Z.of_nat (length arr)).

(** ** Sample data

    A body of one marker at (1, 1/2) owned by the only process of its
    communicator, and a 2 x 2 mesh of the square [0, 2] x [0, 2] with
    cell boundaries at 0, 1 and 2 in both directions. *)
Definition sample_body : SingleBodyPoints :=
  {| comm := {| comm_size := 1; comm_rank := 0 |};
     mpiSize := 1; mpiRank := 0; dim := 2;
     name := "body"; filePath := "body.txt";
     nPts := 1; coords := [[Num 1; Num (1 # 2)]];
     coords0 := [[Num 1; Num (1 # 2)]];
     nLclPts := 1; bgPt := 0; edPt := 1;
     meshIdx := [[0; 0]];
     da := {| da_comm := {| comm_size := 1; comm_rank := 0 |};
              da_M := 1; da_dof := 2; da_lx := [1] |};
     nLclAllProcs := [2]; offsetsAllProcs := [0];
     info := EmptyString |}.

Definition sample_mesh : Mesh :=
  {| mesh_min := [Num 0; Num 0];
     mesh_max := [Num 2; Num 2];
     mesh_n := [[2; 2]; [1; 2]; [2; 1]; [0; 0]; [3; 3]];
     mesh_coord := [[Num <$> [1 # 2; 3 # 2]; Num <$> [1 # 2; 3 # 2]];
                    [Num <$> [1]; Num <$> [1 # 2; 3 # 2]];
                    [Num <$> [1 # 2; 3 # 2]; Num <$> [1]];
                    [[]; []];
                    [Num <$> [0; 1; 2]; Num <$> [0; 1; 2]]]%Q |}.

(** [sample_body] with other coordinates for its marker. *)
Definition sample_body_at (x y : PetscReal) : SingleBodyPoints :=
  {| comm := comm sample_body; mpiSize := 1; mpiRank := 0; dim := 2;
     name := "body"; filePath := "body.txt";
     nPts := 1; coords := [[x; y]]; coords0 := [[x; y]];
     nLclPts := 1; bgPt := 0; edPt := 1;
     meshIdx := [[0; 0]];
     da := da sample_body;
     nLclAllProcs := [2]; offsetsAllProcs := [0];
     info := EmptyString |}.

(** The marker moved onto the upper bound of the first direction. *)
Definition sample_body_on_bound : SingleBodyPoints :=
  sample_body_at (Num 2) (Num (1 # 2)).

(** The marker with a NaN for its first coordinate. *)
Definition sample_body_nan : SingleBodyPoints :=
  sample_body_at NaN (Num (1 # 2)).

(** The line [writeBody] prints for one marker: the first two, or the
    first three, coordinates of its row. *)
Definition coordinate_line (printf_e : PetscReal -> string) (D : Z)
    (row : list PetscReal) : string :=
  match D, row with
  | 2, x :: y :: _ => printf_e x +:+ tab +:+ printf_e y +:+ endl
  | 3, x :: y :: z :: _ =>
      printf_e x +:+ tab +:+ printf_e y +:+ tab +:+ printf_e z +:+ endl
  | _, _ => EmptyString
  end.

(** A rendering of reals used in examples: the numerator, a slash and
    the denominator of a finite value. *)
Definition sample_printf (x : PetscReal) : string :=
  match x with
  | NaN => "nan"
  | NegInf => "-inf"
  | Num q => pretty (Qnum q) +:+ "/" +:+ pretty (Zpos (Qden q))
  | PosInf => "inf"
  end.

(** A reader that finds the marker of [sample_body] in every file. *)
Definition sample_reader (file : string)
  : PetscResult (Z * list (list PetscReal)) :=
  Ok (1, [[Num 1; Num (1 # 2)]]).

(** The object of the process of rank [r] out of [P] as [init] receives
    it for a body of [N] markers in [D] dimensions that carries no
    coordinates yet. *)
Definition base_body (P r : Z) (N D : Z) : SingleBodyPoints :=
  {| comm := {| comm_size := P; comm_rank := r |};
     mpiSize := P; mpiRank := r; dim := D;
     name := "body"; filePath := "body.txt";
     nPts := N; coords := []; coords0 := [];
     nLclPts := 0; bgPt := 0; edPt := 0;
     meshIdx := [];
     da := {| da_comm := {| comm_size := P; comm_rank := r |};
              da_M := 0; da_dof := 0; da_lx := [] |};
     nLclAllProcs := replicate (Z.to_nat P) 0;
     offsetsAllProcs := replicate (Z.to_nat P) 0;
     info := EmptyString |}.

(** Two processes sharing a body of three markers in two dimensions,
    before and after [createDMDA] under PETSc's default division. *)
Definition sample_world : list SingleBodyPoints :=
  [base_body 2 0 3 2; base_body 2 1 3 2].

Definition sample_world_after : list SingleBodyPoints :=
  Eval vm_compute in
    match mapM createDMDA sample_world with
    | Ok w => w
    | _ => []
    end.

(** Two, and four, processes sharing a body of 2 000 000 000 markers in
    two dimensions: its 4 000 000 000 degrees of freedom are more than a
    [PetscInt] counts. *)
Definition large_world_2 : list SingleBodyPoints :=
  [base_body 2 0 2000000000 2; base_body 2 1 2000000000 2].


Definition large_world_2_after : list SingleBodyPoints :=
  Eval vm_compute in
    match mapM createDMDA large_world_2 with
    | Ok w => w
    | _ => []
    end.


(** * Further vocabulary *)

(** In direction [d] the first and the last cell boundary of the mesh
    enclose the domain. *)
Definition boundaries_enclose_domain (mesh : Mesh) (d : Z) : Prop :=
  exists (arr : list PetscReal) (n : Z) (lo hi first last : PetscReal),
    vec_at2 (mesh_coord mesh) 4 d = Ok arr /\
    vec_at2 (mesh_n mesh) 4 d = Ok n /\ 1 <= n /\
    vec_at (mesh_min mesh) d = Ok lo /\ vec_at (mesh_max mesh) d = Ok hi /\
    arr !! 0%nat = Some first /\ arr !! Z.to_nat (n - 1) = Some last /\
    real_le first lo /\ real_le hi last.

(** The mesh holds bounds and cell boundaries for the directions 0 to
    [D - 1]. *)
Definition mesh_indexable (mesh : Mesh) (D : Z) : Prop :=
  forall d, 0 <= d < D ->
    (exists lo, vec_at (mesh_min mesh) d = Ok lo) /\
    (exists hi, vec_at (mesh_max mesh) d = Ok hi) /\
    (exists arr n, vec_at2 (mesh_coord mesh) 4 d = Ok arr /\
                   vec_at2 (mesh_n mesh) 4 d = Ok n /\
                   0 <= n <= Z.of_nat (length arr)).

(** A body of two markers on one process: the first inside the square of
    [sample_mesh], the second to the right of it.  The slots of [meshIdx]
    hold 7 to tell them from indices the search can return. *)
Definition sample_two_markers : SingleBodyPoints :=
  {| comm := comm sample_body; mpiSize := 1; mpiRank := 0; dim := 2;
     name := "body"; filePath := "body.txt";
     nPts := 2;
     coords := [Num <$> [3 # 2; 1 # 2]; Num <$> [5 # 2; 1 # 2]]%Q;
     coords0 := [Num <$> [3 # 2; 1 # 2]; Num <$> [5 # 2; 1 # 2]]%Q;
     nLclPts := 2; bgPt := 0; edPt := 2;
     meshIdx := [[7; 7]; [7; 7]];
     da := {| da_comm := comm sample_body; da_M := 2; da_dof := 2;
              da_lx := [2] |};
     nLclAllProcs := [4]; offsetsAllProcs := [0];
     info := EmptyString |}.

(** A body of two markers on one process, both inside the square of
    [sample_mesh], in its left and right cell. *)
Definition sample_pair : SingleBodyPoints :=
  {| comm := comm sample_body; mpiSize := 1; mpiRank := 0; dim := 2;
     name := "body"; filePath := "body.txt";
     nPts := 2;
     coords := [Num <$> [1 # 2; 1 # 2]; Num <$> [3 # 2; 1 # 2]]%Q;
     coords0 := [Num <$> [1 # 2; 1 # 2]; Num <$> [3 # 2; 1 # 2]]%Q;
     nLclPts := 2; bgPt := 0; edPt := 2;
     meshIdx := [[7; 7]; [7; 7]];
     da := {| da_comm := comm sample_body; da_M := 2; da_dof := 2;
              da_lx := [2] |};
     nLclAllProcs := [4]; offsetsAllProcs := [0];
     info := EmptyString |}.

(** * Properties *)

(** ** Results, vectors and comparisons *)

Lemma vec_at_Ok {A} (v : list A) (i : Z) (a : A) :
  vec_at v i = Ok a <-> 0 <= i /\ v !! Z.to_nat i = Some a.
Proof.
  unfold vec_at. destruct (Z.ltb_spec i 0).
  - split; [discriminate | lia].
  - destruct (v !! Z.to_nat i) eqn:E; split; intros Hx;
      try discriminate; try (destruct Hx; congruence).
    inversion Hx; subst. split; [lia | reflexivity].
Qed.

Lemma vec_at_nat {A} (v : list A) (j : nat) (a : A) :
  v !! j = Some a -> vec_at v (Z.of_nat j) = Ok a.
Proof. intros Hj. apply vec_at_Ok. rewrite Nat2Z.id. split; [lia | done]. Qed.

Lemma vec_set_Ok {A} (v v' : list A) (i : Z) (a : A) :
  vec_set v i a = Ok v' <->
  0 <= i /\ (Z.to_nat i < length v)%nat /\ v' = <[Z.to_nat i := a]> v.
Proof.
  unfold vec_set. destruct (Z.ltb_spec i 0).
  - split; [discriminate | lia].
  - destruct (Nat.ltb_spec (Z.to_nat i) (length v)); split; intros Hx;
      try discriminate; try lia.
    + inversion Hx; subst. repeat split; [lia | lia].
    + destruct Hx as (_ & _ & ->). reflexivity.
Qed.

Lemma vec_set_nat {A} (v : list A) (j : nat) (a : A) :
  (j < length v)%nat -> vec_set v (Z.of_nat j) a = Ok (<[j := a]> v).
Proof.
  intros Hj. apply vec_set_Ok. rewrite Nat2Z.id. repeat split; [lia | done].
Qed.

Lemma Qltb_lt (x y : Q) : Qltb x y = true <-> (x < y)%Q.
Proof. unfold Qltb, Qlt. apply Z.ltb_lt. Qed.

Lemma Qleb_le (x y : Q) : Qleb x y = true <-> (x <= y)%Q.
Proof. unfold Qleb, Qle. apply Z.leb_le. Qed.

Lemma Qltb_ge (x y : Q) : Qltb x y = false <-> (y <= x)%Q.
Proof.
  rewrite <- Bool.not_true_iff_false, Qltb_lt. split.
  - apply Qnot_lt_le.
  - intros Hle Hlt. exact (Qlt_not_le _ _ Hlt Hle).
Qed.

Lemma Qleb_gt (x y : Q) : Qleb x y = false <-> (y < x)%Q.
Proof.
  rewrite <- Bool.not_true_iff_false, Qleb_le. split.
  - apply Qnot_le_lt.
  - intros Hlt Hle. exact (Qlt_not_le _ _ Hlt Hle).
Qed.

(** ** Comparisons of doubles *)

Lemma real_leb_numbers (x y : PetscReal) :
  real_leb x y = true -> x <> NaN /\ y <> NaN.
Proof. destruct x, y; cbn; intros Hx; split; congruence. Qed.

(** Of two numbers, one is below the other or the other is at most
    the one. *)
Lemma real_ltb_false_leb (x y : PetscReal) :
  x <> NaN -> y <> NaN -> real_ltb x y = false -> real_leb y x = true.
Proof.
  destruct x as [| |a|], y as [| |b|]; cbn; intros Hx Hy Hlt;
    try congruence.
  apply Qleb_le, Qltb_ge. exact Hlt.
Qed.

Lemma real_leb_false_ltb (x y : PetscReal) :
  x <> NaN -> y <> NaN -> real_leb x y = false -> real_ltb y x = true.
Proof.
  destruct x as [| |a|], y as [| |b|]; cbn; intros Hx Hy Hle;
    try congruence.
  apply Qltb_lt, Qleb_gt. exact Hle.
Qed.

Lemma real_leb_ltb_false (x y : PetscReal) :
  real_leb y x = true -> real_ltb x y = false.
Proof.
  destruct x as [| |a|], y as [| |b|]; cbn; intros Hle; try congruence.
  apply Qltb_ge, Qleb_le. exact Hle.
Qed.

Lemma real_ltb_leb_false (x y : PetscReal) :
  real_ltb y x = true -> real_leb x y = false.
Proof.
  destruct x as [| |a|], y as [| |b|]; cbn; intros Hlt; try congruence.
  apply Qleb_gt, Qltb_lt. exact Hlt.
Qed.

Lemma real_lt_le_trans (x y z : PetscReal) :
  real_ltb x y = true -> real_leb y z = true -> real_ltb x z = true.
Proof.
  destruct x as [| |a|], y as [| |b|], z as [| |c|]; cbn; intros Hxy Hyz;
    try congruence.
  apply Qltb_lt. apply Qltb_lt in Hxy. apply Qleb_le in Hyz.
  exact (Qlt_le_trans _ _ _ Hxy Hyz).
Qed.

Lemma real_le_trans (x y z : PetscReal) :
  real_leb x y = true -> real_leb y z = true -> real_leb x z = true.
Proof.
  destruct x as [| |a|], y as [| |b|], z as [| |c|]; cbn; intros Hxy Hyz;
    try congruence.
  apply Qleb_le. apply Qleb_le in Hxy, Hyz.
  exact (Qle_trans _ _ _ Hxy Hyz).
Qed.

(** No comparison with a NaN holds. *)
Lemma real_cmp_NaN (y : PetscReal) :
  real_ltb NaN y = false /\ real_ltb y NaN = false /\
  real_leb NaN y = false /\ real_leb y NaN = false /\
  real_geb NaN y = false /\ real_geb y NaN = false.
Proof. unfold real_geb. destruct y; repeat split. Qed.

(** ** Arithmetic in PetscInt *)

Lemma PetscInt_wrap_id (z : Z) :
  PETSC_MIN_INT <= z <= PETSC_MAX_INT -> PetscInt_wrap z = z.
Proof.
  unfold PetscInt_wrap, PETSC_MIN_INT, PETSC_MAX_INT.
  change (2 ^ 32) with 4294967296. intros Hz.
  rewrite Z.mod_small by lia. lia.
Qed.

Lemma PetscInt_wrap_range (z : Z) :
  PETSC_MIN_INT <= PetscInt_wrap z <= PETSC_MAX_INT.
Proof.
  unfold PetscInt_wrap, PETSC_MIN_INT, PETSC_MAX_INT.
  change (2 ^ 32) with 4294967296.
  pose proof (Z.mod_pos_bound (z - -2147483648) 4294967296 ltac:(lia)). lia.
Qed.

(** The wrapped value of a non-negative result never exceeds it. *)
Lemma PetscInt_wrap_le (z : Z) : 0 <= z -> PetscInt_wrap z <= z.
Proof.
  unfold PetscInt_wrap, PETSC_MIN_INT. change (2 ^ 32) with 4294967296.
  intros Hz.
  pose proof (Z.mod_le (z - -2147483648) 4294967296 ltac:(lia) ltac:(lia)).
  lia.
Qed.

(** The flattened indices of [N] markers with [D] degrees of freedom
    each lie in [0, N * D). *)
Lemma flat_index_bounds (N D i dof : Z) :
  0 <= i < N -> 0 <= dof < D ->
  0 <= i * D /\ i * D <= i * D + dof /\ i * D + dof < N * D.
Proof.
  intros Hi Hdof.
  assert ((i + 1) * D <= N * D) by (apply Z.mul_le_mono_nonneg_r; lia).
  assert (0 <= i * D) by (apply Z.mul_nonneg_nonneg; lia).
  lia.
Qed.

(** Where [N * D] fits a [PetscInt], the code computes them exactly. *)
Lemma flat_index_exact (N D i dof : Z) :
  N * D <= PETSC_MAX_INT -> 0 <= i < N -> 0 <= dof < D ->
  PetscInt_wrap (i * D) = i * D /\
  PetscInt_wrap (PetscInt_wrap (i * D) + dof) = i * D + dof.
Proof.
  intros Hfit Hi Hdof.
  pose proof (flat_index_bounds N D i dof Hi Hdof) as (H0 & H1 & H2).
  rewrite !PetscInt_wrap_id; [done | |];
    unfold PETSC_MIN_INT, PETSC_MAX_INT in *; lia.
Qed.

Example PetscInt_wrap_values :
  PetscInt_wrap 2147483647 = 2147483647 /\
  PetscInt_wrap 2147483648 = -2147483648 /\
  PetscInt_wrap 3000000000 = -1294967296 /\
  PetscInt_wrap (-2147483649) = 2147483647.
Proof. repeat split. Qed.

(** ** std::upper_bound returns the partition point *)

Section UpperBound.
Context {A : Type} (comp : A -> A -> bool) (a : list A) (val : A).

Local Abbreviation partitioned := (partitioned comp a val).
Local Abbreviation all_false_below := (all_false_below comp a val).
Local Abbreviation all_true_from := (all_true_from comp a val).

Lemma upper_bound_loop_spec (fuel : nat) :
  partitioned ->
  forall first len : nat,
    (len <= fuel)%nat -> (first + len <= length a)%nat ->
    all_false_below first -> all_true_from (first + len) ->
    let ub := upper_bound_loop comp a val fuel first len in
    (first <= ub <= first + len)%nat /\ all_false_below ub /\ all_true_from ub.
Proof.
  intros Hpart. induction fuel as [|fuel IH]; intros first len Hfuel Hlen Hlo Hhi.
  - assert (len = 0)%nat as -> by lia. simpl.
    rewrite Nat.add_0_r in Hhi. repeat split; [lia | lia | done | done].
  - simpl. destruct (Nat.eqb_spec len 0) as [-> | Hpos].
    + rewrite Nat.add_0_r in Hhi. repeat split; [lia | lia | done | done].
    + assert (Nat.div2 len < len)%nat as Hhalf by (apply Nat.lt_div2; lia).
      destruct (lookup_lt_is_Some_2 a (first + Nat.div2 len)%nat) as [m Hm];
        [lia |].
      rewrite Hm. generalize dependent (Nat.div2 len). intros half Hhalf Hm.
      destruct (comp val m) eqn:Hc.
      * destruct (IH first half) as (Hr & Hf & Ht);
          [lia | lia | done | | ].
        { intros j x Hj Hx. exact (Hpart _ _ _ _ Hj Hm Hx Hc). }
        repeat split; [lia | lia | done | done].
      * destruct (IH (first + half + 1)%nat (len - half - 1)%nat)
          as (Hr & Hf & Ht);
          [lia | lia | | | ].
        { intros j x Hj Hx. destruct (comp val x) eqn:Hcx; [| done].
          assert (j <= first + half)%nat as Hle by lia.
          rewrite (Hpart _ _ _ _ Hle Hx Hm Hcx) in Hc. discriminate. }
        { intros j x Hj Hx. apply (Hhi j x); [lia | done]. }
        repeat split; [lia | lia | done | done].
Qed.

(** On a partitioned range the result is the first position whose
    element compares greater than [val] (the length if there is none). *)
Lemma upper_bound_spec :
  partitioned ->
  (upper_bound comp a val <= length a)%nat /\
  all_false_below (upper_bound comp a val) /\
  all_true_from (upper_bound comp a val).
Proof.
  intros Hpart. unfold upper_bound.
  destruct (upper_bound_loop_spec (length a) Hpart 0 (length a))
    as (Hr & Hf & Ht); [lia | lia | | | ].
  - intros j x Hj. lia.
  - intros j x Hj Hx. apply lookup_lt_Some in Hx. simpl in Hj. lia.
  - repeat split; [lia | done | done].
Qed.
End UpperBound.

Example upper_bound_on_offsets :
  upper_bound Z.ltb [0; 4; 4; 10] 4 = 3%nat /\
  upper_bound Z.ltb [0; 4; 4; 10] 3 = 1%nat /\
  upper_bound Z.ltb [0; 4; 4; 10] 10 = 4%nat.
Proof. repeat split. Qed.

Example upper_bound_on_boundaries :
  upper_bound real_ltb (Num <$> [0; 1; 2]%Q) (Num (1 # 2)) = 1%nat /\
  upper_bound real_ltb (Num <$> [0; 1; 2]%Q) (Num 1) = 2%nat /\
  upper_bound real_ltb (Num <$> [0; 1; 2]%Q) NaN = 3%nat.
Proof. repeat split. Qed.

(** No element compares greater than a NaN: the search for a NaN runs
    to the end of the range. *)
Lemma upper_bound_NaN (arr : list PetscReal) :
  upper_bound real_ltb arr NaN = length arr.
Proof.
  destruct (upper_bound_spec real_ltb arr NaN) as (Hub & _ & Hfrom).
  { intros i j x y _ _ _ Hx. cbn in Hx. discriminate Hx. }
  destruct (decide (upper_bound real_ltb arr NaN < length arr)%nat)
    as [Hlt | Hge]; [| lia].
  destruct (lookup_lt_is_Some_2 arr _ Hlt) as [y Hy].
  pose proof (Hfrom _ y (Nat.le_refl _) Hy) as Hc. cbn in Hc. discriminate Hc.
Qed.

(** ** createSingleBoundary *)

Section BoundaryFacts.
Context {MeshT BCLocT FieldT : Type} `{BCTypeEnum}.

Lemma BCType_cases (bcType : Z) :
  In bcType [NOBC; PERIODIC; DIRICHLET; NEUMANN; CONVECTIVE] \/
  (bcType =? NOBC) = false /\ (bcType =? PERIODIC) = false /\
  (bcType =? DIRICHLET) = false /\ (bcType =? NEUMANN) = false /\
  (bcType =? CONVECTIVE) = false.
Proof.
  destruct (Z.eqb_spec bcType NOBC); [left; simpl; auto |].
  destruct (Z.eqb_spec bcType PERIODIC); [left; simpl; auto |].
  destruct (Z.eqb_spec bcType DIRICHLET); [left; simpl; auto |].
  destruct (Z.eqb_spec bcType NEUMANN); [left; simpl; auto |].
  destruct (Z.eqb_spec bcType CONVECTIVE); [left; simpl; auto 6 |].
  right. repeat split.
Qed.

Lemma BCType_neq :
  NOBC <> PERIODIC /\ NOBC <> DIRICHLET /\ NOBC <> NEUMANN /\
  NOBC <> CONVECTIVE /\ PERIODIC <> DIRICHLET /\ PERIODIC <> NEUMANN /\
  PERIODIC <> CONVECTIVE /\ DIRICHLET <> NEUMANN /\
  DIRICHLET <> CONVECTIVE /\ NEUMANN <> CONVECTIVE.
Proof.
  pose proof BCType_distinct as Hd.
  repeat (apply NoDup_cons in Hd; destruct Hd as [Hx Hd];
          rewrite ?not_elem_of_cons in Hx; revert Hx).
  tauto.
Qed.

(** C1, as the code has it: the call returns 0 for every tag value; for
    each of the five enumerators the output parameter receives a new
    object of the matching class built from the four arguments; for a
    value that is none of the five no case of the switch matches and the
    output parameter keeps what it held. *)
Theorem createSingleBoundary_dispatch (mesh : MeshT) (loc : BCLocT)
    (field : FieldT) (value : PetscReal) (bcType : Z)
    (singleBd : SingleBoundary MeshT BCLocT FieldT) :
  let mk cls := Some (Build_SingleBoundaryObj cls mesh loc field value) in
  let out := createSingleBoundary mesh loc field value bcType singleBd in
  out.1 = Ok tt /\
  (bcType = NOBC -> out.2 = mk SingleBoundaryBase) /\
  (bcType = PERIODIC -> out.2 = mk SingleBoundaryPeriodic) /\
  (bcType = DIRICHLET -> out.2 = mk SingleBoundaryDirichlet) /\
  (bcType = NEUMANN -> out.2 = mk SingleBoundaryNeumann) /\
  (bcType = CONVECTIVE -> out.2 = mk SingleBoundaryConvective) /\
  (~ In bcType [NOBC; PERIODIC; DIRICHLET; NEUMANN; CONVECTIVE] ->
   out.2 = singleBd).
Proof.
  pose proof BCType_neq as (N1 & N2 & N3 & N4 & N5 & N6 & N7 & N8 & N9 & N10).
  cbn zeta. unfold createSingleBoundary. cbn [fst snd].
  split; [reflexivity |].
  repeat split; intros Hx; subst;
    repeat match goal with
           | |- context [?x =? ?y] => destruct (Z.eqb_spec x y); try congruence
           end.
  all: exfalso; apply Hx; simpl; auto 6.
Qed.
End BoundaryFacts.

(** C1, as stated, fails: with the enumerators numbered 0 to 4, the tag
    value 5 is none of them, and the call returns success and leaves a
    null output parameter null. *)
Lemma createSingleBoundary_unrecognized_returns_success :
  ~ In 5 [NOBC; PERIODIC; DIRICHLET; NEUMANN; CONVECTIVE] /\
  createSingleBoundary (MeshT := unit) (BCLocT := unit) (FieldT := unit)
    tt tt tt (Num 1) 5 None = (Ok tt, None).
Proof.
  split; [| reflexivity].
  simpl. intros [Hx | [Hx | [Hx | [Hx | [Hx | []]]]]]; discriminate.
Qed.

(** ** getGlobalIndex *)

(** C6, as the code has it: for a marker index in [0, nPts) and a degree
    of freedom in [0, dim) the call succeeds and returns [i * dim + dof]
    as [PetscInt] arithmetic computes it, which is the flattened index
    [i * dim + dof] itself whenever the [nPts * dim] indices of the body
    fit a [PetscInt]; in every other case, and only then, the call fails
    with the argument-size error. *)
Theorem getGlobalIndex_spec (self : SingleBodyPoints) (i dof : PetscInt) :
  (0 <= i < nPts self /\ 0 <= dof < dim self ->
   getGlobalIndex self i dof
   = Ok (PetscInt_wrap (PetscInt_wrap (i * dim self) + dof)) /\
   (nPts self * dim self <= PETSC_MAX_INT ->
    getGlobalIndex self i dof = Ok (i * dim self + dof))) /\
  (~ (0 <= i < nPts self /\ 0 <= dof < dim self) ->
   exists msg, getGlobalIndex self i dof = Err PETSC_ERR_ARG_SIZ msg) /\
  (is_Err (getGlobalIndex self i dof) = true <->
   ~ (0 <= i < nPts self) \/ ~ (0 <= dof < dim self)).
Proof.
  unfold getGlobalIndex.
  destruct (Z.ltb_spec i 0), (Z.geb_spec i (nPts self)),
    (Z.ltb_spec dof 0), (Z.geb_spec dof (dim self)); cbn.
  all: repeat split; intros; try lia; try discriminate; eauto; try tauto.
  f_equal. apply (flat_index_exact (nPts self)); [assumption | lia | lia].
Qed.

(** C6, as stated, fails: on a body of 2 000 000 000 markers in two
    dimensions, marker [2^30] and degree of freedom 0 are in range and
    [i * dim + dof] is 2 147 483 648; the call returns
    -2 147 483 648. *)
Lemma getGlobalIndex_overflows :
  let self := base_body 1 0 2000000000 2 in
  0 <= 1073741824 < nPts self /\ 0 <= 0 < dim self /\
  1073741824 * dim self + 0 = 2147483648 /\
  getGlobalIndex self 1073741824 0 = Ok (-2147483648).
Proof. cbn. repeat split; lia. Qed.

(** Where the indices of the body fit a [PetscInt], an index returned is
    the flattened one. *)
Lemma getGlobalIndex_Ok (self : SingleBodyPoints) (i dof idx : Z) :
  nPts self * dim self <= PETSC_MAX_INT ->
  getGlobalIndex self i dof = Ok idx ->
  0 <= i < nPts self /\ 0 <= dof < dim self /\ idx = i * dim self + dof.
Proof.
  intros Hfit. unfold getGlobalIndex.
  destruct (Z.ltb_spec i 0), (Z.geb_spec i (nPts self)),
    (Z.ltb_spec dof 0), (Z.geb_spec dof (dim self)); cbn;
    intros Hx; inversion Hx.
  split; [lia |]. split; [lia |].
  apply (flat_index_exact (nPts self)); [assumption | lia | lia].
Qed.

Lemma getGlobalIndex_valid (self : SingleBodyPoints) (i dof : Z) :
  nPts self * dim self <= PETSC_MAX_INT ->
  0 <= i < nPts self -> 0 <= dof < dim self ->
  getGlobalIndex self i dof = Ok (i * dim self + dof).
Proof.
  intros Hfit Hi Hdof. unfold getGlobalIndex.
  destruct (Z.ltb_spec i 0), (Z.geb_spec i (nPts self)),
    (Z.ltb_spec dof 0), (Z.geb_spec dof (dim self)); try lia.
  cbn. f_equal. apply (flat_index_exact (nPts self)); assumption.
Qed.

(** The index returned is a position of the global vector of
    [nPts * dim] entries. *)
Lemma getGlobalIndex_range (self : SingleBodyPoints) (i dof idx : PetscInt) :
  nPts self * dim self <= PETSC_MAX_INT ->
  getGlobalIndex self i dof = Ok idx -> 0 <= idx < nPts self * dim self.
Proof.
  intros Hfit Hrun.
  apply getGlobalIndex_Ok in Hrun as (Hi & Hdof & ->); [| exact Hfit].
  pose proof (flat_index_bounds _ _ _ _ Hi Hdof). lia.
Qed.

(** ** The blocks of the DMDA *)

Lemma sumZ_take_S (l : list Z) (n : nat) :
  sumZ (take (S n) l) = sumZ (take n l) + default 0 (l !! n).
Proof.
  revert n. induction l as [|a l IH]; intros n.
  - destruct n; reflexivity.
  - destruct n as [|n].
    + cbn. rewrite take_0. cbn. lia.
    + change (take (S (S n)) (a :: l)) with (a :: take (S n) l).
      change (take (S n) (a :: l)) with (a :: take n l).
      change ((a :: l) !! S n) with (l !! n).
      cbn [sumZ foldr]. fold (sumZ (take (S n) l)). fold (sumZ (take n l)).
      rewrite IH. lia.
Qed.

Section Ownership.
Context `{DMDA_ownership}.

Lemma rank_info_xs_0 (m M dof : Z) (Hm : 1 <= m) (HM : 0 <= M) :
  xs (rank_info m M dof 0) = 0.
Proof.
  unfold rank_info, DMDAGetLocalInfo. cbn [xs da_comm comm_rank DMDACreate1d].
  change (Z.to_nat 0) with 0%nat. rewrite take_0. reflexivity.
Qed.

Lemma rank_info_xs_succ (m M dof r : Z) :
  0 <= r ->
  xs (rank_info m M dof (r + 1))
  = xs (rank_info m M dof r) + xm (rank_info m M dof r).
Proof.
  intros Hr. unfold rank_info, DMDAGetLocalInfo, DMDACreate1d.
  cbn [xs xm da_comm da_lx comm_rank comm_size].
  replace (Z.to_nat (r + 1)) with (S (Z.to_nat r)) by lia.
  apply sumZ_take_S.
Qed.

Lemma rank_info_xm_nonneg (m M dof : Z) (Hm : 1 <= m) (HM : 0 <= M) (r : Z) :
  0 <= xm (rank_info m M dof r).
Proof.
  unfold rank_info, DMDAGetLocalInfo, DMDACreate1d.
  cbn [xs xm da_comm da_lx comm_rank comm_size].
  destruct (DMDA_lx m M !! Z.to_nat r) as [v|] eqn:Hv; cbn [default]; [| lia].
  exact (proj1 (Forall_lookup _ _) (DMDA_lx_nonneg m M Hm HM) _ _ Hv).
Qed.

Lemma rank_info_xs_size (m M dof : Z) (Hm : 1 <= m) (HM : 0 <= M) :
  xs (rank_info m M dof m) = M.
Proof.
  unfold rank_info, DMDAGetLocalInfo, DMDACreate1d.
  cbn [xs xm da_comm da_lx comm_rank comm_size].
  rewrite take_ge by (rewrite DMDA_lx_length; lia).
  apply DMDA_lx_sum; assumption.
Qed.

Lemma rank_info_xs_mono (m M dof : Z) (Hm : 1 <= m) (HM : 0 <= M) (r r' : Z) :
  0 <= r <= r' -> xs (rank_info m M dof r) <= xs (rank_info m M dof r').
Proof.
  intros [Hr Hle]. replace r' with (r + Z.of_nat (Z.to_nat (r' - r))) by lia.
  induction (Z.to_nat (r' - r)) as [|k IH].
  - rewrite Z.add_0_r. lia.
  - rewrite Nat2Z.inj_succ, <- Z.add_1_r, Z.add_assoc.
    rewrite rank_info_xs_succ by lia.
    pose proof (rank_info_xm_nonneg m M dof Hm HM (r + Z.of_nat k)). lia.
Qed.

Lemma rank_info_xs_nonneg (m M dof : Z) (Hm : 1 <= m) (HM : 0 <= M) (r : Z) :
  0 <= r -> 0 <= xs (rank_info m M dof r).
Proof.
  intros Hr. rewrite <- (rank_info_xs_0 m M dof Hm HM).
  apply rank_info_xs_mono; [assumption | assumption | lia].
Qed.

(** The block of every rank lies inside [0, M]. *)
Lemma rank_info_block (m M dof : Z) (Hm : 1 <= m) (HM : 0 <= M) (r : Z) :
  0 <= r < m ->
  0 <= xs (rank_info m M dof r) /\ 0 <= xm (rank_info m M dof r) /\
  xs (rank_info m M dof r) + xm (rank_info m M dof r) <= M.
Proof.
  intros Hr.
  pose proof (rank_info_xs_nonneg m M dof Hm HM r ltac:(lia)).
  pose proof (rank_info_xm_nonneg m M dof Hm HM r).
  pose proof (rank_info_xs_mono m M dof Hm HM (r + 1) m ltac:(lia)) as Hup.
  rewrite rank_info_xs_size, rank_info_xs_succ in Hup by lia. lia.
Qed.

(** ** createDMDA *)

Lemma mapM_Ok {A B} (f : A -> PetscResult B) (l : list A) (l' : list B) :
  mapM f l = Ok l' <-> Forall2 (fun x y => f x = Ok y) l l'.
Proof.
  revert l'. induction l as [|x l IH]; intros l'; cbn.
  - unfold mret, PetscResult_ret. split.
    + intros Hx; inversion Hx; constructor.
    + intros Hx; inversion Hx; reflexivity.
  - split.
    + destruct (f x) as [y| |] eqn:Hfx; cbn; try discriminate.
      destruct (mapM f l) as [k| |] eqn:Hm; cbn; try discriminate.
      unfold mret, PetscResult_ret. intros Hx; inversion Hx; subst.
      constructor; [done |]. apply IH. reflexivity.
    + intros Hx; inversion Hx as [|? y ? k Hy Hk]; subst.
      apply IH in Hk. rewrite Hy; cbn. rewrite Hk; cbn. reflexivity.
Qed.

Lemma Allgather_length (c : MPI_Comm) (M dof : PetscInt) :
  length (MPI_Allgather_nLclPts c M dof) = Z.to_nat (comm_size c).
Proof. unfold MPI_Allgather_nLclPts. rewrite length_fmap. apply length_seqZ. Qed.

Lemma Allgather_lookup (c : MPI_Comm) (M dof : PetscInt) (j : nat) :
  (j < Z.to_nat (comm_size c))%nat ->
  MPI_Allgather_nLclPts c M dof !! j
  = Some (xm (rank_info (comm_size c) M dof (Z.of_nat j))).
Proof.
  intros Hj. unfold MPI_Allgather_nLclPts.
  rewrite list_lookup_fmap, lookup_seqZ_lt by lia. reflexivity.
Qed.

(** The first loop copies [nLclAllProcs[0 .. k-1]] to
    [offsetsAllProcs[1 .. k]] and touches nothing else. *)
Lemma createDMDA_shift_spec (nLcl : list PetscInt) (k : nat) :
  forall offs : list PetscInt,
    (k < length offs)%nat -> (k <= length nLcl)%nat ->
    exists offs',
      createDMDA_shift k (Z.of_nat k) nLcl offs = Ok offs' /\
      length offs' = length offs /\
      (forall j : nat, (1 <= j <= k)%nat -> offs' !! j = nLcl !! (j - 1)%nat) /\
      (forall j : nat, j = 0%nat \/ (k < j)%nat -> offs' !! j = offs !! j).
Proof.
  induction k as [|k IH]; intros offs Hk Hn.
  - exists offs. cbn. repeat split; intros; first [lia | done].
  - destruct (lookup_lt_is_Some_2 nLcl k) as [v Hv]; [lia |].
    cbn [createDMDA_shift].
    replace (Z.of_nat (S k) - 1) with (Z.of_nat k) by lia.
    rewrite (vec_at_nat _ _ _ Hv); cbn.
    rewrite vec_set_nat by lia; cbn.
    destruct (IH (<[S k := v]> offs)) as (offs' & Hrun & Hlen & Hcopy & Hkeep).
    { rewrite length_insert. lia. }
    { lia. }
    exists offs'. rewrite length_insert in Hlen.
    split; [exact Hrun |]. split; [exact Hlen |]. split.
    + intros j Hj. destruct (decide (j = S k)) as [-> | Hne].
      * rewrite Hkeep by lia. rewrite list_lookup_insert_eq by lia.
        replace (S k - 1)%nat with k by lia. done.
      * apply Hcopy. lia.
    + intros j Hj. rewrite Hkeep by lia.
      apply list_lookup_insert_ne. lia.
Qed.

(** The second loop turns the shifted counts into their running sums,
    computed in [PetscInt]. *)
Lemma createDMDA_accumulate_spec (counts : nat -> Z) (o0 : Z) :
  forall (c r : nat) (offs : list PetscInt),
    (1 <= r)%nat -> (r + c = length offs)%nat ->
    (forall j, (j < r)%nat -> offs !! j = Some (offset_sum counts o0 j)) ->
    (forall j, (r <= j < length offs)%nat ->
               offs !! j = Some (counts (j - 1)%nat)) ->
    exists offs',
      createDMDA_accumulate c (Z.of_nat r) offs = Ok offs' /\
      length offs' = length offs /\
      (forall j, (j < length offs)%nat ->
                 offs' !! j = Some (offset_sum counts o0 j)).
Proof.
  induction c as [|c IH]; intros r offs Hr Hlen Hdone Htodo.
  - exists offs. cbn. repeat split; intros j Hj; apply Hdone; lia.
  - cbn [createDMDA_accumulate].
    rewrite (vec_at_nat _ _ _ (Htodo r ltac:(lia))); cbn.
    replace (Z.of_nat r - 1) with (Z.of_nat (r - 1)) by lia.
    rewrite (vec_at_nat _ _ _ (Hdone (r - 1)%nat ltac:(lia))); cbn.
    rewrite vec_set_nat by lia; cbn.
    replace (Z.of_nat r + 1) with (Z.of_nat (S r)) by lia.
    destruct (IH (S r)
                (<[r := PetscInt_wrap (counts (r - 1)%nat
                                       + offset_sum counts o0 (r - 1)%nat)]>
                   offs))
      as (offs' & Hrun & Hlen' & Hall).
    + lia.
    + rewrite length_insert. lia.
    + intros j Hj. destruct (decide (j = r)) as [-> | Hne].
      * rewrite list_lookup_insert_eq by lia.
        replace r with (S (r - 1)) at 3 by lia. reflexivity.
      * rewrite list_lookup_insert_ne by lia. apply Hdone. lia.
    + intros j Hj. rewrite length_insert in Hj.
      rewrite list_lookup_insert_ne by lia. apply Htodo. lia.
    + rewrite length_insert in Hlen', Hall.
      exists offs'. split; [exact Hrun |]. split; [exact Hlen' | exact Hall].
Qed.

Lemma comm_eta (self : SingleBodyPoints) :
  base_constructed self ->
  comm self = {| comm_size := mpiSize self; comm_rank := mpiRank self |}.
Proof.
  intros [Hs Hr _ _ _ _]. destruct (comm self) as [s r]; cbn in *. congruence.
Qed.

(** What [createDMDA] leaves in an object whose tables have one entry
    per process: the block of the calling process, the scaled counts of
    all processes and the table of their running sums, which starts from
    the value [o0] that entry 0 held. *)
Lemma createDMDA_run (self : SingleBodyPoints) (o0 : Z) :
  mpiSize self = comm_size (comm self) -> 1 <= mpiSize self ->
  length (nLclAllProcs self) = Z.to_nat (mpiSize self) ->
  length (offsetsAllProcs self) = Z.to_nat (mpiSize self) ->
  offsetsAllProcs self !! 0%nat = Some o0 ->
  let li := rank_info (mpiSize self) (nPts self) (dim self) in
  let lclInfo :=
    DMDAGetLocalInfo (DMDACreate1d (comm self) (nPts self) (dim self)) in
  exists self',
    createDMDA self = Ok self' /\
    bgPt self' = xs lclInfo /\
    nLclPts self' = xm lclInfo /\
    edPt self' = PetscInt_wrap (bgPt self' + nLclPts self') /\
    nLclAllProcs self'
    = (fun r => PetscInt_wrap (xm (li r) * dim self))
        <$> seqZ 0 (mpiSize self) /\
    offsetsAllProcs self'
    = (fun q => offset_sum
                  (fun j => PetscInt_wrap (xm (li (Z.of_nat j)) * dim self))
                  o0 (Z.to_nat q))
        <$> seqZ 0 (mpiSize self) /\
    nPts self' = nPts self /\ dim self' = dim self /\
    mpiSize self' = mpiSize self /\ mpiRank self' = mpiRank self /\
    coords self' = coords self /\ comm self' = comm self /\
    da self' = DMDACreate1d (comm self) (nPts self) (dim self).
Proof.
  intros Hsize Hpos HnLcl Hoffs Hoffs0 li lclInfo.
  unfold createDMDA.
  set (P := mpiSize self) in *. set (D := dim self) in *.
  set (k := Z.to_nat (P - 1)).
  assert (Z.to_nat P = S k) as HP by lia.
  pose proof (Allgather_length (comm self) (nPts self) D) as Hglen.
  rewrite <- Hsize in Hglen.
  destruct (Nat.ltb_spec (length (nLclAllProcs self))
              (length (MPI_Allgather_nLclPts (comm self) (nPts self) D)));
    [lia |].
  rewrite drop_ge, app_nil_r by lia.
  set (nLcl := (fun it => PetscInt_wrap (it * D))
                 <$> MPI_Allgather_nLclPts _ _ _).
  assert (forall j : nat, (j < S k)%nat ->
            nLcl !! j = Some (PetscInt_wrap (xm (li (Z.of_nat j)) * D)))
    as HnLcl_at.
  { intros j Hj. unfold nLcl. rewrite list_lookup_fmap, Allgather_lookup.
    - cbn. rewrite <- Hsize. reflexivity.
    - rewrite <- Hsize. lia. }
  assert (length nLcl = S k) as HnLcl_len.
  { unfold nLcl. rewrite length_fmap. lia. }
  replace (P - 1) with (Z.of_nat k) by lia.
  destruct (createDMDA_shift_spec nLcl k (offsetsAllProcs self))
    as (offs1 & Hrun1 & Hlen1 & Hcopy & Hkeep); [lia | lia |].
  rewrite Hrun1; cbn [mbind PetscResult_bind].
  destruct (createDMDA_accumulate_spec
              (fun j => PetscInt_wrap (xm (li (Z.of_nat j)) * D)) o0)
    with (c := k) (r := 1%nat) (offs := offs1)
    as (offs2 & Hrun2 & Hlen2 & Hall).
  { lia. }
  { lia. }
  { intros j Hj. assert (j = 0%nat) as -> by lia.
    rewrite Hkeep by lia. exact Hoffs0. }
  { intros j Hj. rewrite Hcopy by lia. apply HnLcl_at. lia. }
  change (Z.of_nat 1) with 1 in Hrun2.
  rewrite Hrun2; cbn [mbind PetscResult_bind].
  eexists; split; [reflexivity |].
  cbn [bgPt nLclPts edPt nLclAllProcs offsetsAllProcs nPts dim mpiSize
       mpiRank coords comm da].
  repeat split.
  - apply list_eq. intros j. destruct (decide (j < S k)%nat) as [Hj | Hj].
    + rewrite HnLcl_at, list_lookup_fmap, lookup_seqZ_lt by lia.
      reflexivity.
    + rewrite !lookup_ge_None_2; [done | |].
      * rewrite length_fmap, length_seqZ. lia.
      * lia.
  - apply list_eq. intros j. destruct (decide (j < S k)%nat) as [Hj | Hj].
    + rewrite Hall, list_lookup_fmap, lookup_seqZ_lt by lia.
      cbn. rewrite Z.add_0_l, Nat2Z.id. reflexivity.
    + rewrite !lookup_ge_None_2; [done | |].
      * rewrite length_fmap, length_seqZ. lia.
      * lia.
Qed.

(** The same for an object as the base-class constructor leaves it. *)
Lemma createDMDA_spec (self : SingleBodyPoints) :
  base_constructed self -> 0 <= nPts self ->
  let li := rank_info (mpiSize self) (nPts self) (dim self) in
  exists self',
    createDMDA self = Ok self' /\
    bgPt self' = xs (li (mpiRank self)) /\
    nLclPts self' = xm (li (mpiRank self)) /\
    edPt self' = PetscInt_wrap (bgPt self' + nLclPts self') /\
    nLclAllProcs self'
    = (fun r => PetscInt_wrap (xm (li r) * dim self))
        <$> seqZ 0 (mpiSize self) /\
    offsetsAllProcs self'
    = (fun q => offset_sum
                  (fun j => PetscInt_wrap (xm (li (Z.of_nat j)) * dim self))
                  0 (Z.to_nat q))
        <$> seqZ 0 (mpiSize self) /\
    nPts self' = nPts self /\ dim self' = dim self /\
    mpiSize self' = mpiSize self /\ mpiRank self' = mpiRank self /\
    coords self' = coords self /\ comm self' = comm self /\
    da self' = DMDACreate1d (comm self) (nPts self) (dim self).
Proof.
  intros Hbase HN li.
  pose proof (comm_eta self Hbase) as Hcomm.
  destruct Hbase as [Hsize Hrank Hpos HnLcl Hoffs Hoffs0].
  destruct (createDMDA_run self 0 Hsize Hpos HnLcl Hoffs Hoffs0)
    as (self' & Hrun & Hbg & Hn & Hrest).
  exists self'. split; [exact Hrun |].
  assert (DMDAGetLocalInfo (DMDACreate1d (comm self) (nPts self) (dim self))
          = li (mpiRank self)) as Hli.
  { unfold li, rank_info. rewrite <- Hcomm. reflexivity. }
  rewrite Hli in Hbg, Hn.
  split; [exact Hbg |]. split; [exact Hn | exact Hrest].
Qed.

Lemma mapM_total {A B} (f : A -> PetscResult B) (l : list A) :
  (forall (r : nat) (x : A), l !! r = Some x -> exists y, f x = Ok y) ->
  exists l', mapM f l = Ok l'.
Proof.
  induction l as [|x l IH]; intros Hall.
  - exists []. reflexivity.
  - destruct (Hall 0%nat x eq_refl) as [y Hy].
    destruct IH as [l' Hl'].
    { intros r x' Hx'. apply (Hall (S r) x'). exact Hx'. }
    exists (y :: l'). apply mapM_Ok. constructor; [done |].
    apply mapM_Ok. exact Hl'.
Qed.


(** Every process of a collective call to [createDMDA] returns, and
    process [r] ends with the block and the tables of [createDMDA_spec]. *)
Lemma createDMDA_world (P N D : Z) (world : list SingleBodyPoints) :
  1 <= P -> 0 <= N -> collective P N D world ->
  exists world',
    mapM createDMDA world = Ok world' /\
    length world' = Z.to_nat P /\
    forall (r : nat) (b : SingleBodyPoints),
      world' !! r = Some b ->
      bgPt b = xs (rank_info P N D (Z.of_nat r)) /\
      nLclPts b = xm (rank_info P N D (Z.of_nat r)) /\
      edPt b = PetscInt_wrap (bgPt b + nLclPts b) /\
      nLclAllProcs b
      = (fun q => PetscInt_wrap (xm (rank_info P N D q) * D)) <$> seqZ 0 P /\
      offsetsAllProcs b
      = (fun q => offset_sum
                    (fun j => PetscInt_wrap
                                (xm (rank_info P N D (Z.of_nat j)) * D))
                    0 (Z.to_nat q))
          <$> seqZ 0 P /\
      nPts b = N /\ dim b = D /\ mpiSize b = P /\ mpiRank b = Z.of_nat r /\
      exists self, world !! r = Some self /\ createDMDA self = Ok b /\
                   coords b = coords self /\
                   da b = DMDACreate1d (comm self) N D.
Proof.
  intros HP HN [Hlen Hworld].
  destruct (mapM_total createDMDA world) as [world' Hrun].
  { intros r self Hself.
    destruct (Hworld r self Hself) as (Hbase & _ & _ & HNs & _).
    destruct (createDMDA_spec self Hbase) as (b & Hb & _); [lia |].
    exists b. exact Hb. }
  exists world'. split; [exact Hrun |].
  apply mapM_Ok in Hrun.
  split; [rewrite <- (Forall2_length _ _ _ Hrun); exact Hlen |].
  intros r b Hb.
  destruct (Forall2_lookup_r _ _ _ _ _ Hrun Hb) as (self & Hself & Hcall).
  destruct (Hworld r self Hself) as (Hbase & HPs & Hrs & HNs & HDs).
  destruct (createDMDA_spec self Hbase) as (b' & Hb' & Hspec); [lia |].
  rewrite Hcall in Hb'. inversion Hb'; subst b'. clear Hb'.
  rewrite HPs, HNs, HDs, Hrs in Hspec.
  destruct Hspec as (H1 & H2 & H3 & H4 & H5 & H6 & H7 & H8 & H9 & H10 & H11 & H12).
  repeat split; try assumption.
  exists self. repeat split; assumption.
Qed.

(** Where the degrees of freedom of the body, counted from [o0], fit a
    [PetscInt], the scaled counts and their running sums are exact: the
    running sum at rank [j] is [o0] plus [D] times the first marker of
    rank [j]. *)
Lemma count_exact (P N D : Z) (q : Z) :
  1 <= P -> 0 <= N -> 0 <= D -> N * D <= PETSC_MAX_INT -> 0 <= q < P ->
  PetscInt_wrap (xm (rank_info P N D q) * D) = xm (rank_info P N D q) * D.
Proof.
  intros HP HN HD Hfit Hq.
  pose proof (rank_info_block P N D HP HN q Hq) as (Hxs & Hxm & Hup).
  apply PetscInt_wrap_id.
  assert (xm (rank_info P N D q) * D <= N * D)
    by (apply Z.mul_le_mono_nonneg_r; lia).
  assert (0 <= xm (rank_info P N D q) * D)
    by (apply Z.mul_nonneg_nonneg; lia).
  unfold PETSC_MIN_INT, PETSC_MAX_INT in *. lia.
Qed.

Lemma offset_sum_exact (P N D o0 : Z) :
  1 <= P -> 0 <= N -> 0 <= D -> 0 <= o0 -> o0 + N * D <= PETSC_MAX_INT ->
  forall j : nat,
    (j <= Z.to_nat P)%nat ->
    offset_sum (fun j => PetscInt_wrap (xm (rank_info P N D (Z.of_nat j)) * D))
               o0 j
    = o0 + xs (rank_info P N D (Z.of_nat j)) * D.
Proof.
  intros HP HN HD Ho0 Hfit.
  assert (0 <= N * D) as HND by (apply Z.mul_nonneg_nonneg; lia).
  induction j as [|j IH]; intros Hj.
  - cbn [offset_sum Z.of_nat]. rewrite rank_info_xs_0 by lia. lia.
  - cbn [offset_sum]. rewrite IH by lia.
    rewrite count_exact by lia.
    rewrite Nat2Z.inj_succ, <- Z.add_1_r, rank_info_xs_succ by lia.
    pose proof (rank_info_block P N D HP HN (Z.of_nat j) ltac:(lia))
      as (Hxs & Hxm & Hup).
    set (a := xs (rank_info P N D (Z.of_nat j))) in *.
    set (b := xm (rank_info P N D (Z.of_nat j))) in *.
    assert ((a + b) * D <= N * D) by (apply Z.mul_le_mono_nonneg_r; lia).
    assert (0 <= (a + b) * D) by (apply Z.mul_nonneg_nonneg; lia).
    rewrite PetscInt_wrap_id; unfold PETSC_MIN_INT, PETSC_MAX_INT in *; lia.
Qed.

(** [createDMDA_world] for a body whose markers and degrees of freedom
    fit a [PetscInt]. *)
Lemma createDMDA_world_exact (P N D : Z) (world : list SingleBodyPoints) :
  1 <= P -> 0 <= N <= PETSC_MAX_INT -> 0 <= D -> N * D <= PETSC_MAX_INT ->
  collective P N D world ->
  exists world',
    mapM createDMDA world = Ok world' /\
    length world' = Z.to_nat P /\
    forall (r : nat) (b : SingleBodyPoints),
      world' !! r = Some b ->
      bgPt b = xs (rank_info P N D (Z.of_nat r)) /\
      nLclPts b = xm (rank_info P N D (Z.of_nat r)) /\
      edPt b = bgPt b + nLclPts b /\
      nLclAllProcs b = (fun q => xm (rank_info P N D q) * D) <$> seqZ 0 P /\
      offsetsAllProcs b = (fun q => xs (rank_info P N D q) * D) <$> seqZ 0 P /\
      nPts b = N /\ dim b = D /\ mpiSize b = P /\ mpiRank b = Z.of_nat r /\
      exists self, world !! r = Some self /\ createDMDA self = Ok b /\
                   coords b = coords self /\
                   da b = DMDACreate1d (comm self) N D.
Proof.
  intros HP HN HD Hfit Hworld.
  destruct (createDMDA_world P N D world HP ltac:(lia) Hworld)
    as (world' & Hrun & Hlen & Hat).
  exists world'. split; [exact Hrun |]. split; [exact Hlen |].
  intros r b Hb. pose proof (lookup_lt_Some _ _ _ Hb) as Hr.
  destruct (Hat r b Hb)
    as (H1 & H2 & H3 & H4 & H5 & H6 & H7 & H8 & H9 & H10).
  pose proof (rank_info_block P N D HP ltac:(lia) (Z.of_nat r) ltac:(lia))
    as (Hxs & Hxm & Hup).
  split; [exact H1 |]. split; [exact H2 |]. split.
  { rewrite H3, H1, H2. apply PetscInt_wrap_id.
    unfold PETSC_MIN_INT, PETSC_MAX_INT in *. lia. }
  split.
  { rewrite H4. apply list_eq. intros j. rewrite !list_lookup_fmap.
    destruct (seqZ 0 P !! j) as [q|] eqn:Hq; [| reflexivity].
    apply lookup_seqZ in Hq as [-> Hj]. rewrite Z.add_0_l.
    cbn [fmap option_fmap option_map]. f_equal.
    apply count_exact; lia. }
  split.
  { rewrite H5. apply list_eq. intros j. rewrite !list_lookup_fmap.
    destruct (seqZ 0 P !! j) as [q|] eqn:Hq; [| reflexivity].
    apply lookup_seqZ in Hq as [-> Hj]. rewrite Z.add_0_l.
    cbn [fmap option_fmap option_map]. f_equal. rewrite Nat2Z.id.
    rewrite (offset_sum_exact P N D 0) by lia. lia. }
  repeat split; assumption.
Qed.

Lemma offsets_lookup (P N D : Z) (q : nat) :
  (q < Z.to_nat P)%nat ->
  ((fun q => xs (rank_info P N D q) * D) <$> seqZ 0 P) !! q
  = Some (xs (rank_info P N D (Z.of_nat q)) * D).
Proof.
  intros Hq. rewrite list_lookup_fmap, lookup_seqZ_lt by lia. reflexivity.
Qed.

Lemma offsets_length (P N D : Z) :
  length ((fun q => xs (rank_info P N D q) * D) <$> seqZ 0 P) = Z.to_nat P.
Proof. rewrite length_fmap. apply length_seqZ. Qed.



(** ** findProc *)

Lemma offsets_partitioned (P N D : Z) (v : Z) :
  1 <= P -> 0 <= N -> 0 <= D ->
  partitioned Z.ltb ((fun q => xs (rank_info P N D q) * D) <$> seqZ 0 P) v.
Proof.
  intros HP HN HD q q' x y Hle Hx Hy Hlt.
  pose proof (lookup_lt_Some _ _ _ Hx) as Hq.
  pose proof (lookup_lt_Some _ _ _ Hy) as Hq'.
  rewrite offsets_length in Hq, Hq'.
  rewrite offsets_lookup in Hx, Hy by lia.
  apply (inj Some) in Hx, Hy. subst x y.
  apply Z.ltb_lt in Hlt. apply Z.ltb_lt.
  eapply Z.lt_le_trans; [exact Hlt |].
  apply Z.mul_le_mono_nonneg_r; [exact HD |].
  apply rank_info_xs_mono; lia.
Qed.

(** The search of [findProc] over the table left by [createDMDA] returns
    the rank whose block holds marker [i]. *)
Lemma findProc_search (P N D i : Z) :
  1 <= P -> 0 <= N -> 0 < D -> 0 <= i < N ->
  exists p : nat,
    upper_bound Z.ltb ((fun q => xs (rank_info P N D q) * D) <$> seqZ 0 P)
                (i * D) = S p /\
    (p < Z.to_nat P)%nat /\
    xs (rank_info P N D (Z.of_nat p)) <= i
    < xs (rank_info P N D (Z.of_nat p)) + xm (rank_info P N D (Z.of_nat p)).
Proof.
  intros HP HN HD Hi.
  set (offs := (fun q => xs (rank_info P N D q) * D) <$> seqZ 0 P).
  destruct (upper_bound_spec Z.ltb offs (i * D)) as (Hub & Hbelow & Hfrom).
  { apply offsets_partitioned; lia. }
  unfold offs in Hub. rewrite offsets_length in Hub. fold offs in Hub.
  destruct (upper_bound Z.ltb offs (i * D)) as [|p] eqn:Hp.
  - exfalso.
    assert (offs !! 0%nat = Some 0) as H0.
    { unfold offs. rewrite offsets_lookup by lia. cbn [Z.of_nat].
      rewrite rank_info_xs_0 by lia. reflexivity. }
    pose proof (Hfrom 0%nat 0 ltac:(lia) H0) as Hlt.
    apply Z.ltb_lt in Hlt. nia.
  - exists p. split; [reflexivity |]. split; [lia |].
    assert (offs !! p = Some (xs (rank_info P N D (Z.of_nat p)) * D)) as Hat.
    { unfold offs. apply offsets_lookup. lia. }
    pose proof (Hbelow p _ ltac:(lia) Hat) as Hge.
    apply Z.ltb_ge in Hge.
    rewrite <- rank_info_xs_succ by lia.
    split; [nia |].
    destruct (decide (S p < Z.to_nat P)%nat) as [Hin | Hlast].
    + assert (offs !! S p
              = Some (xs (rank_info P N D (Z.of_nat (S p))) * D)) as Hnext.
      { unfold offs. apply offsets_lookup. lia. }
      pose proof (Hfrom (S p) _ ltac:(lia) Hnext) as Hlt.
      apply Z.ltb_lt in Hlt.
      rewrite Nat2Z.inj_succ, <- Z.add_1_r in Hlt. nia.
    + replace (Z.of_nat p + 1) with P by lia.
      rewrite rank_info_xs_size by lia. lia.
Qed.

(** C5, as the code has it: on a body whose [N] markers and [N * dim]
    degrees of freedom fit a [PetscInt], on every process, after
    [createDMDA], every valid pair of marker and degree of freedom has a
    global index and two valid pairs with the same global index are the
    same pair; for a marker in [0, N) [findProc] returns the rank [p]
    that owns it, whose entry of the offset table is at most [i * dim],
    with [i * dim] below that entry plus the [dim * nLclPts] of rank [p],
    which is the entry of the next rank where there is one; for a marker
    outside [0, N) [findProc] fails with the argument-size error. *)
Theorem findProc_consistent (P N D : Z) (world world' : list SingleBodyPoints) :
  1 <= P -> 0 <= N <= PETSC_MAX_INT -> 0 < D -> N * D <= PETSC_MAX_INT ->
  collective P N D world ->
  mapM createDMDA world = Ok world' ->
  forall (r : nat) (b : SingleBodyPoints),
    world' !! r = Some b ->
    (forall i d i' d',
        0 <= i < N -> 0 <= d < D -> 0 <= i' < N -> 0 <= d' < D ->
        exists idx idx',
          getGlobalIndex b i d = Ok idx /\ getGlobalIndex b i' d' = Ok idx' /\
          (idx = idx' -> i = i' /\ d = d')) /\
    (forall i, 0 <= i < N ->
        exists (p : nat) (c : SingleBodyPoints) (o : Z),
          findProc b i = Ok (Z.of_nat p) /\
          world' !! p = Some c /\ bgPt c <= i < edPt c /\
          offsetsAllProcs b !! p = Some o /\
          o <= i * D < o + D * nLclPts c /\
          (forall o', offsetsAllProcs b !! S p = Some o' ->
                      o' = o + D * nLclPts c)) /\
    (forall i, ~ 0 <= i < N ->
        exists msg, findProc b i = Err PETSC_ERR_ARG_SIZ msg).
Proof.
  intros HP HNmax HD Hfit Hworld Hrun r b Hb.
  assert (0 <= N) as HN by lia.
  destruct (createDMDA_world_exact P N D world HP HNmax ltac:(lia) Hfit Hworld)
    as (w & Hrun' & Hlen & Hat).
  rewrite Hrun in Hrun'. inversion Hrun'; subst w. clear Hrun'.
  destruct (Hat _ _ Hb) as (_ & _ & _ & _ & Hoffs & HNb & HDb & _).
  split; [| split].
  - intros i d i' d' Hi Hd Hi' Hd'.
    exists (i * D + d), (i' * D + d').
    rewrite <- HNb in Hi, Hi', Hfit. rewrite <- HDb in Hd, Hd', Hfit |- *.
    split; [apply getGlobalIndex_valid; assumption |].
    split; [apply getGlobalIndex_valid; assumption |].
    intros Heq. assert (i = i') as -> by nia. split; [reflexivity | lia].
  - intros i Hi.
    destruct (findProc_search P N D i HP HN HD Hi) as (p & Hub & Hp & Hin).
    destruct (lookup_lt_is_Some_2 world' p) as [c Hc]; [lia |].
    destruct (Hat _ _ Hc) as (Hbg & Hn & Hed & _).
    exists p, c, (xs (rank_info P N D (Z.of_nat p)) * D).
    split; [| split; [exact Hc | split; [| split; [| split]]]].
    + unfold findProc. rewrite HNb, HDb, Hoffs.
      destruct (flat_index_exact N D i 0 Hfit Hi ltac:(lia)) as (-> & _).
      rewrite Hub.
      destruct (Z.ltb_spec i 0), (Z.geb_spec i N); cbn; try lia.
      f_equal. lia.
    + rewrite Hed, Hbg, Hn. exact Hin.
    + rewrite Hoffs. apply offsets_lookup. lia.
    + rewrite Hn. nia.
    + intros o' Ho'. rewrite Hoffs in Ho'.
      pose proof (lookup_lt_Some _ _ _ Ho') as HSp.
      rewrite offsets_length in HSp.
      rewrite offsets_lookup in Ho' by lia. apply (inj Some) in Ho'.
      rewrite Nat2Z.inj_succ, <- Z.add_1_r, rank_info_xs_succ in Ho' by lia.
      rewrite Hn. lia.
  - intros i Hi. unfold findProc. rewrite HNb.
    destruct (Z.ltb_spec i 0), (Z.geb_spec i N); cbn; try lia; eauto.
Qed.
End Ownership.

(** Five points on three processes under PETSc's default division:
    blocks of 2, 2 and 1 starting at 0, 2 and 4. *)
Example rank_info_5_on_3 :
  (fun r => (xs (rank_info 3 5 2 r), xm (rank_info 3 5 2 r))) <$> [0; 1; 2]
  = [(0, 2); (2, 2); (4, 1)].
Proof. reflexivity. Qed.

(** ** updateMeshIdx *)

Lemma bind_Ok {A B} (r : PetscResult A) (f : A -> PetscResult B) (b : B) :
  r ≫= f = Ok b <-> exists a, r = Ok a /\ f a = Ok b.
Proof.
  destruct r as [a| |]; cbn; split.
  - eauto.
  - intros (a' & Ha & Hf). inversion Ha; subst. exact Hf.
  - discriminate.
  - intros (a' & Ha & _). discriminate.
  - discriminate.
  - intros (a' & Ha & _). discriminate.
Qed.

Lemma vec_at2_Ok {A} (v : list (list A)) (i j : Z) (a : A) :
  vec_at2 v i j = Ok a <->
  exists row, vec_at v i = Ok row /\ vec_at row j = Ok a.
Proof. apply bind_Ok. Qed.

Lemma vec_set2_Ok {A} (v v' : list (list A)) (i j : Z) (a : A) :
  vec_set2 v i j a = Ok v' ->
  vec_at2 v' i j = Ok a /\
  (forall i' j', i' <> i \/ j' <> j -> vec_at2 v' i' j' = vec_at2 v i' j').
Proof.
  unfold vec_set2. intros Hset.
  apply bind_Ok in Hset as (row & Hrow & Hset).
  apply bind_Ok in Hset as (row' & Hrow' & Hset).
  apply vec_at_Ok in Hrow as (Hi & Hrow).
  apply vec_set_Ok in Hrow' as (Hj & Hjlen & ->).
  apply vec_set_Ok in Hset as (_ & Hilen & ->).
  split.
  - apply vec_at2_Ok. eexists. split.
    + apply vec_at_Ok. split; [lia |]. apply list_lookup_insert_eq. lia.
    + apply vec_at_Ok. split; [lia |]. apply list_lookup_insert_eq. lia.
  - intros i' j' Hne. unfold vec_at2, vec_at.
    destruct (Z.ltb_spec i' 0); [reflexivity |].
    destruct (decide (i' = i)) as [-> | Hi'].
    + rewrite list_lookup_insert_eq, Hrow by lia. cbn.
      destruct (Z.ltb_spec j' 0); [reflexivity |].
      rewrite list_lookup_insert_ne by lia. reflexivity.
    + rewrite list_lookup_insert_ne by lia. reflexivity.
Qed.

Lemma vec_set2_defined {A} (v : list (list A)) (i j : Z) (a b : A) :
  vec_at2 v i j = Ok b -> exists v', vec_set2 v i j a = Ok v'.
Proof.
  intros Hat. apply vec_at2_Ok in Hat as (row & Hrow & Hb).
  unfold vec_set2. rewrite Hrow; cbn.
  apply vec_at_Ok in Hrow as (Hi & Hrow). apply vec_at_Ok in Hb as (Hj & Hb).
  apply lookup_lt_Some in Hrow, Hb.
  rewrite (proj2 (vec_set_Ok row _ j a)) by (split; [lia | split; [lia | done]]).
  cbn. exists (<[Z.to_nat i := <[Z.to_nat j := a]> row]> v).
  apply vec_set_Ok. split; [lia | split; [lia | done]].
Qed.

Lemma passes_not_outside (self : SingleBodyPoints) (mesh : Mesh) (i d : Z) :
  passes_check self mesh i d -> outside_domain self mesh i d -> False.
Proof.
  intros (x & lo & hi & Hx & Hlo & Hhi & Hge & Hle)
         (x' & lo' & hi' & Hx' & Hlo' & Hhi' & Hout).
  rewrite Hx in Hx'. rewrite Hlo in Hlo'. rewrite Hhi in Hhi'.
  inversion Hx'; inversion Hlo'; inversion Hhi'; subst x' lo' hi'.
  destruct Hout as [Hout | Hout]; congruence.
Qed.

(** For numbers the test of [updateMeshIdx] is the negation of lying
    strictly between the bounds. *)
Lemma numbers_outside_iff (x lo hi : PetscReal) :
  x <> NaN -> lo <> NaN -> hi <> NaN ->
  (real_geb lo x = true \/ real_leb hi x = true) <->
  ~ (real_lt lo x /\ real_lt x hi).
Proof.
  intros Hx Hlo Hhi. unfold real_geb, real_lt. split.
  - intros [Hout | Hout] [Hlt1 Hlt2].
    + rewrite (real_leb_ltb_false _ _ Hout) in Hlt1. discriminate Hlt1.
    + rewrite (real_leb_ltb_false _ _ Hout) in Hlt2. discriminate Hlt2.
  - intros Hnot.
    destruct (real_leb x lo) eqn:Hxlo; [left; reflexivity |].
    destruct (real_leb hi x) eqn:Hhix; [right; reflexivity |].
    exfalso. apply Hnot. split.
    + apply real_leb_false_ltb; assumption.
    + apply real_leb_false_ltb; assumption.
Qed.

Lemma passes_inside (self : SingleBodyPoints) (mesh : Mesh) (i d : Z)
    (x : PetscReal) :
  vec_at2 (coords self) i d = Ok x -> x <> NaN ->
  (forall lo, vec_at (mesh_min mesh) d = Ok lo -> lo <> NaN) ->
  (forall hi, vec_at (mesh_max mesh) d = Ok hi -> hi <> NaN) ->
  passes_check self mesh i d -> inside_domain self mesh i d.
Proof.
  intros Hx Hnum Hlonum Hhinum (x' & lo & hi & Hx' & Hlo & Hhi & Hge & Hle).
  rewrite Hx in Hx'. inversion Hx'; subst x'.
  exists x, lo, hi. repeat split; try assumption.
  - apply real_leb_false_ltb; [exact Hnum | exact (Hlonum _ Hlo) | exact Hge].
  - apply real_leb_false_ltb; [exact (Hhinum _ Hhi) | exact Hnum | exact Hle].
Qed.

(** The search on a sorted array of cell boundaries, for a number. *)
Lemma upper_bound_last_not_above (arr : list PetscReal) (n : Z)
    (x : PetscReal) :
  sorted arr -> x <> NaN -> 0 <= n <= Z.of_nat (length arr) ->
  last_not_above arr n x
    (Z.of_nat (upper_bound real_ltb (take (Z.to_nat n) arr) x) - 1).
Proof.
  intros Hsorted Hnum Hn.
  destruct (upper_bound_spec real_ltb (take (Z.to_nat n) arr) x)
    as (Hub & Hbelow & Hfrom).
  { intros j j' y y' Hle Hy Hy' Hlt.
    apply lookup_take_Some in Hy as [Hy _], Hy' as [Hy' _].
    exact (real_lt_le_trans _ _ _ Hlt (Hsorted _ _ _ _ Hle Hy Hy')). }
  rewrite length_take_le in Hub by lia.
  split; [lia |]. split.
  - intros j y Hj Hy.
    apply real_ltb_false_leb; [exact Hnum | |].
    + exact (proj1 (real_leb_numbers _ _
                      (Hsorted _ _ _ _ (Nat.le_refl _) Hy Hy))).
    + apply (Hbelow (Z.to_nat j)); [lia |].
      rewrite lookup_take_lt by lia. exact Hy.
  - intros j y Hj Hy. apply (Hfrom (Z.to_nat j)); [lia |].
    rewrite lookup_take_lt by lia. exact Hy.
Qed.

(** When the first and last boundaries enclose the domain, a coordinate
    strictly inside the domain lies in one of the cells. *)
Lemma last_not_above_interior (arr : list PetscReal) (n : Z)
    (x lo hi first last : PetscReal) (k : Z) :
  last_not_above arr n x k -> 1 <= n ->
  arr !! 0%nat = Some first -> arr !! Z.to_nat (n - 1) = Some last ->
  real_le first lo -> real_lt lo x -> real_lt x hi -> real_le hi last ->
  0 <= k <= n - 2.
Proof.
  intros (Hk & Hbelow & Habove) Hn Hfirst Hlast Hf Hlo Hhi Hl.
  split.
  - destruct (Z.eq_dec k (-1)) as [-> | Hne]; [| lia].
    exfalso. pose proof (Habove 0 first ltac:(lia) Hfirst) as Hlt.
    pose proof (real_lt_le_trans _ _ _ Hlt Hf) as Hxlo.
    pose proof (real_ltb_leb_false _ _ Hlo) as Hc.
    unfold real_lt in *.
    rewrite (real_leb_ltb_false x lo) in Hxlo; [discriminate Hxlo |].
    destruct x as [| |a|], lo as [| |b|]; cbn in *; try congruence.
    apply Qleb_le, Qlt_le_weak, Qltb_lt. exact Hlo.
  - destruct (Z.eq_dec k (n - 1)) as [-> | Hne]; [| lia].
    exfalso. pose proof (Hbelow (n - 1) last ltac:(lia) Hlast) as Hle.
    pose proof (real_le_trans _ _ _ Hl Hle) as Hhix.
    rewrite (real_ltb_leb_false _ _ Hhi) in Hhix. discriminate Hhix.
Qed.

Lemma updateMeshIdx_body_Ok (self : SingleBodyPoints) (mesh : Mesh)
    (i c d : Z) (mIdx mIdx' : list (list Z)) :
  updateMeshIdx_body self mesh i c d mIdx = Ok mIdx' ->
  passes_check self mesh i d /\
  exists (x : PetscReal) (arr : list PetscReal) (n : Z),
    vec_at2 (coords self) i d = Ok x /\
    vec_at2 (mesh_coord mesh) 4 d = Ok arr /\
    vec_at2 (mesh_n mesh) 4 d = Ok n /\
    0 <= n <= Z.of_nat (length arr) /\
    vec_set2 mIdx c d
      (Z.of_nat (upper_bound real_ltb (take (Z.to_nat n) arr) x) - 1)
    = Ok mIdx'.
Proof.
  unfold updateMeshIdx_body. intros Hrun.
  apply bind_Ok in Hrun as (lo & Hlo & Hrun).
  apply bind_Ok in Hrun as (row & Hrow & Hrun).
  apply bind_Ok in Hrun as (x & Hx & Hrun).
  apply bind_Ok in Hrun as (outside & Hout & Hrun).
  destruct outside.
  { apply bind_Ok in Hrun as (hi & _ & Hrun). discriminate Hrun. }
  destruct (real_geb lo x) eqn:Hxlo; [discriminate |].
  apply bind_Ok in Hout as (hi & Hhi & Hout).
  inversion Hout as [Hhix]. clear Hout.
  apply bind_Ok in Hrun as (coord4 & Hc4 & Hrun).
  apply bind_Ok in Hrun as (arr & Harr & Hrun).
  apply bind_Ok in Hrun as (n4 & Hn4 & Hrun).
  apply bind_Ok in Hrun as (n & Hn & Hrun).
  destruct (Z.ltb_spec n 0); [discriminate |].
  destruct (Z.ltb_spec (Z.of_nat (length arr)) n); [discriminate |].
  cbn in Hrun.
  assert (vec_at2 (coords self) i d = Ok x) as Hx2
    by (apply vec_at2_Ok; eauto).
  split.
  - exists x, lo, hi. repeat split; assumption.
  - exists x, arr, n. repeat split; try assumption; try lia.
    + apply vec_at2_Ok. eauto.
    + apply vec_at2_Ok. eauto.
Qed.

Lemma bind_Err {A B} (r : PetscResult A) (f : A -> PetscResult B)
    (code : PetscErrorCode) (msg : string) :
  r ≫= f = Err code msg ->
  r = Err code msg \/ exists a, r = Ok a /\ f a = Err code msg.
Proof.
  destruct r as [a| |]; cbn; intros Hx.
  - right. exists a. split; [reflexivity | exact Hx].
  - left. inversion Hx; subst. reflexivity.
  - discriminate Hx.
Qed.

Lemma vec_at_not_Err {A} (v : list A) (i : Z) code msg :
  vec_at v i <> Err code msg.
Proof.
  unfold vec_at. destruct (i <? 0); [discriminate |].
  destruct (v !! Z.to_nat i); discriminate.
Qed.

Lemma vec_set_not_Err {A} (v : list A) (i : Z) (a : A) code msg :
  vec_set v i a <> Err code msg.
Proof.
  unfold vec_set. destruct (i <? 0); [discriminate |].
  destruct (Z.to_nat i <? length v)%nat; discriminate.
Qed.

Lemma vec_set2_not_Err {A} (v : list (list A)) (i j : Z) (a : A) code msg :
  vec_set2 v i j a <> Err code msg.
Proof.
  unfold vec_set2. intros Hx.
  apply bind_Err in Hx as [Hx | (row & _ & Hx)];
    [exact (vec_at_not_Err _ _ _ _ Hx) |].
  apply bind_Err in Hx as [Hx | (row' & _ & Hx)];
    [exact (vec_set_not_Err _ _ _ _ _ Hx) |].
  exact (vec_set_not_Err _ _ _ _ _ Hx).
Qed.

Ltac skip_read H :=
  let a := fresh "a" in
  let Ha := fresh "Ha" in
  apply bind_Err in H as [H | (a & Ha & H)];
  [exfalso; exact (vec_at_not_Err _ _ _ _ H) |].

Lemma updateMeshIdx_body_Err (self : SingleBodyPoints) (mesh : Mesh)
    (i c d : Z) (mIdx : list (list Z)) (code : PetscErrorCode) (msg : string) :
  updateMeshIdx_body self mesh i c d mIdx = Err code msg ->
  code = PETSC_ERR_MAX_VALUE /\ outside_domain self mesh i d.
Proof.
  unfold updateMeshIdx_body. intros Hrun.
  apply bind_Err in Hrun as [Hrun | (lo & Hlo & Hrun)];
    [exfalso; exact (vec_at_not_Err _ _ _ _ Hrun) |].
  apply bind_Err in Hrun as [Hrun | (row & Hrow & Hrun)];
    [exfalso; exact (vec_at_not_Err _ _ _ _ Hrun) |].
  apply bind_Err in Hrun as [Hrun | (x & Hx & Hrun)];
    [exfalso; exact (vec_at_not_Err _ _ _ _ Hrun) |].
  assert (vec_at2 (coords self) i d = Ok x) as Hx2
    by (apply vec_at2_Ok; eauto).
  apply bind_Err in Hrun as [Hrun | (outside & Hout & Hrun)].
  { exfalso. destruct (real_geb lo x); [discriminate Hrun |].
    apply bind_Err in Hrun as [Hrun | (hi & _ & Hrun)];
      [exact (vec_at_not_Err _ _ _ _ Hrun) | cbn in Hrun; discriminate Hrun]. }
  destruct outside.
  - apply bind_Err in Hrun as [Hrun | (hi & Hhi & Hrun)];
      [exfalso; exact (vec_at_not_Err _ _ _ _ Hrun) |].
    inversion Hrun; subst. split; [reflexivity |].
    exists x, lo, hi. split; [exact Hx2 |]. split; [exact Hlo |].
    split; [exact Hhi |].
    destruct (real_geb lo x) eqn:Hxlo.
    + left. reflexivity.
    + right. apply bind_Ok in Hout as (hi' & Hhi' & Hout).
      rewrite Hhi in Hhi'. inversion Hhi'; subst hi'.
      inversion Hout as [Hhix]. reflexivity.
  - exfalso. repeat skip_read Hrun.
    match type of Hrun with
    | (if ?b then _ else _) = _ => destruct b; [discriminate Hrun |]
    end.
    exact (vec_set2_not_Err _ _ _ _ _ _ Hrun).
Qed.

Lemma updateMeshIdx_body_defined (self : SingleBodyPoints) (mesh : Mesh)
    (i c d : Z) (mIdx : list (list Z)) :
  (exists x, vec_at2 (coords self) i d = Ok x) ->
  (exists lo, vec_at (mesh_min mesh) d = Ok lo) ->
  (exists hi, vec_at (mesh_max mesh) d = Ok hi) ->
  (exists arr n, vec_at2 (mesh_coord mesh) 4 d = Ok arr /\
                 vec_at2 (mesh_n mesh) 4 d = Ok n /\
                 0 <= n <= Z.of_nat (length arr)) ->
  (exists k, vec_at2 mIdx c d = Ok k) ->
  updateMeshIdx_body self mesh i c d mIdx <> Undefined.
Proof.
  intros (x & Hx) (lo & Hlo) (hi & Hhi) (arr & n & Harr & Hn & Hrange) (k & Hk).
  apply vec_at2_Ok in Hx as (row & Hrow & Hx).
  apply vec_at2_Ok in Harr as (c4 & Hc4 & Harr).
  apply vec_at2_Ok in Hn as (n4 & Hn4 & Hn).
  unfold updateMeshIdx_body.
  rewrite Hlo; cbn [mbind PetscResult_bind].
  rewrite Hrow; cbn [mbind PetscResult_bind].
  rewrite Hx; cbn [mbind PetscResult_bind].
  destruct (real_geb lo x); cbn [mbind PetscResult_bind].
  { rewrite Hhi; cbn [mbind PetscResult_bind]. discriminate. }
  rewrite Hhi; cbn [mbind PetscResult_bind].
  destruct (real_leb hi x); cbn [mbind PetscResult_bind].
  { discriminate. }
  rewrite Hc4; cbn [mbind PetscResult_bind].
  rewrite Harr; cbn [mbind PetscResult_bind].
  rewrite Hn4; cbn [mbind PetscResult_bind].
  rewrite Hn; cbn [mbind PetscResult_bind].
  destruct (Z.ltb_spec n 0); [lia |].
  destruct (Z.ltb_spec (Z.of_nat (length arr)) n); [lia |].
  cbn [mbind PetscResult_bind orb].
  destruct (vec_set2_defined mIdx c d
              (Z.of_nat (upper_bound real_ltb (take (Z.to_nat n) arr) x) - 1)
              k Hk)
    as (v' & ->).
  discriminate.
Qed.

Section UpdateLoops.
Variables (self : SingleBodyPoints) (mesh : Mesh).

Lemma updateMeshIdx_dims_Ok (i c : Z) (count : nat) :
  forall (d0 : Z) (mIdx mIdx' : list (list Z)),
    updateMeshIdx_dims count d0 self mesh i c mIdx = (Ok tt, mIdx') ->
    (forall d, d0 <= d < d0 + Z.of_nat count ->
        passes_check self mesh i d /\ entry_located self mesh mIdx' i c d) /\
    (forall c' d', c' <> c \/ d' < d0 \/ d0 + Z.of_nat count <= d' ->
        vec_at2 mIdx' c' d' = vec_at2 mIdx c' d').
Proof.
  induction count as [|count IH]; intros d0 mIdx mIdx' Hrun.
  - cbn in Hrun. inversion Hrun; subst. split; [intros d Hd; lia | done].
  - cbn [updateMeshIdx_dims] in Hrun.
    destruct (updateMeshIdx_body self mesh i c d0 mIdx) as [m1| |] eqn:Hbody;
      try discriminate Hrun.
    apply updateMeshIdx_body_Ok in Hbody
      as (Hin & x & arr & n & Hx & Harr & Hn & Hrange & Hset).
    apply vec_set2_Ok in Hset as (Hnew & Hframe).
    destruct (IH _ _ _ Hrun) as (Hrest & Hframe').
    split.
    + intros d Hd. destruct (decide (d = d0)) as [-> | Hne].
      * split; [exact Hin |]. exists x, arr, n.
        repeat split; try assumption; try lia.
        rewrite Hframe' by lia. exact Hnew.
      * apply Hrest. lia.
    + intros c' d' Hout. rewrite Hframe' by lia. apply Hframe. lia.
Qed.

Lemma updateMeshIdx_dims_Err (i c : Z) (count : nat) :
  forall (d0 : Z) (mIdx mIdx' : list (list Z)) code msg,
    updateMeshIdx_dims count d0 self mesh i c mIdx = (Err code msg, mIdx') ->
    code = PETSC_ERR_MAX_VALUE /\
    (exists d, d0 <= d < d0 + Z.of_nat count /\
               outside_domain self mesh i d /\
               vec_at2 mIdx' c d = vec_at2 mIdx c d) /\
    (forall c' d', c' <> c -> vec_at2 mIdx' c' d' = vec_at2 mIdx c' d').
Proof.
  induction count as [|count IH]; intros d0 mIdx mIdx' code msg Hrun.
  - cbn in Hrun. discriminate Hrun.
  - cbn [updateMeshIdx_dims] in Hrun.
    destruct (updateMeshIdx_body self mesh i c d0 mIdx) as [m1| |] eqn:Hbody;
      try discriminate Hrun.
    + apply updateMeshIdx_body_Ok in Hbody as (_ & x & arr & n & _ & _ & _ & _ & Hset).
      apply vec_set2_Ok in Hset as (_ & Hframe).
      destruct (IH _ _ _ _ _ Hrun) as (Hcode & (d & Hd & Hout & Hkeep) & Hrows).
      split; [exact Hcode |]. split.
      * exists d. split; [lia |]. split; [exact Hout |].
        rewrite Hkeep. apply Hframe. lia.
      * intros c' d' Hc'. rewrite Hrows by exact Hc'. apply Hframe. lia.
    + inversion Hrun; subst.
      apply updateMeshIdx_body_Err in Hbody as (Hcode & Hout).
      split; [exact Hcode |]. split; [| done].
      exists d0. split; [lia |]. split; [exact Hout | reflexivity].
Qed.

Lemma updateMeshIdx_dims_defined (i c : Z) (count : nat) :
  forall (d0 : Z) (mIdx : list (list Z)),
    (forall d, d0 <= d < d0 + Z.of_nat count ->
        dim_indexable self mesh i d /\ exists k, vec_at2 mIdx c d = Ok k) ->
    (updateMeshIdx_dims count d0 self mesh i c mIdx).1 <> Undefined.
Proof.
  induction count as [|count IH]; intros d0 mIdx Hpre.
  - cbn. discriminate.
  - cbn [updateMeshIdx_dims].
    destruct (Hpre d0 ltac:(lia)) as ((Hx & Hlo & Hhi & Harr) & Hslot).
    pose proof (updateMeshIdx_body_defined self mesh i c d0 mIdx
                  Hx Hlo Hhi Harr Hslot) as Hdef.
    destruct (updateMeshIdx_body self mesh i c d0 mIdx) as [m1| |] eqn:Hbody;
      [| cbn; discriminate | congruence].
    apply updateMeshIdx_body_Ok in Hbody as (_ & x & arr & n & _ & _ & _ & _ & Hset).
    apply vec_set2_Ok in Hset as (_ & Hframe).
    apply IH. intros d Hd. destruct (Hpre d ltac:(lia)) as (Hix & k & Hk).
    split; [exact Hix |]. exists k. rewrite Hframe by lia. exact Hk.
Qed.

Lemma updateMeshIdx_points_Ok (count : nat) :
  forall (i0 c0 : Z) (mIdx mIdx' : list (list Z)),
    updateMeshIdx_points count i0 c0 self mesh mIdx = (Ok tt, mIdx') ->
    (forall t d, 0 <= t < Z.of_nat count -> 0 <= d < dim self ->
        passes_check self mesh (i0 + t) d /\
        entry_located self mesh mIdx' (i0 + t) (c0 + t) d) /\
    (forall c' d', c' < c0 \/ c0 + Z.of_nat count <= c' ->
        vec_at2 mIdx' c' d' = vec_at2 mIdx c' d').
Proof.
  induction count as [|count IH]; intros i0 c0 mIdx mIdx' Hrun.
  - cbn in Hrun. inversion Hrun; subst. split; [intros t d Ht; lia | done].
  - cbn [updateMeshIdx_points] in Hrun.
    destruct (updateMeshIdx_dims (Z.to_nat (dim self)) 0 self mesh i0 c0 mIdx)
      as [[[]| |] m1] eqn:Hdims; try discriminate Hrun.
    apply updateMeshIdx_dims_Ok in Hdims as (Hrow & Hframe).
    destruct (IH _ _ _ _ Hrun) as (Hrest & Hframe').
    split.
    + intros t d Ht Hd. destruct (decide (t = 0)) as [-> | Hne].
      * rewrite !Z.add_0_r. destruct (Hrow d ltac:(lia)) as (Hin & Hloc).
        split; [exact Hin |].
        destruct Hloc as (x & arr & n & Hx & Harr & Hn & Hrange & Hslot).
        exists x, arr, n. repeat split; try assumption; try lia.
        rewrite Hframe' by lia. exact Hslot.
      * replace (i0 + t) with (i0 + 1 + (t - 1)) by lia.
        replace (c0 + t) with (c0 + 1 + (t - 1)) by lia.
        apply Hrest; lia.
    + intros c' d' Hout. rewrite Hframe' by lia. apply Hframe. lia.
Qed.

Lemma updateMeshIdx_points_Err (count : nat) :
  forall (i0 c0 : Z) (mIdx mIdx' : list (list Z)) code msg,
    updateMeshIdx_points count i0 c0 self mesh mIdx = (Err code msg, mIdx') ->
    code = PETSC_ERR_MAX_VALUE /\
    exists t d, 0 <= t < Z.of_nat count /\ 0 <= d < dim self /\
                outside_domain self mesh (i0 + t) d /\
                vec_at2 mIdx' (c0 + t) d = vec_at2 mIdx (c0 + t) d.
Proof.
  induction count as [|count IH]; intros i0 c0 mIdx mIdx' code msg Hrun.
  - cbn in Hrun. discriminate Hrun.
  - cbn [updateMeshIdx_points] in Hrun.
    destruct (updateMeshIdx_dims (Z.to_nat (dim self)) 0 self mesh i0 c0 mIdx)
      as [[[]| |] m1] eqn:Hdims; try discriminate Hrun.
    + apply updateMeshIdx_dims_Ok in Hdims as (_ & Hframe).
      destruct (IH _ _ _ _ _ _ Hrun) as (Hcode & t & d & Ht & Hd & Hout & Hkeep).
      split; [exact Hcode |]. exists (t + 1), d.
      split; [lia |]. split; [exact Hd |].
      replace (i0 + (t + 1)) with (i0 + 1 + t) by lia.
      replace (c0 + (t + 1)) with (c0 + 1 + t) by lia.
      split; [exact Hout |]. rewrite Hkeep. apply Hframe. lia.
    + inversion Hrun; subst.
      apply updateMeshIdx_dims_Err in Hdims
        as (Hcode & (d & Hd & Hout & Hkeep) & _).
      split; [exact Hcode |]. exists 0, d. rewrite !Z.add_0_r.
      split; [lia |]. split; [lia |]. split; [exact Hout | exact Hkeep].
Qed.

Lemma updateMeshIdx_points_defined (count : nat) :
  forall (i0 c0 : Z) (mIdx : list (list Z)),
    (forall t d, 0 <= t < Z.of_nat count -> 0 <= d < dim self ->
        dim_indexable self mesh (i0 + t) d /\
        exists k, vec_at2 mIdx (c0 + t) d = Ok k) ->
    (updateMeshIdx_points count i0 c0 self mesh mIdx).1 <> Undefined.
Proof.
  induction count as [|count IH]; intros i0 c0 mIdx Hpre.
  - cbn. discriminate.
  - cbn [updateMeshIdx_points].
    pose proof (updateMeshIdx_dims_defined i0 c0 (Z.to_nat (dim self)) 0 mIdx)
      as Hdef.
    destruct (updateMeshIdx_dims (Z.to_nat (dim self)) 0 self mesh i0 c0 mIdx)
      as [[[]| |] m1] eqn:Hdims.
    + apply updateMeshIdx_dims_Ok in Hdims as (_ & Hframe).
      apply IH. intros t d Ht Hd.
      destruct (Hpre (t + 1) d ltac:(lia) Hd) as (Hix & k & Hk).
      replace (i0 + 1 + t) with (i0 + (t + 1)) by lia.
      replace (c0 + 1 + t) with (c0 + (t + 1)) by lia.
      split; [exact Hix |]. exists k. rewrite Hframe by lia. exact Hk.
    + cbn. discriminate.
    + exfalso. apply Hdef; [| reflexivity].
      intros d Hd. specialize (Hpre 0 d ltac:(lia) ltac:(lia)).
      rewrite !Z.add_0_r in Hpre. exact Hpre.
Qed.
End UpdateLoops.

Lemma updateMeshIdx_unfold (self : SingleBodyPoints) (mesh : Mesh) :
  updateMeshIdx self mesh
  = ((updateMeshIdx_points (Z.to_nat (edPt self - bgPt self)) (bgPt self) 0
                           self mesh (meshIdx self)).1,
     set_meshIdx self
       (updateMeshIdx_points (Z.to_nat (edPt self - bgPt self)) (bgPt self) 0
                             self mesh (meshIdx self)).2).
Proof.
  unfold updateMeshIdx.
  destruct (updateMeshIdx_points _ _ _ _ _ _) as [r m]. reflexivity.
Qed.

Lemma updateMeshIdx_Ok_entries (self self' : SingleBodyPoints) (mesh : Mesh) :
  updateMeshIdx self mesh = (Ok tt, self') ->
  forall i d,
    bgPt self <= i < edPt self -> 0 <= d < dim self ->
    passes_check self mesh i d /\
    entry_located self mesh (meshIdx self') i (i - bgPt self) d.
Proof.
  intros Hrun i d Hi Hd.
  rewrite updateMeshIdx_unfold in Hrun. inversion Hrun as [[Hres Hself']].
  destruct (updateMeshIdx_points _ _ _ _ _ _) as [r m] eqn:Hloop.
  cbn [fst snd] in *. subst r.
  apply updateMeshIdx_points_Ok in Hloop as (Hall & _).
  destruct (Hall (i - bgPt self) d ltac:(lia) Hd) as (Hin & Hloc).
  replace (bgPt self + (i - bgPt self)) with i in * by lia.
  rewrite Z.add_0_l in Hloc. split; assumption.
Qed.

(** C2, as the code has it: after a successful [updateMeshIdx] on sorted
    arrays of cell boundaries, for every local marker [i] and direction
    [d] whose coordinate is a number the stored index is that of the last
    cell boundary less than or equal to the coordinate: the boundaries up
    to it are at most the coordinate and the boundaries after it are
    strictly greater.  For a coordinate that is a NaN, which the domain
    check lets through, the stored index is that of the last cell
    boundary. *)
Theorem updateMeshIdx_last_not_above (self self' : SingleBodyPoints)
    (mesh : Mesh) :
  (forall d arr, vec_at2 (mesh_coord mesh) 4 d = Ok arr -> sorted arr) ->
  updateMeshIdx self mesh = (Ok tt, self') ->
  forall i d,
    bgPt self <= i < edPt self -> 0 <= d < dim self ->
    exists (x : PetscReal) (arr : list PetscReal) (n k : Z),
      vec_at2 (coords self) i d = Ok x /\
      vec_at2 (mesh_coord mesh) 4 d = Ok arr /\
      vec_at2 (mesh_n mesh) 4 d = Ok n /\
      vec_at2 (meshIdx self') (i - bgPt self) d = Ok k /\
      (x <> NaN -> last_not_above arr n x k) /\
      (x = NaN -> k = n - 1).
Proof.
  intros Hsorted Hrun i d Hi Hd.
  destruct (updateMeshIdx_Ok_entries _ _ _ Hrun i d Hi Hd)
    as (_ & x & arr & n & Hx & Harr & Hn & Hrange & Hslot).
  exists x, arr, n,
    (Z.of_nat (upper_bound real_ltb (take (Z.to_nat n) arr) x) - 1).
  split; [exact Hx |]. split; [exact Harr |]. split; [exact Hn |].
  split; [exact Hslot |]. split.
  - intros Hnum.
    exact (upper_bound_last_not_above arr n x (Hsorted _ _ Harr) Hnum Hrange).
  - intros ->. rewrite upper_bound_NaN, length_take_le by lia. lia.
Qed.

(** C2, as stated, fails: the marker of [sample_body] has first
    coordinate 1, which is a cell boundary; [updateMeshIdx] succeeds and
    stores index 1, and boundary 1 is the coordinate itself, not strictly
    less than it. *)
Lemma updateMeshIdx_boundary_not_strictly_less :
  exists self',
    updateMeshIdx sample_body sample_mesh = (Ok tt, self') /\
    vec_at2 (coords sample_body) 0 0 = Ok (Num 1) /\
    vec_at2 (mesh_coord sample_mesh) 4 0 = Ok [Num 0; Num 1; Num 2] /\
    vec_at2 (meshIdx self') 0 0 = Ok 1 /\
    [Num 0; Num 1; Num 2] !! Z.to_nat 1 = Some (Num 1) /\
    ~ real_lt (Num 1) (Num 1).
Proof.
  eexists. split; [vm_compute; reflexivity |].
  repeat split. intros Hlt. discriminate Hlt.
Qed.

(** C3, as the code has it: when the data it indexes are there,
    [updateMeshIdx] fails if and only if for some local marker and
    direction the test of line 104 holds: the lower bound is greater than
    or equal to the coordinate or the upper bound is less than or equal
    to it.  Where the coordinate and the bounds are numbers this is the
    coordinate not lying strictly between the bounds; it never holds of a
    coordinate that is a NaN.  The failure is the maximum-value error,
    and the slot of [meshIdx] of an offending coordinate keeps the value
    it had before the call. *)
Theorem updateMeshIdx_fails_iff (self : SingleBodyPoints) (mesh : Mesh) :
  indexable self mesh ->
  let out := updateMeshIdx self mesh in
  (is_Err out.1 = true <->
   exists i d, bgPt self <= i < edPt self /\ 0 <= d < dim self /\
               outside_domain self mesh i d) /\
  (forall i d,
      numbers_at self mesh i d ->
      outside_domain self mesh i d <-> ~ inside_domain self mesh i d) /\
  (forall i d,
      vec_at2 (coords self) i d = Ok NaN -> ~ outside_domain self mesh i d) /\
  out.1 <> Undefined /\
  (forall code msg,
      out.1 = Err code msg ->
      code = PETSC_ERR_MAX_VALUE /\
      exists i d, bgPt self <= i < edPt self /\ 0 <= d < dim self /\
                  outside_domain self mesh i d /\
                  vec_at2 (meshIdx out.2) (i - bgPt self) d
                  = vec_at2 (meshIdx self) (i - bgPt self) d).
Proof.
  intros Hix out. subst out. rewrite updateMeshIdx_unfold. cbn [fst snd].
  destruct Hix as [Hbg Hcoords Hmin Hmax Hcoord Hslots].
  set (count := Z.to_nat (edPt self - bgPt self)).
  assert (forall t d, 0 <= t < Z.of_nat count -> 0 <= d < dim self ->
            dim_indexable self mesh (bgPt self + t) d /\
            exists k, vec_at2 (meshIdx self) (0 + t) d = Ok k) as Hpre.
  { intros t d Ht Hd. split.
    - repeat split; [apply Hcoords; lia | apply Hmin; lia | apply Hmax; lia
                     | apply Hcoord; lia].
    - apply Hslots; lia. }
  pose proof (updateMeshIdx_points_defined self mesh count (bgPt self) 0
                (meshIdx self) Hpre) as Hdef.
  assert (forall code msg,
            (updateMeshIdx_points count (bgPt self) 0 self mesh
                                  (meshIdx self)).1 = Err code msg ->
            code = PETSC_ERR_MAX_VALUE /\
            exists i d, bgPt self <= i < edPt self /\ 0 <= d < dim self /\
                        outside_domain self mesh i d /\
                        vec_at2 (updateMeshIdx_points count (bgPt self) 0 self
                                   mesh (meshIdx self)).2 (i - bgPt self) d
                        = vec_at2 (meshIdx self) (i - bgPt self) d) as Herr.
  { intros code msg Hfail.
    destruct (updateMeshIdx_points count (bgPt self) 0 self mesh (meshIdx self))
      as [r m] eqn:Hloop.
    cbn [fst snd] in *. subst r.
    apply updateMeshIdx_points_Err in Hloop
      as (Hcode & t & d & Ht & Hd & Hout & Hkeep).
    split; [exact Hcode |]. exists (bgPt self + t), d.
    replace (bgPt self + t - bgPt self) with (0 + t) by lia.
    repeat split; try assumption; lia. }
  split; [| split; [| split; [| split; [exact Hdef | exact Herr]]]].
  - split.
    + intros Hfail.
      destruct (updateMeshIdx_points count (bgPt self) 0 self mesh
                  (meshIdx self)).1
        as [u|code msg|] eqn:Hres; try discriminate Hfail.
      destruct (Herr code msg eq_refl) as (_ & i & d & Hi & Hd & Hout & _).
      exists i, d. split; [exact Hi |]. split; [exact Hd | exact Hout].
    + intros (i & d & Hi & Hd & Hout).
      destruct (updateMeshIdx_points count (bgPt self) 0 self mesh
                  (meshIdx self))
        as [r m] eqn:Hloop.
      cbn [fst snd] in *.
      destruct r as [[]|code msg|]; [| reflexivity | congruence].
      exfalso.
      apply updateMeshIdx_points_Ok in Hloop as (Hall & _).
      destruct (Hall (i - bgPt self) d ltac:(lia) Hd) as (Hin & _).
      replace (bgPt self + (i - bgPt self)) with i in Hin by lia.
      exact (passes_not_outside _ _ _ _ Hin Hout).
  - intros i d (x & lo & hi & Hx & Hlo & Hhi & Hnx & Hnlo & Hnhi).
    pose proof (numbers_outside_iff x lo hi Hnx Hnlo Hnhi) as Hiff.
    split.
    + intros (x' & lo' & hi' & Hx' & Hlo' & Hhi' & Hout)
             (x'' & lo'' & hi'' & Hx'' & Hlo'' & Hhi'' & Hlt).
      rewrite Hx in Hx', Hx''. rewrite Hlo in Hlo', Hlo''.
      rewrite Hhi in Hhi', Hhi''.
      inversion Hx'; inversion Hlo'; inversion Hhi'.
      inversion Hx''; inversion Hlo''; inversion Hhi''. subst.
      exact (proj1 Hiff Hout Hlt).
    + intros Hnot. exists x, lo, hi. repeat split; try assumption.
      apply Hiff. intros Hlt. apply Hnot.
      exists x, lo, hi. repeat split; try assumption; apply Hlt.
  - intros i d Hx (x' & lo & hi & Hx' & _ & _ & Hout).
    rewrite Hx in Hx'. inversion Hx'; subst x'.
    destruct (real_cmp_NaN lo) as (_ & _ & _ & _ & _ & Hge).
    destruct (real_cmp_NaN hi) as (_ & _ & _ & Hle & _).
    destruct Hout as [Hout | Hout]; congruence.
Qed.

(** C3, as stated, fails: the marker of [sample_body_nan] has a NaN for
    its first coordinate, which does not lie strictly between the bounds
    0 and 2; [updateMeshIdx] returns success. *)
Lemma updateMeshIdx_accepts_NaN :
  indexable sample_body_nan sample_mesh /\
  0 <= 0 < edPt sample_body_nan /\ 0 <= 0 < dim sample_body_nan /\
  vec_at2 (coords sample_body_nan) 0 0 = Ok NaN /\
  ~ inside_domain sample_body_nan sample_mesh 0 0 /\
  (updateMeshIdx sample_body_nan sample_mesh).1 = Ok tt.
Proof.
  split; [| repeat split; try (cbn; lia)].
  - constructor.
    + cbn. lia.
    + intros i d Hi Hd. cbn in Hi, Hd. assert (i = 0) as -> by lia.
      assert (d = 0 \/ d = 1) as [-> | ->] by lia; eexists; reflexivity.
    + intros d Hd. cbn in Hd.
      assert (d = 0 \/ d = 1) as [-> | ->] by lia; eexists; reflexivity.
    + intros d Hd. cbn in Hd.
      assert (d = 0 \/ d = 1) as [-> | ->] by lia; eexists; reflexivity.
    + intros d Hd. cbn in Hd.
      assert (d = 0 \/ d = 1) as [-> | ->] by lia;
        exists [Num 0; Num 1; Num 2], 3; repeat split; cbn; lia.
    + intros c d Hc Hd. cbn in Hc, Hd. assert (c = 0) as -> by lia.
      assert (d = 0 \/ d = 1) as [-> | ->] by lia; eexists; reflexivity.
  - intros (x & lo & hi & Hx & _ & _ & Hlt & _).
    inversion Hx; subst x.
    destruct (real_cmp_NaN lo) as (_ & Hc & _).
    unfold real_lt in Hlt. congruence.
Qed.

(** ** writeBody *)

Section WriteBody.
Variable printf_e : PetscReal -> string.
Variable self : SingleBodyPoints.

Lemma writeBody_rows2_spec (count : nat) :
  forall (k : nat) (viewer : PetscViewer),
    (k + count <= length (coords self))%nat ->
    Forall (fun row => (2 <= length row)%nat) (coords self) ->
    writeBody_rows2 printf_e count (Z.of_nat k) self viewer
    = Ok {| viewer_file := viewer_file viewer;
            viewer_lines :=
              viewer_lines viewer
              ++ (coordinate_line printf_e 2
                    <$> take count (drop k (coords self))) |}.
Proof.
  induction count as [|count IH]; intros k viewer Hk Hwide.
  - cbn. rewrite app_nil_r. destruct viewer; reflexivity.
  - cbn [writeBody_rows2].
    destruct (lookup_lt_is_Some_2 (coords self) k) as [row Hrow]; [lia |].
    pose proof (proj1 (Forall_lookup _ _) Hwide _ _ Hrow) as Hlen.
    destruct row as [|x [|y row]]; cbn in Hlen; try lia.
    rewrite (vec_at_nat _ _ _ Hrow); cbn [mbind PetscResult_bind].
    change (vec_at (x :: y :: row) 0) with (Ok (A := PetscReal) x).
    change (vec_at (x :: y :: row) 1) with (Ok (A := PetscReal) y).
    cbn [mbind PetscResult_bind].
    replace (Z.of_nat k + 1) with (Z.of_nat (S k)) by lia.
    rewrite IH by (assumption || lia).
    cbn [viewer_file viewer_lines PetscViewerASCIIPrintf].
    rewrite (drop_S _ _ _ Hrow). cbn [take fmap list_fmap].
    rewrite <- app_assoc. reflexivity.
Qed.

Lemma writeBody_rows3_spec (count : nat) :
  forall (k : nat) (viewer : PetscViewer),
    (k + count <= length (coords self))%nat ->
    Forall (fun row => (3 <= length row)%nat) (coords self) ->
    writeBody_rows3 printf_e count (Z.of_nat k) self viewer
    = Ok {| viewer_file := viewer_file viewer;
            viewer_lines :=
              viewer_lines viewer
              ++ (coordinate_line printf_e 3
                    <$> take count (drop k (coords self))) |}.
Proof.
  induction count as [|count IH]; intros k viewer Hk Hwide.
  - cbn. rewrite app_nil_r. destruct viewer; reflexivity.
  - cbn [writeBody_rows3].
    destruct (lookup_lt_is_Some_2 (coords self) k) as [row Hrow]; [lia |].
    pose proof (proj1 (Forall_lookup _ _) Hwide _ _ Hrow) as Hlen.
    destruct row as [|x [|y [|z row]]]; cbn in Hlen; try lia.
    rewrite (vec_at_nat _ _ _ Hrow); cbn [mbind PetscResult_bind].
    change (vec_at (x :: y :: z :: row) 0) with (Ok (A := PetscReal) x).
    change (vec_at (x :: y :: z :: row) 1) with (Ok (A := PetscReal) y).
    change (vec_at (x :: y :: z :: row) 2) with (Ok (A := PetscReal) z).
    cbn [mbind PetscResult_bind].
    replace (Z.of_nat k + 1) with (Z.of_nat (S k)) by lia.
    rewrite IH by (assumption || lia).
    cbn [viewer_file viewer_lines PetscViewerASCIIPrintf].
    rewrite (drop_S _ _ _ Hrow). cbn [take fmap list_fmap].
    rewrite <- app_assoc. reflexivity.
Qed.

(** C9: for a body that holds [nPts] coordinate rows of at least [dim]
    entries, [writeBody] fails with the file-write error when [dim] is
    neither 2 nor 3, having printed nothing; when [dim] is 2 or 3 it
    succeeds and the file holds one line per marker, line [k] being that
    of marker [k]; in both cases the object, and so its coordinates, is
    as before the call. *)
Theorem writeBody_spec (filepath : string) :
  length (coords self) = Z.to_nat (nPts self) ->
  Forall (fun row => (Z.to_nat (dim self) <= length row)%nat) (coords self) ->
  let out := writeBody printf_e self filepath in
  out.2 = self /\
  viewer_file out.1.2 = filepath /\
  (dim self <> 2 /\ dim self <> 3 ->
   out.1.1 = Err PETSC_ERR_FILE_WRITE
                 ("Function only supports 2D and 3D bodies." +:+ endl) /\
   viewer_lines out.1.2 = []) /\
  (dim self = 2 \/ dim self = 3 ->
   out.1.1 = Ok tt /\
   viewer_lines out.1.2
   = coordinate_line printf_e (dim self) <$> coords self /\
   length (viewer_lines out.1.2) = Z.to_nat (nPts self) /\
   forall (k : nat) (row : list PetscReal),
     coords self !! k = Some row ->
     viewer_lines out.1.2 !! k
     = Some (coordinate_line printf_e (dim self) row)).
Proof.
  intros Hrows Hwide out. subst out. unfold writeBody.
  destruct (Z.eqb_spec (dim self) 3) as [H3 | H3];
    [| destruct (Z.eqb_spec (dim self) 2) as [H2 | H2]].
  - rewrite H3 in *.
    change (Z.of_nat 0) with 0 in *.
    rewrite (writeBody_rows3_spec (Z.to_nat (nPts self)) 0)
      by (assumption || cbn; lia).
    cbn [fst snd viewer_file viewer_lines app].
    rewrite drop_0, <- Hrows, firstn_all.
    repeat split; try lia.
    + rewrite length_fmap. reflexivity.
    + intros k row Hrow. rewrite list_lookup_fmap, Hrow. reflexivity.
  - rewrite H2 in *.
    rewrite (writeBody_rows2_spec (Z.to_nat (nPts self)) 0)
      by (assumption || cbn; lia).
    cbn [fst snd viewer_file viewer_lines app].
    rewrite drop_0, <- Hrows, firstn_all.
    repeat split; try lia.
    + rewrite length_fmap. reflexivity.
    + intros k row Hrow. rewrite list_lookup_fmap, Hrow. reflexivity.
  - cbn [fst snd viewer_file viewer_lines]. repeat split; lia.
Qed.
End WriteBody.

(** ** init *)

Section Init.
Context `{DMDA_ownership}.

Lemma base_constructed_ext (self self' : SingleBodyPoints) :
  comm self' = comm self -> mpiSize self' = mpiSize self ->
  mpiRank self' = mpiRank self -> nLclAllProcs self' = nLclAllProcs self ->
  offsetsAllProcs self' = offsetsAllProcs self ->
  base_constructed self -> base_constructed self'.
Proof.
  intros Hc Hs Hr Hn Ho [H1 H2 H3 H4 H5 H6].
  constructor; rewrite ?Hc, ?Hs, ?Hr, ?Hn, ?Ho; assumption.
Qed.

Lemma createDMDA_Ok_coords0 (self self' : SingleBodyPoints) :
  createDMDA self = Ok self' -> coords0 self' = coords0 self.
Proof.
  unfold createDMDA. intros Hrun.
  destruct (_ <? _)%nat; [discriminate Hrun |].
  apply bind_Ok in Hrun as (o1 & _ & Hrun).
  apply bind_Ok in Hrun as (o2 & _ & Hrun).
  inversion Hrun; subst. reflexivity.
Qed.

(** C10: when the reader hands back no marker, [init] reads the first
    row of an empty coordinate table: its outcome is neither the
    dimension-mismatch error nor success.  When it hands back at least one
    marker the check is defined: [init] fails with the file-read error if
    the dimension differs from the length of the first row, and otherwise
    goes on and succeeds with the coordinates recorded. *)
Theorem init_needs_a_marker
    (readLagrangianPoints : string -> PetscResult (Z * list (list PetscReal)))
    (self : SingleBodyPoints) (comm_arg : MPI_Comm) (dim_arg : Z)
    (name_arg filePath_arg : string) (N : Z) (cs : list (list PetscReal)) :
  base_constructed self ->
  readLagrangianPoints (filePath self) = Ok (N, cs) ->
  Z.of_nat (length cs) = N ->
  let out := init readLagrangianPoints self comm_arg dim_arg name_arg
                  filePath_arg in
  (N = 0 -> out = Undefined) /\
  (1 <= N ->
   exists row0,
     cs !! 0%nat = Some row0 /\
     (dim_arg `mod` 2 ^ 32 <> Z.of_nat (length row0) ->
      exists msg, out = Err PETSC_ERR_FILE_READ msg) /\
     (dim_arg `mod` 2 ^ 32 = Z.of_nat (length row0) ->
      exists self',
        out = Ok self' /\ nPts self' = N /\ coords self' = cs /\
        coords0 self' = cs /\
        meshIdx self'
        = replicate (Z.to_nat (nLclPts self'))
                    (replicate (Z.to_nat dim_arg) 0))).
Proof.
  intros Hbase Hread Hlen out. subst out. unfold init, readBody.
  rewrite Hread. cbn [mbind PetscResult_bind]. cbn [coords].
  split.
  - intros HN. destruct cs; [reflexivity | cbn in Hlen; lia].
  - intros HN. destruct cs as [|row0 rest]; [cbn in Hlen; lia |].
    exists row0. split; [reflexivity |].
    change (vec_at (row0 :: rest) 0) with (Ok (A := list PetscReal) row0).
    cbn [mbind PetscResult_bind].
    split; intros Hdim.
    + destruct (Z.eqb_spec (dim_arg `mod` 2 ^ 32) (Z.of_nat (length row0)));
        [contradiction |].
      cbn [negb]. eauto.
    + destruct (Z.eqb_spec (dim_arg `mod` 2 ^ 32) (Z.of_nat (length row0)));
        [| contradiction].
      cbn [negb].
      match goal with
      | |- context [createDMDA ?s] =>
          destruct (createDMDA_spec s) as (b & Hb & Hspec)
      end.
      { eapply base_constructed_ext; [.. | exact Hbase]; reflexivity. }
      { cbn [nPts]. lia. }
      rewrite Hb. cbn [mbind PetscResult_bind].
      cbn [nPts coords] in Hspec.
      destruct Hspec as (_ & _ & _ & _ & _ & HNb & _ & _ & _ & Hcb & _).
      unfold createInfoString. eexists. split; [reflexivity |].
      cbn [nPts coords coords0 meshIdx nLclPts].
      repeat split; try assumption.
      apply createDMDA_Ok_coords0 in Hb. exact Hb.
Qed.
End Init.

(** ** The delta function of Roma et al. *)

Section DeltaKernel.
Local Open Scope R_scope.

Lemma sqrt_quarter : sqrt (1 / 4) = 1 / 2.
Proof.
  replace (1 / 4) with ((1 / 2) * (1 / 2)) by lra.
  apply sqrt_square. lra.
Qed.

(** A root of [1 - 3 u^2] exceeds [u] as long as [u^2 < 1/4]. *)
Lemma root_above (s u : R) :
  0 <= s -> s * s = 1 - 3 * (u * u) -> u * u < 1 / 4 -> u < s.
Proof.
  intros Hs Hsq Hu. destruct (Rlt_le_dec u s) as [Hlt | Hle]; [exact Hlt |].
  exfalso. assert (s * s <= u * u) by nra. lra.
Qed.

(** The kernel on the inner piece, [0 <= x < y <= 1/2]. *)
Lemma inner_piece_decreasing (x y : R) :
  0 <= x < y -> y <= 1 / 2 ->
  (1 + sqrt (-3 * y * y + 1)) / 3 < (1 + sqrt (-3 * x * x + 1)) / 3.
Proof.
  intros Hxy Hy.
  assert (sqrt (-3 * y * y + 1) < sqrt (-3 * x * x + 1)) as Hlt.
  { apply sqrt_lt_1_alt. split; nra. }
  lra.
Qed.

(** The inner piece stays at or above 1/2. *)
Lemma inner_piece_lower (x : R) :
  0 <= x <= 1 / 2 -> 1 / 2 <= (1 + sqrt (-3 * x * x + 1)) / 3.
Proof.
  intros Hx.
  assert (1 / 2 <= sqrt (-3 * x * x + 1)) as Hge.
  { rewrite <- sqrt_quarter. apply sqrt_le_1_alt. nra. }
  lra.
Qed.

(** The outer piece stays below 1/2. *)
Lemma outer_piece_upper (y : R) :
  1 / 2 < y < 3 / 2 ->
  (5 - 3 * y - sqrt (-3 * (1 - y) * (1 - y) + 1)) / 6 < 1 / 2.
Proof.
  intros Hy.
  assert (0 <= -3 * (1 - y) * (1 - y) + 1) as Hnonneg by nra.
  pose proof (sqrt_pos (-3 * (1 - y) * (1 - y) + 1)) as Hs.
  pose proof (sqrt_sqrt _ Hnonneg) as Hsq.
  set (s := sqrt (-3 * (1 - y) * (1 - y) + 1)) in *.
  destruct (Rlt_le_dec (2 - 3 * y) s) as [Hlt | Hle]; [lra |].
  exfalso. assert (s * s <= (2 - 3 * y) * (2 - 3 * y)) by nra.
  assert (0 < y - 1 / 2) by lra.
  destruct (Rlt_le_dec y 1) as [Hy1 | Hy1]; [nra | lra].
Qed.

(** The kernel on the outer piece, [1/2 < x < y < 3/2]. *)
Lemma outer_piece_decreasing (x y : R) :
  1 / 2 < x -> x < y -> y < 3 / 2 ->
  (5 - 3 * y - sqrt (-3 * (1 - y) * (1 - y) + 1)) / 6
  < (5 - 3 * x - sqrt (-3 * (1 - x) * (1 - x) + 1)) / 6.
Proof.
  intros Hx Hxy Hy.
  assert (0 <= -3 * (1 - x) * (1 - x) + 1) as Hnx by nra.
  assert (0 <= -3 * (1 - y) * (1 - y) + 1) as Hny by nra.
  pose proof (sqrt_pos (-3 * (1 - x) * (1 - x) + 1)) as Hsx.
  pose proof (sqrt_pos (-3 * (1 - y) * (1 - y) + 1)) as Hsy.
  pose proof (sqrt_sqrt _ Hnx) as Hqx.
  pose proof (sqrt_sqrt _ Hny) as Hqy.
  set (sx := sqrt (-3 * (1 - x) * (1 - x) + 1)) in *.
  set (sy := sqrt (-3 * (1 - y) * (1 - y) + 1)) in *.
  assert (x - 1 < sx) as Hax by (apply root_above; nra).
  assert (y - 1 < sy) as Hay by (apply root_above; nra).
  destruct (Rlt_le_dec (sx - sy) (3 * (y - x))) as [Hlt | Hge]; [lra |].
  exfalso.
  assert ((sx - sy) * (sx + sy) = 3 * (y - x) * (x + y - 2)) as Hdiff by nra.
  assert (3 * (y - x) * (sx + sy) <= (sx - sy) * (sx + sy)) as Hprod.
  { apply Rmult_le_compat_r; lra. }
  assert (0 < 3 * (y - x)) as Hpos by lra.
  assert (sx + sy <= x + y - 2) as Hsum.
  { apply (Rmult_le_reg_l (3 * (y - x))); [exact Hpos | lra]. }
  lra.
Qed.

(** The kernel as a function of the scaled distance is strictly
    decreasing on [0, 3/2). *)
Lemma Roma_scaled_decreasing (h r1 r2 : R) :
  0 < h -> Rabs r1 < Rabs r2 -> Rabs r2 < 3 / 2 * h ->
  delta.Roma_et_al_1999 r2 h < delta.Roma_et_al_1999 r1 h.
Proof.
  intros Hh H12 H2. unfold delta.Roma_et_al_1999.
  pose proof (Rabs_pos r1) as H0.
  assert (0 < / h) as Hinv by (apply Rinv_0_lt_compat; exact Hh).
  assert (0 <= Rabs r1 / h) as Hx0.
  { unfold Rdiv. apply Rmult_le_pos; lra. }
  assert (Rabs r1 / h < Rabs r2 / h) as Hxy.
  { unfold Rdiv. apply Rmult_lt_compat_r; assumption. }
  assert (Rabs r2 / h < 3 / 2) as Hy.
  { apply (Rmult_lt_reg_r h); [exact Hh |].
    replace (Rabs r2 / h * h) with (Rabs r2) by (field; lra). lra. }
  set (x := Rabs r1 / h) in *. set (y := Rabs r2 / h) in *. cbv zeta.
  destruct (Rlt_dec (3 / 2) y) as [? | _]; [lra |].
  destruct (Rlt_dec (3 / 2) x) as [? | _]; [lra |].
  destruct (Rlt_dec (1 / 2) y) as [Hy2 | Hy2],
           (Rlt_dec (1 / 2) x) as [Hx2 | Hx2].
  - apply outer_piece_decreasing; assumption.
  - pose proof (outer_piece_upper y ltac:(lra)).
    pose proof (inner_piece_lower x ltac:(lra)). lra.
  - lra.
  - apply inner_piece_decreasing; lra.
Qed.
End DeltaKernel.

(** C8: for a positive mesh width [h] the kernel is 0 at every distance
    [r] with [|r| >= 1.5 h], is 2/3 at distance 0, and takes a strictly
    smaller value at the farther of two distances inside [0, 1.5 h). *)
Theorem Roma_et_al_1999_properties (h : R) :
  (0 < h)%R ->
  (forall r, (3 / 2 * h <= Rabs r)%R -> delta.Roma_et_al_1999 r h = 0%R) /\
  delta.Roma_et_al_1999 0 h = (2 / 3)%R /\
  (forall r1 r2,
      (Rabs r1 < Rabs r2)%R -> (Rabs r2 < 3 / 2 * h)%R ->
      (delta.Roma_et_al_1999 r2 h < delta.Roma_et_al_1999 r1 h)%R).
Proof.
  intros Hh. split; [| split].
  - intros r Hr. unfold delta.Roma_et_al_1999. cbv zeta.
    assert (3 / 2 <= Rabs r / h)%R as Hx.
    { apply (Rmult_le_reg_r h); [exact Hh |].
      replace (Rabs r / h * h)%R with (Rabs r) by (field; lra). exact Hr. }
    destruct (Rlt_dec (3 / 2) (Rabs r / h)) as [_ | Hnot]; [reflexivity |].
    assert (Rabs r / h = 3 / 2)%R as -> by lra.
    destruct (Rlt_dec (1 / 2) (3 / 2)) as [_ | Hbad]; [| lra].
    replace (-3 * (1 - 3 / 2) * (1 - 3 / 2) + 1)%R with (1 / 4)%R by lra.
    rewrite sqrt_quarter. lra.
  - unfold delta.Roma_et_al_1999. cbv zeta.
    rewrite Rabs_R0. replace (0 / h)%R with 0%R by (unfold Rdiv; ring).
    destruct (Rlt_dec (3 / 2) 0) as [? | _]; [lra |].
    destruct (Rlt_dec (1 / 2) 0) as [? | _]; [lra |].
    replace (-3 * 0 * 0 + 1)%R with 1%R by ring.
    rewrite sqrt_1. lra.
  - intros r1 r2 H12 H2. apply Roma_scaled_decreasing; assumption.
Qed.

(** ** The statements at the sample data *)

Lemma sample_world_collective : collective 2 3 2 sample_world.
Proof.
  split; [reflexivity |].
  intros r self Hself.
  destruct r as [|[|r]]; cbn in Hself; inversion Hself; subst self;
    (split; [constructor; cbn; first [reflexivity | lia] |]);
    cbn; repeat split.
Qed.

Lemma sample_world_run : mapM createDMDA sample_world = Ok sample_world_after.
Proof. vm_compute. reflexivity. Qed.

Lemma large_world_2_collective : collective 2 2000000000 2 large_world_2.
Proof.
  split; [reflexivity |].
  intros r self Hself.
  destruct r as [|[|r]]; cbn in Hself; inversion Hself; subst self;
    (split; [constructor; cbn; first [reflexivity | lia] |]);
    cbn; repeat split.
Qed.



(** C5, as stated, fails: for two processes and 2 000 000 000 markers in
    two dimensions, under PETSc's default division, marker
    1 500 000 000 is in range and belongs to rank 1; [i * dim] wraps
    to a negative value and [findProc] returns -1, which is no rank. *)
Lemma findProc_overflows :
  collective 2 2000000000 2 large_world_2 /\
  mapM createDMDA large_world_2 = Ok large_world_2_after /\
  exists b c,
    large_world_2_after !! 0%nat = Some b /\
    large_world_2_after !! 1%nat = Some c /\
    0 <= 1500000000 < nPts b /\
    bgPt c <= 1500000000 < edPt c /\
    findProc b 1500000000 = Ok (-1).
Proof.
  split; [exact large_world_2_collective |].
  split; [vm_compute; reflexivity |].
  eexists _, _. split; [reflexivity |]. split; [reflexivity |].
  cbn. repeat split; lia.
Qed.

Lemma sample_indexable (self : SingleBodyPoints) :
  bgPt self = 0 -> edPt self = 1 -> dim self = 2 ->
  (exists x y, coords self = [[x; y]]) -> meshIdx self = [[0; 0]] ->
  indexable self sample_mesh.
Proof.
  intros Hbg Hed Hdim (x & y & Hcoords) Hidx.
  constructor; rewrite ?Hbg, ?Hed, ?Hdim, ?Hcoords, ?Hidx.
  - lia.
  - intros i d Hi Hd. assert (i = 0) as -> by lia.
    assert (d = 0 \/ d = 1) as [-> | ->] by lia; eexists; reflexivity.
  - intros d Hd.
    assert (d = 0 \/ d = 1) as [-> | ->] by lia; eexists; reflexivity.
  - intros d Hd.
    assert (d = 0 \/ d = 1) as [-> | ->] by lia; eexists; reflexivity.
  - intros d Hd.
    assert (d = 0 \/ d = 1) as [-> | ->] by lia;
      exists [Num 0; Num 1; Num 2], 3; repeat split; cbn; lia.
  - intros c d Hc Hd. assert (c = 0) as -> by lia.
    assert (d = 0 \/ d = 1) as [-> | ->] by lia; eexists; reflexivity.
Qed.

Lemma sample_mesh_sorted (d : Z) (arr : list PetscReal) :
  vec_at2 (mesh_coord sample_mesh) 4 d = Ok arr -> sorted arr.
Proof.
  intros Harr.
  assert (arr = [Num 0; Num 1; Num 2]) as ->.
  { unfold vec_at2 in Harr. cbn in Harr. unfold vec_at in Harr.
    destruct (d <? 0); [discriminate Harr |].
    destruct (Z.to_nat d) as [|[|n]]; cbn in Harr;
      inversion Harr; reflexivity. }
  intros j j' y y' Hle Hy Hy'.
  destruct j as [|[|[|j]]], j' as [|[|[|j']]]; cbn in Hy, Hy';
    inversion Hy; inversion Hy'; subst; try lia; reflexivity.
Qed.

Lemma updateMeshIdx_last_not_above_witness :
  exists self' k,
    updateMeshIdx sample_body sample_mesh = (Ok tt, self') /\
    vec_at2 (meshIdx self') 0 1 = Ok k /\
    last_not_above [Num 0; Num 1; Num 2] 3 (Num (1 # 2)) k.
Proof.
  eexists.
  destruct (updateMeshIdx_last_not_above sample_body _ sample_mesh
              sample_mesh_sorted eq_refl 0 1 ltac:(cbn; lia) ltac:(cbn; lia))
    as (x & arr & n & k & Hx & Harr & Hn & Hk & Hloc & _).
  exists k. split; [reflexivity |]. split; [exact Hk |].
  inversion Hx; inversion Harr; inversion Hn; subst.
  apply Hloc. discriminate.
Defined.

Lemma updateMeshIdx_fails_iff_witness :
  indexable sample_body_on_bound sample_mesh /\
  is_Err (updateMeshIdx sample_body_on_bound sample_mesh).1 = true.
Proof.
  assert (indexable sample_body_on_bound sample_mesh) as Hix.
  { apply sample_indexable; try reflexivity. eexists _, _. reflexivity. }
  split; [exact Hix |].
  destruct (updateMeshIdx_fails_iff sample_body_on_bound sample_mesh Hix)
    as (Hiff & _).
  apply Hiff. exists 0, 0. split; [cbn; lia |]. split; [cbn; lia |].
  exists (Num 2), (Num 0), (Num 2).
  split; [reflexivity |]. split; [reflexivity |]. split; [reflexivity |].
  right. reflexivity.
Defined.


Lemma findProc_consistent_witness :
  exists b,
    sample_world_after !! 1%nat = Some b /\
    exists (p : nat) c,
      findProc b 2 = Ok (Z.of_nat p) /\
      sample_world_after !! p = Some c /\ bgPt c <= 2 < edPt c.
Proof.
  eexists. split; [reflexivity |].
  destruct (findProc_consistent 2 3 2 sample_world sample_world_after
              ltac:(lia) ltac:(unfold PETSC_MAX_INT; lia) ltac:(lia)
              ltac:(unfold PETSC_MAX_INT; lia) sample_world_collective
              sample_world_run 1%nat _ eq_refl) as (_ & Hfind & _).
  destruct (Hfind 2 ltac:(lia)) as (p & c & o & Hp & Hc & Hin & _).
  exists p, c. split; [exact Hp |]. split; [exact Hc | exact Hin].
Defined.

Lemma Roma_et_al_1999_properties_witness :
  (0 < 1)%R /\ delta.Roma_et_al_1999 0 1 = (2 / 3)%R.
Proof.
  split; [lra |]. apply (Roma_et_al_1999_properties 1). lra.
Defined.

Lemma writeBody_spec_witness :
  (writeBody sample_printf sample_body "out.txt").1.1 = Ok tt /\
  viewer_lines (writeBody sample_printf sample_body "out.txt").1.2
  = coordinate_line sample_printf 2 <$> [[Num 1; Num (1 # 2)]].
Proof.
  destruct (writeBody_spec sample_printf sample_body "out.txt" eq_refl)
    as (_ & _ & _ & Hok).
  { repeat constructor. }
  destruct (Hok (or_introl eq_refl)) as (Hres & Hlines & _).
  split; [exact Hres | exact Hlines].
Defined.

Lemma init_needs_a_marker_witness :
  exists self',
    init sample_reader (base_body 1 0 1 2)
         {| comm_size := 1; comm_rank := 0 |} 2 "body" "body.txt" = Ok self' /\
    coords self' = [[Num 1; Num (1 # 2)]].
Proof.
  destruct (init_needs_a_marker sample_reader (base_body 1 0 1 2)
              {| comm_size := 1; comm_rank := 0 |} 2 "body" "body.txt"
              1 [[Num 1; Num (1 # 2)]]) as (_ & Hsome).
  { constructor; cbn; first [reflexivity | lia]. }
  { reflexivity. }
  { reflexivity. }
  destruct (Hsome ltac:(lia)) as (row0 & Hrow0 & _ & Hok).
  inversion Hrow0; subst row0.
  destruct (Hok eq_refl) as (self' & Hrun & _ & Hcoords & _).
  exists self'. split; [exact Hrun | exact Hcoords].
Defined.

(** * Further properties of the embedded functions *)

(** ** getGlobalIndex as an encoding *)

(** X1: Where the [nPts * dim] indices of the body fit a [PetscInt], the
    flattened index decodes: its quotient by [dim] is the marker and its
    remainder the degree of freedom; it is a position of the global
    vector, and every position of the global vector is the index of the
    pair it decodes to.  The stencil overload decodes to the members [i]
    and [c] of the stencil. *)
Theorem getGlobalIndex_decode (self : SingleBodyPoints) :
  nPts self * dim self <= PETSC_MAX_INT ->
  (forall i dof idx,
      getGlobalIndex self i dof = Ok idx ->
      0 <= idx < nPts self * dim self /\
      idx / dim self = i /\ idx `mod` dim self = dof) /\
  (forall idx,
      0 < dim self -> 0 <= idx < nPts self * dim self ->
      getGlobalIndex self (idx / dim self) (idx `mod` dim self) = Ok idx) /\
  (forall s idx,
      getGlobalIndex_stencil self s = Ok idx ->
      idx / dim self = stencil_i s /\ idx `mod` dim self = stencil_c s).
Proof.
  intros Hfit.
  assert (forall i dof idx,
             getGlobalIndex self i dof = Ok idx ->
             0 <= idx < nPts self * dim self /\
             idx / dim self = i /\ idx `mod` dim self = dof) as Hdec.
  { intros i dof idx Hrun.
    pose proof (getGlobalIndex_range _ _ _ _ Hfit Hrun) as Hrange.
    apply getGlobalIndex_Ok in Hrun as (Hi & Hdof & ->); [| exact Hfit].
    split; [exact Hrange |].
    rewrite Z.add_comm, Z.div_add, Z.mod_add by lia.
    rewrite Z.div_small, Z.mod_small by lia. lia. }
  split; [exact Hdec |]. split.
  - intros idx Hdim Hidx.
    pose proof (Z.mod_pos_bound idx (dim self) Hdim) as Hmod.
    pose proof (Z.div_mod idx (dim self) ltac:(lia)) as Heq.
    assert (0 <= idx / dim self < nPts self) as Hdiv.
    { split; [apply Z.div_pos; lia |]. apply Z.div_lt_upper_bound; lia. }
    rewrite getGlobalIndex_valid by assumption. f_equal. lia.
  - intros s idx Hrun. unfold getGlobalIndex_stencil in Hrun.
    destruct (Hdec _ _ _ Hrun) as (_ & Hi & Hc). split; assumption.
Qed.

(** ** findProc and the tables of createDMDA *)

Section OwnerFacts.
Context `{DMDA_ownership}.
Variables (P N D : Z) (world world' : list SingleBodyPoints).
Hypothesis HP : 1 <= P.
Hypothesis HN : 0 <= N.
Hypothesis Hworld : collective P N D world.
Hypothesis Hrun : mapM createDMDA world = Ok world'.

(** Every process holds the same tables. *)
Lemma world_tables (r : nat) (b : SingleBodyPoints) :
  world' !! r = Some b ->
  nLclAllProcs b
  = (fun q => PetscInt_wrap (xm (rank_info P N D q) * D)) <$> seqZ 0 P /\
  offsetsAllProcs b
  = (fun q => offset_sum
                (fun j => PetscInt_wrap (xm (rank_info P N D (Z.of_nat j)) * D))
                0 (Z.to_nat q))
      <$> seqZ 0 P /\
  nPts b = N /\ dim b = D.
Proof using HP HN Hworld Hrun.
  intros Hb.
  destruct (createDMDA_world P N D world HP HN Hworld) as (w & Hrun' & _ & Hat).
  rewrite Hrun in Hrun'. inversion Hrun'; subst w.
  destruct (Hat _ _ Hb) as (_ & _ & _ & H4 & H5 & H6 & H7 & _).
  repeat split; assumption.
Qed.

(** X4: Every process computes the same owner and the same global index:
    the answers do not depend on the process that is asked. *)
Theorem findProc_same_on_every_process (r r' : nat) (b b' : SingleBodyPoints)
    (i dof : Z) :
  world' !! r = Some b -> world' !! r' = Some b' ->
  findProc b i = findProc b' i /\
  getGlobalIndex b i dof = getGlobalIndex b' i dof.
Proof using HP HN Hworld Hrun.
  intros Hb Hb'.
  destruct (world_tables r b Hb) as (_ & Hoffs & HNb & HDb).
  destruct (world_tables r' b' Hb') as (_ & Hoffs' & HNb' & HDb').
  unfold findProc, getGlobalIndex.
  rewrite HNb, HNb', HDb, HDb', Hoffs, Hoffs'. split; reflexivity.
Qed.

(** The markers and the degrees of freedom of the body fit a
    [PetscInt]. *)
Hypothesis HNmax : N <= PETSC_MAX_INT.
Hypothesis HD : 0 < D.
Hypothesis Hfit : N * D <= PETSC_MAX_INT.

Lemma world_after (r : nat) (b : SingleBodyPoints) :
  world' !! r = Some b ->
  bgPt b = xs (rank_info P N D (Z.of_nat r)) /\
  nLclPts b = xm (rank_info P N D (Z.of_nat r)) /\
  edPt b = bgPt b + nLclPts b /\
  nLclAllProcs b = (fun q => xm (rank_info P N D q) * D) <$> seqZ 0 P /\
  offsetsAllProcs b = (fun q => xs (rank_info P N D q) * D) <$> seqZ 0 P /\
  nPts b = N /\ dim b = D /\ mpiSize b = P /\ mpiRank b = Z.of_nat r.
Proof using HP HN HNmax HD Hfit Hworld Hrun.
  intros Hb.
  destruct (createDMDA_world_exact P N D world HP (conj HN HNmax)
              ltac:(lia) Hfit Hworld) as (w & Hrun' & _ & Hat).
  rewrite Hrun in Hrun'. inversion Hrun'; subst w.
  destruct (Hat _ _ Hb) as (H1 & H2 & H3 & H4 & H5 & H6 & H7 & H8 & H9 & _).
  repeat split; assumption.
Qed.

Lemma findProc_value (r : nat) (b : SingleBodyPoints) (i : Z) :
  world' !! r = Some b -> 0 <= i < N ->
  exists p : nat,
    findProc b i = Ok (Z.of_nat p) /\ (p < Z.to_nat P)%nat /\
    xs (rank_info P N D (Z.of_nat p)) <= i
    < xs (rank_info P N D (Z.of_nat p)) + xm (rank_info P N D (Z.of_nat p)).
Proof using HP HN HNmax HD Hfit Hworld Hrun.
  intros Hb Hi.
  destruct (world_after r b Hb) as (_ & _ & _ & _ & Hoffs & HNb & HDb & _).
  destruct (findProc_search P N D i HP HN HD Hi) as (p & Hub & Hp & Hin).
  exists p. split; [| split; assumption].
  unfold findProc. rewrite HNb, HDb, Hoffs.
  destruct (flat_index_exact N D i 0 Hfit Hi ltac:(lia)) as (-> & _).
  rewrite Hub.
  destruct (Z.ltb_spec i 0), (Z.geb_spec i N); cbn; try lia.
  f_equal. lia.
Qed.

(** X2: On a body whose markers and degrees of freedom fit a [PetscInt],
    [findProc] looks up the first degree of freedom of the marker; the
    rank it returns holds all of them: every global index of the marker
    lies between the offset of that rank and that offset plus the rank's
    entry of [nLclAllProcs]. *)
Theorem findProc_owns_every_dof (r : nat) (b : SingleBodyPoints)
    (i dof idx : Z) :
  world' !! r = Some b ->
  getGlobalIndex b i dof = Ok idx ->
  exists (p : nat) (o cnt : Z),
    findProc b i = Ok (Z.of_nat p) /\
    offsetsAllProcs b !! p = Some o /\
    nLclAllProcs b !! p = Some cnt /\
    o <= idx < o + cnt.
Proof using HP HN HNmax HD Hfit Hworld Hrun.
  intros Hb Hidx.
  destruct (world_after r b Hb) as (_ & _ & _ & HnLcl & Hoffs & HNb & HDb & _).
  apply getGlobalIndex_Ok in Hidx as (Hi & Hdof & ->);
    [| rewrite HNb, HDb; exact Hfit].
  rewrite HNb in Hi. rewrite HDb in Hdof |- *.
  destruct (findProc_value r b i Hb Hi) as (p & Hfind & Hp & Hin).
  exists p, (xs (rank_info P N D (Z.of_nat p)) * D),
    (xm (rank_info P N D (Z.of_nat p)) * D).
  split; [exact Hfind |]. split; [| split].
  - rewrite Hoffs. apply offsets_lookup. exact Hp.
  - rewrite HnLcl, list_lookup_fmap, lookup_seqZ_lt by lia. reflexivity.
  - nia.
Qed.

(** X3: On a body whose markers and degrees of freedom fit a [PetscInt],
    [findProc] is monotone: a marker with a larger index is never owned
    by a lower rank. *)
Theorem findProc_monotone (r : nat) (b : SingleBodyPoints) (i j p q : Z) :
  world' !! r = Some b ->
  i <= j -> findProc b i = Ok p -> findProc b j = Ok q -> p <= q.
Proof using HP HN HNmax HD Hfit Hworld Hrun.
  intros Hb Hij Hp Hq.
  destruct (world_after r b Hb) as (_ & _ & _ & _ & _ & HNb & _).
  assert (0 <= i < N /\ 0 <= j < N) as [Hi Hj].
  { unfold findProc in Hp, Hq. rewrite HNb in Hp, Hq.
    destruct (Z.ltb_spec i 0), (Z.geb_spec i N); try discriminate Hp.
    destruct (Z.ltb_spec j 0), (Z.geb_spec j N); try discriminate Hq. lia. }
  destruct (findProc_value r b i Hb Hi) as (p' & Hp' & _ & Hin).
  destruct (findProc_value r b j Hb Hj) as (q' & Hq' & _ & Hjn).
  rewrite Hp in Hp'. rewrite Hq in Hq'.
  inversion Hp'; inversion Hq'; subst p q.
  destruct (Z.le_gt_cases (Z.of_nat p') (Z.of_nat q')) as [Hle | Hgt];
    [exact Hle |].
  exfalso.
  pose proof (rank_info_xs_mono P N D HP HN (Z.of_nat q' + 1) (Z.of_nat p')
                ltac:(lia)) as Hmono.
  rewrite rank_info_xs_succ in Hmono by lia. lia.
Qed.
End OwnerFacts.

(** ** More on createDMDA *)

Section CreateDMDAFacts.
Context `{DMDA_ownership}.

Lemma createDMDA_frame (self self' : SingleBodyPoints) :
  createDMDA self = Ok self' ->
  name self' = name self /\ filePath self' = filePath self /\
  coords0 self' = coords0 self /\ meshIdx self' = meshIdx self /\
  info self' = info self.
Proof.
  unfold createDMDA. intros Hrun.
  destruct (_ <? _)%nat; [discriminate Hrun |].
  apply bind_Ok in Hrun as (o1 & _ & Hrun).
  apply bind_Ok in Hrun as (o2 & _ & Hrun).
  inversion Hrun; subst. repeat split.
Qed.


(** X6: Calling [createDMDA] again on the object it returned changes
    nothing. *)
Theorem createDMDA_idempotent (self self' : SingleBodyPoints) :
  base_constructed self -> 0 <= nPts self ->
  createDMDA self = Ok self' ->
  createDMDA self' = Ok self'.
Proof.
  intros Hbase HN Hrun.
  destruct (createDMDA_spec self Hbase HN) as (b & Hb & Hspec).
  rewrite Hrun in Hb. inversion Hb; subst b. clear Hb.
  cbv zeta in Hspec.
  destruct Hspec as (Hbg & Hn & Hed & HnLcl & Hoffs & HNs & HDs & HPs & Hrs
                     & Hcs & Hcomm & Hda).
  assert (base_constructed self') as Hbase'.
  { destruct Hbase as [H1 H2 H3 H4 H5 H6].
    constructor; rewrite ?HPs, ?Hrs, ?Hcomm, ?HnLcl, ?Hoffs;
      try assumption.
    - rewrite length_fmap. apply length_seqZ.
    - rewrite length_fmap. apply length_seqZ.
    - rewrite list_lookup_fmap, lookup_seqZ_lt by lia. reflexivity. }
  destruct (createDMDA_spec self' Hbase') as (b & Hb & Hspec'); [lia |].
  cbv zeta in Hspec'. rewrite HPs, HNs, HDs, Hrs, Hcomm in Hspec'.
  destruct Hspec' as (Hbg' & Hn' & Hed' & HnLcl' & Hoffs' & HNs' & HDs' & HPs'
                      & Hrs' & Hcs' & Hcomm' & Hda').
  destruct (createDMDA_frame _ _ Hb) as (Hnm & Hfp & Hc0 & Hmi & Hinf).
  rewrite Hb. f_equal.
  rewrite Hbg', Hn' in Hed'. rewrite Hbg, Hn in Hed.
  destruct b, self'; cbn in *. subst. reflexivity.
Qed.
End CreateDMDAFacts.

(** ** More on createSingleBoundary *)

Section BoundaryClasses.
Context {MeshT BCLocT FieldT : Type} `{BCTypeEnum}.

(** X8: The class of the object stored tells the tag: two recognised tags
    for which the factory builds objects of the same class are the same
    tag. *)
Theorem createSingleBoundary_class_determines_tag
    (mesh mesh' : MeshT) (loc loc' : BCLocT) (field field' : FieldT)
    (value value' : PetscReal) (t t' : Z)
    (bd bd' : SingleBoundary MeshT BCLocT FieldT) :
  In t [NOBC; PERIODIC; DIRICHLET; NEUMANN; CONVECTIVE] ->
  In t' [NOBC; PERIODIC; DIRICHLET; NEUMANN; CONVECTIVE] ->
  bd_class <$> (createSingleBoundary mesh loc field value t bd).2
  = bd_class <$> (createSingleBoundary mesh' loc' field' value' t' bd').2 ->
  t = t'.
Proof.
  pose proof BCType_neq as (N1 & N2 & N3 & N4 & N5 & N6 & N7 & N8 & N9 & N10).
  unfold createSingleBoundary. cbn [fst snd In].
  intros Ht Ht'.
  destruct Ht as [<- | [<- | [<- | [<- | [<- | []]]]]];
    destruct Ht' as [<- | [<- | [<- | [<- | [<- | []]]]]];
    repeat match goal with
           | |- context [?x =? ?y] =>
               destruct (Z.eqb_spec x y); try congruence
           end;
    cbn; intros Heq; first [reflexivity | discriminate Heq].
Qed.
End BoundaryClasses.

(** ** More on updateMeshIdx *)

(** X9: When the first and last cell boundaries enclose the domain, the
    index stored for a local marker whose coordinate is a number is that
    of a cell of the mesh and the cell contains the coordinate: the
    boundary at the index is at most the coordinate and the next boundary
    exceeds it. *)
Theorem updateMeshIdx_enclosing_cell (self self' : SingleBodyPoints)
    (mesh : Mesh) :
  (forall d arr, vec_at2 (mesh_coord mesh) 4 d = Ok arr -> sorted arr) ->
  (forall d, 0 <= d < dim self -> boundaries_enclose_domain mesh d) ->
  updateMeshIdx self mesh = (Ok tt, self') ->
  forall i d x,
    bgPt self <= i < edPt self -> 0 <= d < dim self ->
    vec_at2 (coords self) i d = Ok x -> x <> NaN ->
    exists (k n : Z) (below above : PetscReal) (arr : list PetscReal),
      vec_at2 (meshIdx self') (i - bgPt self) d = Ok k /\
      vec_at2 (mesh_coord mesh) 4 d = Ok arr /\
      vec_at2 (mesh_n mesh) 4 d = Ok n /\
      0 <= k <= n - 2 /\
      arr !! Z.to_nat k = Some below /\
      arr !! Z.to_nat (k + 1) = Some above /\
      real_le below x /\ real_lt x above.
Proof.
  intros Hsorted Hencl Hrun i d x Hi Hd Hx Hnum.
  destruct (updateMeshIdx_Ok_entries _ _ _ Hrun i d Hi Hd) as (Hpass & Hloc).
  destruct Hloc as (x' & arr & n & Hx' & Harr & Hn & Hrange & Hslot).
  rewrite Hx in Hx'. inversion Hx'; subst x'. clear Hx'.
  destruct (Hencl d Hd)
    as (arr' & n' & lo & hi & first & last & Harr' & Hn' & Hn1 & Hlo & Hhi
        & Hfirst & Hlast & Hfl & Hhl).
  rewrite Harr in Harr'. rewrite Hn in Hn'.
  inversion Harr'; inversion Hn'. subst arr' n'.
  assert (inside_domain self mesh i d) as Hin.
  { apply (passes_inside self mesh i d x Hx Hnum); [| | exact Hpass].
    - intros lo' Hlo'. rewrite Hlo in Hlo'. inversion Hlo'; subst lo'.
      exact (proj2 (real_leb_numbers _ _ Hfl)).
    - intros hi' Hhi'. rewrite Hhi in Hhi'. inversion Hhi'; subst hi'.
      exact (proj1 (real_leb_numbers _ _ Hhl)). }
  destruct Hin as (x' & lo' & hi' & Hx' & Hlo' & Hhi' & Hlox & Hxhi).
  rewrite Hx in Hx'. rewrite Hlo in Hlo'. rewrite Hhi in Hhi'.
  inversion Hx'; inversion Hlo'; inversion Hhi'. subst x' lo' hi'.
  pose proof (upper_bound_last_not_above arr n x (Hsorted _ _ Harr) Hnum Hrange)
    as Hlna.
  set (k := Z.of_nat (upper_bound real_ltb (take (Z.to_nat n) arr) x) - 1) in *.
  pose proof (last_not_above_interior arr n x lo hi first last k Hlna Hn1
                Hfirst Hlast Hfl Hlox Hxhi Hhl) as Hk.
  destruct Hlna as (_ & Hbelow & Habove).
  destruct (lookup_lt_is_Some_2 arr (Z.to_nat k)) as [below Hb]; [lia |].
  destruct (lookup_lt_is_Some_2 arr (Z.to_nat (k + 1))) as [above Ha]; [lia |].
  exists k, n, below, above, arr.
  repeat split; try assumption; try lia.
  - apply (Hbelow k below); [lia | exact Hb].
  - apply (Habove (k + 1) above); [lia | exact Ha].
Qed.

(** X10: The stored index is monotone in the coordinate: of two local
    markers, the one with the larger coordinate in a direction never gets
    the smaller index in that direction. *)
Theorem updateMeshIdx_monotone (self self' : SingleBodyPoints) (mesh : Mesh)
    (i i' d k k' : Z) (x x' : PetscReal) :
  (forall d arr, vec_at2 (mesh_coord mesh) 4 d = Ok arr -> sorted arr) ->
  updateMeshIdx self mesh = (Ok tt, self') ->
  bgPt self <= i < edPt self -> bgPt self <= i' < edPt self ->
  0 <= d < dim self ->
  vec_at2 (coords self) i d = Ok x -> vec_at2 (coords self) i' d = Ok x' ->
  real_le x x' ->
  vec_at2 (meshIdx self') (i - bgPt self) d = Ok k ->
  vec_at2 (meshIdx self') (i' - bgPt self) d = Ok k' ->
  k <= k'.
Proof.
  intros Hsorted Hrun Hi Hi' Hd Hx Hx' Hle Hk Hk'.
  destruct (real_leb_numbers _ _ Hle) as (Hnum & Hnum').
  destruct (updateMeshIdx_Ok_entries _ _ _ Hrun i d Hi Hd)
    as (_ & y & arr & n & Hy & Harr & Hn & Hrange & Hslot).
  destruct (updateMeshIdx_Ok_entries _ _ _ Hrun i' d Hi' Hd)
    as (_ & y' & arr' & n' & Hy' & Harr' & Hn' & _ & Hslot').
  rewrite Hx in Hy. rewrite Hx' in Hy'. rewrite Harr in Harr'.
  rewrite Hn in Hn'. rewrite Hk in Hslot. rewrite Hk' in Hslot'.
  inversion Hy; inversion Hy'; inversion Harr'; inversion Hn'.
  subst y y' arr' n'.
  pose proof (upper_bound_last_not_above arr n x (Hsorted _ _ Harr) Hnum Hrange)
    as (Hr & Hbelow & _).
  pose proof (upper_bound_last_not_above arr n x' (Hsorted _ _ Harr) Hnum'
                Hrange)
    as (Hr' & _ & Habove').
  inversion Hslot as [Hkeq]. inversion Hslot' as [Hkeq'].
  rewrite <- Hkeq in Hr, Hbelow. rewrite <- Hkeq' in Hr', Habove'.
  destruct (Z.le_gt_cases k k') as [Hok | Hgt]; [lia |].
  exfalso.
  destruct (lookup_lt_is_Some_2 arr (Z.to_nat k)) as [v Hv]; [lia |].
  pose proof (Hbelow k v ltac:(lia) Hv) as H1.
  pose proof (Habove' k v ltac:(lia) Hv) as H2.
  pose proof (real_le_trans _ _ _ H1 Hle) as H3.
  rewrite (real_ltb_leb_false _ _ H2) in H3. discriminate H3.
Qed.

Lemma vec_set2_same {A} (v : list (list A)) (i j : Z) (a : A) :
  vec_at2 v i j = Ok a -> vec_set2 v i j a = Ok v.
Proof.
  intros Hat. apply vec_at2_Ok in Hat as (row & Hrow & Ha).
  unfold vec_set2. rewrite Hrow; cbn [mbind PetscResult_bind].
  apply vec_at_Ok in Hrow as (Hi & Hrow). apply vec_at_Ok in Ha as (Hj & Ha).
  pose proof (lookup_lt_Some _ _ _ Hrow). pose proof (lookup_lt_Some _ _ _ Ha).
  rewrite (proj2 (vec_set_Ok row _ j a)) by (split; [lia | split; [lia | done]]).
  cbn [mbind PetscResult_bind].
  rewrite (list_insert_id _ _ _ Ha).
  apply vec_set_Ok. split; [lia | split; [lia |]].
  symmetry. apply list_insert_id. exact Hrow.
Qed.

Lemma updateMeshIdx_body_eval (self : SingleBodyPoints) (mesh : Mesh)
    (i c d : Z) (mIdx : list (list Z)) (x : PetscReal) (arr : list PetscReal)
    (n : Z) :
  passes_check self mesh i d ->
  vec_at2 (coords self) i d = Ok x ->
  vec_at2 (mesh_coord mesh) 4 d = Ok arr ->
  vec_at2 (mesh_n mesh) 4 d = Ok n ->
  0 <= n <= Z.of_nat (length arr) ->
  updateMeshIdx_body self mesh i c d mIdx
  = vec_set2 mIdx c d
      (Z.of_nat (upper_bound real_ltb (take (Z.to_nat n) arr) x) - 1).
Proof.
  intros (x' & lo & hi & Hx' & Hlo & Hhi & Hlox & Hxhi) Hx Harr Hn Hrange.
  rewrite Hx in Hx'. inversion Hx'; subst x'. clear Hx'.
  apply vec_at2_Ok in Hx as (row & Hrow & Hx).
  apply vec_at2_Ok in Harr as (c4 & Hc4 & Harr).
  apply vec_at2_Ok in Hn as (n4 & Hn4 & Hn).
  unfold updateMeshIdx_body.
  rewrite Hlo; cbn [mbind PetscResult_bind].
  rewrite Hrow; cbn [mbind PetscResult_bind].
  rewrite Hx; cbn [mbind PetscResult_bind].
  rewrite Hlox.
  rewrite Hhi; cbn [mbind PetscResult_bind].
  rewrite Hxhi.
  rewrite Hc4; cbn [mbind PetscResult_bind].
  rewrite Harr; cbn [mbind PetscResult_bind].
  rewrite Hn4; cbn [mbind PetscResult_bind].
  rewrite Hn; cbn [mbind PetscResult_bind].
  destruct (Z.ltb_spec n 0); [lia |].
  destruct (Z.ltb_spec (Z.of_nat (length arr)) n); [lia |]. reflexivity.
Qed.

Section UpdateLoopsMore.
Variables (self : SingleBodyPoints) (mesh : Mesh).

(** Once every slot of a row holds its index, the inner loop rewrites
    the same values. *)
Lemma updateMeshIdx_dims_fixed (i c : Z) (count : nat) :
  forall (d0 : Z) (mIdx : list (list Z)),
    (forall d, d0 <= d < d0 + Z.of_nat count ->
        passes_check self mesh i d /\ entry_located self mesh mIdx i c d) ->
    updateMeshIdx_dims count d0 self mesh i c mIdx = (Ok tt, mIdx).
Proof.
  induction count as [|count IH]; intros d0 mIdx Hall; [reflexivity |].
  cbn [updateMeshIdx_dims].
  destruct (Hall d0 ltac:(lia))
    as (Hin & x & arr & n & Hx & Harr & Hn & Hrange & Hslot).
  rewrite (updateMeshIdx_body_eval self mesh i c d0 mIdx x arr n)
    by assumption.
  rewrite (vec_set2_same _ _ _ _ Hslot).
  apply IH. intros d Hd. apply Hall. lia.
Qed.

Lemma updateMeshIdx_points_fixed (count : nat) :
  forall (i0 c0 : Z) (mIdx : list (list Z)),
    (forall t d, 0 <= t < Z.of_nat count -> 0 <= d < dim self ->
        passes_check self mesh (i0 + t) d /\
        entry_located self mesh mIdx (i0 + t) (c0 + t) d) ->
    updateMeshIdx_points count i0 c0 self mesh mIdx = (Ok tt, mIdx).
Proof.
  induction count as [|count IH]; intros i0 c0 mIdx Hall; [reflexivity |].
  cbn [updateMeshIdx_points].
  rewrite updateMeshIdx_dims_fixed.
  - apply IH. intros t d Ht Hd.
    replace (i0 + 1 + t) with (i0 + (t + 1)) by lia.
    replace (c0 + 1 + t) with (c0 + (t + 1)) by lia.
    apply Hall; lia.
  - intros d Hd. specialize (Hall 0 d ltac:(lia) ltac:(lia)).
    rewrite !Z.add_0_r in Hall. exact Hall.
Qed.

(** Whatever its outcome, the inner loop writes only the slots of its
    own row and range of directions. *)
Lemma updateMeshIdx_dims_footprint (i c : Z) (count : nat) :
  forall (d0 : Z) (mIdx : list (list Z)) (c' d' : Z),
    c' <> c \/ d' < d0 \/ d0 + Z.of_nat count <= d' ->
    vec_at2 (updateMeshIdx_dims count d0 self mesh i c mIdx).2 c' d'
    = vec_at2 mIdx c' d'.
Proof.
  induction count as [|count IH]; intros d0 mIdx c' d' Hout; [reflexivity |].
  cbn [updateMeshIdx_dims].
  destruct (updateMeshIdx_body self mesh i c d0 mIdx) as [m1| |] eqn:Hbody;
    [| reflexivity | reflexivity].
  apply updateMeshIdx_body_Ok in Hbody as (_ & x & arr & n & _ & _ & _ & _ & Hset).
  apply vec_set2_Ok in Hset as (_ & Hframe).
  rewrite IH by lia. apply Hframe. lia.
Qed.

Lemma updateMeshIdx_points_footprint (count : nat) :
  forall (i0 c0 : Z) (mIdx : list (list Z)) (c' d' : Z),
    c' < c0 \/ c0 + Z.of_nat count <= c' \/ d' < 0 \/ dim self <= d' ->
    vec_at2 (updateMeshIdx_points count i0 c0 self mesh mIdx).2 c' d'
    = vec_at2 mIdx c' d'.
Proof.
  induction count as [|count IH]; intros i0 c0 mIdx c' d' Hout; [reflexivity |].
  cbn [updateMeshIdx_points].
  pose proof (updateMeshIdx_dims_footprint i0 c0 (Z.to_nat (dim self)) 0 mIdx
                c' d' ltac:(lia)) as Hrow.
  destruct (updateMeshIdx_dims (Z.to_nat (dim self)) 0 self mesh i0 c0 mIdx)
    as [[[]| |] m1]; cbn [snd] in Hrow |- *; try exact Hrow.
  rewrite IH by lia. exact Hrow.
Qed.

Lemma updateMeshIdx_dims_Err_first (i c : Z) (count : nat) :
  forall (d0 : Z) (mIdx mIdx' : list (list Z)) code msg,
    updateMeshIdx_dims count d0 self mesh i c mIdx = (Err code msg, mIdx') ->
    exists d,
      d0 <= d < d0 + Z.of_nat count /\ outside_domain self mesh i d /\
      (forall d', d0 <= d' < d ->
          passes_check self mesh i d' /\ entry_located self mesh mIdx' i c d') /\
      (forall d', d <= d' -> vec_at2 mIdx' c d' = vec_at2 mIdx c d').
Proof.
  induction count as [|count IH]; intros d0 mIdx mIdx' code msg Hrun.
  - cbn in Hrun. discriminate Hrun.
  - cbn [updateMeshIdx_dims] in Hrun.
    destruct (updateMeshIdx_body self mesh i c d0 mIdx) as [m1| |] eqn:Hbody;
      try discriminate Hrun.
    + apply updateMeshIdx_body_Ok in Hbody
        as (Hin & x & arr & n & Hx & Harr & Hn & Hrange & Hset).
      apply vec_set2_Ok in Hset as (Hnew & Hframe).
      pose proof (updateMeshIdx_dims_footprint i c count (d0 + 1) m1 c d0
                    ltac:(lia)) as Hkeep0.
      rewrite Hrun in Hkeep0. cbn [snd] in Hkeep0.
      destruct (IH _ _ _ _ _ Hrun) as (d & Hd & Hout & Hbefore & Hafter).
      exists d. split; [lia |]. split; [exact Hout |]. split.
      * intros d' Hd'. destruct (decide (d' = d0)) as [-> | Hne].
        -- split; [exact Hin |]. exists x, arr, n.
           repeat split; try assumption; try lia.
           rewrite Hkeep0. exact Hnew.
        -- apply Hbefore. lia.
      * intros d' Hd'. rewrite Hafter by lia. apply Hframe. lia.
    + inversion Hrun; subst.
      apply updateMeshIdx_body_Err in Hbody as (_ & Hout).
      exists d0. split; [lia |]. split; [exact Hout |].
      split; [intros d' Hd'; lia | reflexivity].
Qed.

Lemma updateMeshIdx_points_Err_first (count : nat) :
  forall (i0 c0 : Z) (mIdx mIdx' : list (list Z)) code msg,
    updateMeshIdx_points count i0 c0 self mesh mIdx = (Err code msg, mIdx') ->
    exists t d,
      0 <= t < Z.of_nat count /\ 0 <= d < dim self /\
      outside_domain self mesh (i0 + t) d /\
      (forall t' d', 0 <= t' < t \/ (t' = t /\ d' < d) -> 0 <= t' ->
          0 <= d' < dim self ->
          passes_check self mesh (i0 + t') d' /\
          entry_located self mesh mIdx' (i0 + t') (c0 + t') d') /\
      (forall c' d', c0 + t < c' \/ (c' = c0 + t /\ d <= d') ->
          vec_at2 mIdx' c' d' = vec_at2 mIdx c' d').
Proof.
  induction count as [|count IH]; intros i0 c0 mIdx mIdx' code msg Hrun.
  - cbn in Hrun. discriminate Hrun.
  - cbn [updateMeshIdx_points] in Hrun.
    destruct (updateMeshIdx_dims (Z.to_nat (dim self)) 0 self mesh i0 c0 mIdx)
      as [[[]| |] m1] eqn:Hdims; try discriminate Hrun.
    + apply updateMeshIdx_dims_Ok in Hdims as (Hrow & Hframe).
      destruct (IH _ _ _ _ _ _ Hrun) as (t & d & Ht & Hd & Hout & Hbefore & Hafter).
      exists (t + 1), d. split; [lia |]. split; [exact Hd |].
      replace (i0 + (t + 1)) with (i0 + 1 + t) by lia.
      split; [exact Hout |]. split.
      * intros t' d' Hord Ht' Hd'. destruct (decide (t' = 0)) as [-> | Hne].
        -- rewrite !Z.add_0_r. destruct (Hrow d' ltac:(lia)) as (Hin & Hloc).
           split; [exact Hin |].
           destruct Hloc as (x & arr & n & Hx & Harr & Hn & Hrange & Hslot).
           exists x, arr, n. repeat split; try assumption; try lia.
           pose proof (updateMeshIdx_points_footprint count (i0 + 1) (c0 + 1)
                         m1 c0 d' ltac:(lia)) as Hkeep.
           rewrite Hrun in Hkeep. cbn [snd] in Hkeep.
           rewrite Hkeep. exact Hslot.
        -- replace (i0 + t') with (i0 + 1 + (t' - 1)) by lia.
           replace (c0 + t') with (c0 + 1 + (t' - 1)) by lia.
           apply Hbefore; lia.
      * intros c' d' Hc'. rewrite Hafter by lia. apply Hframe. lia.
    + inversion Hrun; subst.
      pose proof (updateMeshIdx_dims_footprint i0 c0 (Z.to_nat (dim self)) 0
                    mIdx) as Hfoot.
      rewrite Hdims in Hfoot. cbn [snd] in Hfoot.
      apply updateMeshIdx_dims_Err_first in Hdims
        as (d & Hd & Hout & Hbefore & Hafter).
      exists 0, d. rewrite !Z.add_0_r.
      split; [lia |]. split; [lia |]. split; [exact Hout |]. split.
      * intros t' d' Hord Ht' Hd'. assert (t' = 0) as -> by lia.
        rewrite !Z.add_0_r. apply Hbefore. lia.
      * intros c' d' [Hc' | [-> Hd']]; [apply Hfoot; lia | apply Hafter; lia].
Qed.
End UpdateLoopsMore.

(** X11: On an unchanged body and mesh a second [updateMeshIdx] succeeds and
    leaves the object as the first left it. *)
Theorem updateMeshIdx_idempotent (self self' : SingleBodyPoints) (mesh : Mesh) :
  updateMeshIdx self mesh = (Ok tt, self') ->
  updateMeshIdx self' mesh = (Ok tt, self').
Proof.
  intros Hrun.
  pose proof (updateMeshIdx_Ok_entries _ _ _ Hrun) as Hall.
  rewrite updateMeshIdx_unfold in Hrun. injection Hrun as Hres Hself'.
  set (m := (updateMeshIdx_points (Z.to_nat (edPt self - bgPt self))
               (bgPt self) 0 self mesh (meshIdx self)).2) in *.
  clear Hres. subst self'.
  rewrite updateMeshIdx_unfold. cbn [bgPt edPt meshIdx set_meshIdx].
  rewrite (updateMeshIdx_points_fixed (set_meshIdx self m) mesh).
  - reflexivity.
  - intros t d Ht Hd. cbn [dim set_meshIdx] in Hd.
    destruct (Hall (bgPt self + t) d ltac:(lia) Hd) as (Hin & Hloc).
    replace (bgPt self + t - bgPt self) with (0 + t) in Hloc by lia.
    cbn [meshIdx set_meshIdx] in Hloc.
    split; [exact Hin | exact Hloc].
Qed.

(** X12: [updateMeshIdx] does not roll back: when it fails, it has stopped at
    the first coordinate, in marker-major order, of which its test
    holds; of every coordinate before it the test does not hold and its
    slot holds the index found for it, and every slot from the offending
    one on holds what it held before the call. *)
Theorem updateMeshIdx_stops_at_first_offender (self self' : SingleBodyPoints)
    (mesh : Mesh) (code : PetscErrorCode) (msg : string) :
  updateMeshIdx self mesh = (Err code msg, self') ->
  exists i d,
    bgPt self <= i < edPt self /\ 0 <= d < dim self /\
    outside_domain self mesh i d /\
    (forall i' d',
        bgPt self <= i' -> 0 <= d' < dim self ->
        i' < i \/ (i' = i /\ d' < d) ->
        passes_check self mesh i' d' /\
        entry_located self mesh (meshIdx self') i' (i' - bgPt self) d') /\
    (forall c' d',
        i - bgPt self < c' \/ (c' = i - bgPt self /\ d <= d') ->
        vec_at2 (meshIdx self') c' d' = vec_at2 (meshIdx self) c' d').
Proof.
  intros Hrun.
  rewrite updateMeshIdx_unfold in Hrun. inversion Hrun as [[Hres Hself']].
  destruct (updateMeshIdx_points _ _ _ _ _ _) as [r m] eqn:Hloop.
  cbn [fst snd meshIdx set_meshIdx] in *. subst r.
  apply updateMeshIdx_points_Err_first in Hloop
    as (t & d & Ht & Hd & Hout & Hbefore & Hafter).
  exists (bgPt self + t), d.
  split; [lia |]. split; [exact Hd |]. split; [exact Hout |]. split.
  - intros i' d' Hi' Hd' Hord.
    specialize (Hbefore (i' - bgPt self) d' ltac:(lia) ltac:(lia) Hd').
    replace (bgPt self + (i' - bgPt self)) with i' in Hbefore by lia.
    rewrite Z.add_0_l in Hbefore. exact Hbefore.
  - intros c' d' Hc'. apply Hafter. lia.
Qed.

(** X13: When the vector elements it indexes are there,
    [updateMeshIdx] changes no slot of [meshIdx] outside the rows of the
    local markers and the columns of the [dim] directions, whether it
    succeeds or fails. *)
Theorem updateMeshIdx_footprint (self : SingleBodyPoints) (mesh : Mesh) :
  (updateMeshIdx self mesh).1 <> Undefined ->
  forall c' d',
    ~ (0 <= c' < edPt self - bgPt self /\ 0 <= d' < dim self) ->
    vec_at2 (meshIdx (updateMeshIdx self mesh).2) c' d'
    = vec_at2 (meshIdx self) c' d'.
Proof.
  intros _. rewrite updateMeshIdx_unfold. cbn [fst snd meshIdx set_meshIdx].
  intros c' d' Hout. apply updateMeshIdx_points_footprint. lia.
Qed.

Lemma updateMeshIdx_footprint_witness :
  (updateMeshIdx sample_two_markers sample_mesh).1 <> Undefined /\
  vec_at2 (meshIdx (updateMeshIdx sample_two_markers sample_mesh).2) 1 2
  = vec_at2 (meshIdx sample_two_markers) 1 2.
Proof.
  assert ((updateMeshIdx sample_two_markers sample_mesh).1 <> Undefined)
    as Hdef by (vm_compute; discriminate).
  split; [exact Hdef |].
  apply (updateMeshIdx_footprint sample_two_markers sample_mesh Hdef).
  cbn. lia.
Defined.

Lemma updateMeshIdx_stops_at_first_offender_witness :
  exists i d,
    outside_domain sample_two_markers sample_mesh i d /\
    vec_at2 (meshIdx (updateMeshIdx sample_two_markers sample_mesh).2) i d
    = Ok 7.
Proof.
  destruct (updateMeshIdx sample_two_markers sample_mesh)
    as [[u|code msg|] self'] eqn:Hrun;
    [vm_compute in Hrun; discriminate Hrun | | vm_compute in Hrun;
                                               discriminate Hrun].
  destruct (updateMeshIdx_stops_at_first_offender sample_two_markers self'
              sample_mesh code msg Hrun)
    as (i & d & Hi & Hd & Hout & _ & Hafter).
  exists i, d. split; [exact Hout |].
  cbn [bgPt sample_two_markers snd] in Hafter |- *.
  rewrite Hafter by lia.
  assert (i = 0 \/ i = 1) as [-> | ->] by (cbn in Hi; lia);
    (assert (d = 0 \/ d = 1) as [-> | ->] by (cbn in Hd; lia)); reflexivity.
Defined.

Lemma updateMeshIdx_idempotent_witness :
  exists self',
    updateMeshIdx sample_body sample_mesh = (Ok tt, self') /\
    updateMeshIdx self' sample_mesh = (Ok tt, self').
Proof.
  eexists. split; [reflexivity |].
  apply (updateMeshIdx_idempotent sample_body _ sample_mesh). reflexivity.
Defined.

Lemma updateMeshIdx_enclosing_cell_witness :
  exists (k : Z) (below above : PetscReal),
    vec_at2 (meshIdx (updateMeshIdx sample_body sample_mesh).2) 0 1 = Ok k /\
    [Num 0; Num 1; Num 2] !! Z.to_nat k = Some below /\
    [Num 0; Num 1; Num 2] !! Z.to_nat (k + 1) = Some above /\
    real_le below (Num (1 # 2)) /\ real_lt (Num (1 # 2)) above.
Proof.
  destruct (updateMeshIdx_enclosing_cell sample_body
              (updateMeshIdx sample_body sample_mesh).2 sample_mesh
              sample_mesh_sorted) with (i := 0) (d := 1) (x := Num (1 # 2))
    as (k & n & below & above & arr & Hk & Harr & Hn & Hr & Hb & Ha
        & Hle & Hlt).
  - intros d Hd. cbn in Hd.
    assert (d = 0 \/ d = 1) as [-> | ->] by lia;
      exists [Num 0; Num 1; Num 2], 3, (Num 0), (Num 2), (Num 0), (Num 2);
      repeat split; first [lia | reflexivity].
  - reflexivity.
  - cbn. lia.
  - cbn. lia.
  - reflexivity.
  - discriminate.
  - inversion Harr; subst arr.
    exists k, below, above. repeat split; assumption.
Defined.

Lemma updateMeshIdx_monotone_witness :
  exists k k',
    vec_at2 (meshIdx (updateMeshIdx sample_pair sample_mesh).2) 0 0 = Ok k /\
    vec_at2 (meshIdx (updateMeshIdx sample_pair sample_mesh).2) 1 0 = Ok k' /\
    k <= k'.
Proof.
  eexists _, _. split; [reflexivity |]. split; [reflexivity |].
  apply (updateMeshIdx_monotone sample_pair
           (updateMeshIdx sample_pair sample_mesh).2 sample_mesh 0 1 0 _ _
           (Num (1 # 2)) (Num (3 # 2)) sample_mesh_sorted eq_refl);
    first [reflexivity | cbn; lia].
Defined.

(** ** More on init *)

Section InitFacts.
Context `{DMDA_ownership}.

Lemma init_Ok_fields
    (readLagrangianPoints : string -> PetscResult (Z * list (list PetscReal)))
    (self self' : SingleBodyPoints) (comm_arg : MPI_Comm) (dim_arg : Z)
    (name_arg filePath_arg : string) (N : Z) (cs : list (list PetscReal)) :
  base_constructed self ->
  readLagrangianPoints (filePath self) = Ok (N, cs) -> 0 <= N ->
  init readLagrangianPoints self comm_arg dim_arg name_arg filePath_arg
  = Ok self' ->
  coords self' = cs /\ nPts self' = N /\ dim self' = dim self /\
  bgPt self' = xs (rank_info (mpiSize self) N (dim self) (mpiRank self)) /\
  nLclPts self' = xm (rank_info (mpiSize self) N (dim self) (mpiRank self)) /\
  edPt self' = PetscInt_wrap (bgPt self' + nLclPts self') /\
  meshIdx self'
  = replicate (Z.to_nat (nLclPts self')) (replicate (Z.to_nat dim_arg) 0).
Proof.
  intros Hbase Hread HN. unfold init, readBody.
  rewrite Hread. cbn [mbind PetscResult_bind coords].
  destruct cs as [|row0 rest]; [discriminate |].
  change (vec_at (row0 :: rest) 0) with (Ok (A := list PetscReal) row0).
  cbn [mbind PetscResult_bind].
  destruct (negb _); [discriminate |].
  match goal with
  | |- context [createDMDA ?s] =>
      destruct (createDMDA_spec s) as (b & Hb & Hspec)
  end.
  { eapply base_constructed_ext; [.. | exact Hbase]; reflexivity. }
  { cbn [nPts]. exact HN. }
  rewrite Hb. cbn [mbind PetscResult_bind].
  cbn [nPts coords dim mpiSize mpiRank] in Hspec.
  destruct Hspec as (Hbg & Hn & Hed & _ & _ & HNb & HDb & _ & _ & Hcb & _).
  unfold createInfoString. intros Hrun. inversion Hrun; subst self'.
  cbn [nPts coords dim bgPt edPt nLclPts meshIdx].
  repeat split; assumption.
Qed.

Lemma indexable_defined (self : SingleBodyPoints) (mesh : Mesh) :
  indexable self mesh -> (updateMeshIdx self mesh).1 <> Undefined.
Proof.
  intros [Hbg Hcoords Hmin Hmax Hcoord Hslots].
  rewrite updateMeshIdx_unfold. cbn [fst].
  apply updateMeshIdx_points_defined. intros t d Ht Hd. split.
  - repeat split; [apply Hcoords; lia | apply Hmin; lia | apply Hmax; lia
                   | apply Hcoord; lia].
  - apply Hslots; lia.
Qed.

Lemma init_Ok_exists
    (readLagrangianPoints : string -> PetscResult (Z * list (list PetscReal)))
    (self : SingleBodyPoints) (comm_arg : MPI_Comm) (dim_arg : Z)
    (name_arg filePath_arg : string) (N : Z) (row0 : list PetscReal)
    (rest : list (list PetscReal)) :
  base_constructed self ->
  readLagrangianPoints (filePath self) = Ok (N, row0 :: rest) -> 0 <= N ->
  dim_arg `mod` 2 ^ 32 = Z.of_nat (length row0) ->
  exists self',
    init readLagrangianPoints self comm_arg dim_arg name_arg filePath_arg
    = Ok self'.
Proof.
  intros Hbase Hread HN Hdim. unfold init, readBody.
  rewrite Hread. cbn [mbind PetscResult_bind coords].
  change (vec_at (row0 :: rest) 0) with (Ok (A := list PetscReal) row0).
  cbn [mbind PetscResult_bind].
  destruct (Z.eqb_spec (dim_arg `mod` 2 ^ 32) (Z.of_nat (length row0)));
    [| contradiction].
  cbn [negb].
  match goal with
  | |- context [createDMDA ?s] =>
      destruct (createDMDA_spec s) as (b & Hb & _)
  end.
  { eapply base_constructed_ext; [.. | exact Hbase]; reflexivity. }
  { cbn [nPts]. exact HN. }
  rewrite Hb. cbn [mbind PetscResult_bind].
  unfold createInfoString. eexists. reflexivity.
Qed.

(** X15: [init] leaves the object ready for [updateMeshIdx]: when every
    coordinate row has at least [dim] entries and the mesh holds bounds and
    cell boundaries for the [dim] directions, everything [updateMeshIdx]
    indexes is there, and its outcome is success or the domain error. *)
Theorem init_prepares_updateMeshIdx
    (readLagrangianPoints : string -> PetscResult (Z * list (list PetscReal)))
    (self self' : SingleBodyPoints) (comm_arg : MPI_Comm)
    (name_arg filePath_arg : string) (N : Z) (cs : list (list PetscReal))
    (mesh : Mesh) :
  base_constructed self -> 0 <= mpiRank self < mpiSize self ->
  readLagrangianPoints (filePath self) = Ok (N, cs) ->
  Z.of_nat (length cs) = N ->
  Forall (fun row => (Z.to_nat (dim self) <= length row)%nat) cs ->
  mesh_indexable mesh (dim self) ->
  init readLagrangianPoints self comm_arg (dim self) name_arg filePath_arg
  = Ok self' ->
  indexable self' mesh /\ (updateMeshIdx self' mesh).1 <> Undefined.
Proof.
  intros Hbase Hrank Hread Hlen Hwide Hmesh Hrun.
  destruct (init_Ok_fields _ _ _ _ _ _ _ _ _ Hbase Hread ltac:(lia) Hrun)
    as (Hcs & HNs & HDs & Hbg & Hn & Hed & Hmi).
  destruct Hbase as [_ _ HP _ _ _].
  set (P := mpiSize self) in *. set (D := dim self) in *.
  set (r := mpiRank self) in *.
  pose proof (rank_info_block P N D HP ltac:(lia) r Hrank)
    as (Hxs0 & Hxm0 & Hup).
  rewrite Hbg, Hn in Hed.
  pose proof (PetscInt_wrap_le _ (Z.add_nonneg_nonneg _ _ Hxs0 Hxm0)) as Hwrap.
  rewrite <- Hed in Hwrap.
  assert (indexable self' mesh) as Hix.
  { constructor; rewrite ?Hbg, ?Hn, ?HDs, ?Hcs, ?Hmi.
    - exact Hxs0.
    - intros i d Hi Hd.
      destruct (lookup_lt_is_Some_2 cs (Z.to_nat i)) as [row Hrow]; [lia |].
      pose proof (proj1 (Forall_lookup _ _) Hwide _ _ Hrow) as Hrowlen.
      cbn beta in Hrowlen.
      destruct (lookup_lt_is_Some_2 row (Z.to_nat d)) as [x Hx]; [lia |].
      exists x. apply vec_at2_Ok. exists row.
      split; apply vec_at_Ok; (split; [lia | assumption]).
    - intros d Hd. apply (Hmesh d Hd).
    - intros d Hd. apply (Hmesh d Hd).
    - intros d Hd. apply (Hmesh d Hd).
    - intros c d Hc Hd. exists 0. apply vec_at2_Ok.
      exists (replicate (Z.to_nat D) 0).
      split; apply vec_at_Ok; (split; [lia |]); apply lookup_replicate_2; lia. }
  split; [exact Hix | exact (indexable_defined _ _ Hix)].
Qed.
End InitFacts.

Lemma sample_init_base : base_constructed (base_body 1 0 1 2).
Proof. constructor; cbn; first [reflexivity | lia]. Qed.

Lemma init_prepares_updateMeshIdx_witness :
  exists self',
    init sample_reader (base_body 1 0 1 2)
         {| comm_size := 1; comm_rank := 0 |} 2 "body" "body.txt" = Ok self' /\
    (updateMeshIdx self' sample_mesh).1 <> Undefined.
Proof.
  destruct (init_Ok_exists sample_reader (base_body 1 0 1 2)
              {| comm_size := 1; comm_rank := 0 |} 2 "body" "body.txt"
              1 [Num 1; Num (1 # 2)] [] sample_init_base eq_refl ltac:(lia)
              eq_refl)
    as (self' & Hrun).
  exists self'. split; [exact Hrun |].
  apply (init_prepares_updateMeshIdx sample_reader (base_body 1 0 1 2) self'
           {| comm_size := 1; comm_rank := 0 |} "body" "body.txt" 1
           [[Num 1; Num (1 # 2)]] sample_mesh sample_init_base).
  - cbn. lia.
  - reflexivity.
  - reflexivity.
  - repeat constructor.
  - intros d Hd. cbn in Hd.
    assert (d = 0 \/ d = 1) as [-> | ->] by lia;
      (split; [eexists; reflexivity |]);
      (split; [eexists; reflexivity |]);
      exists [Num 0; Num 1; Num 2], 3; repeat split; cbn; lia.
  - exact Hrun.
Defined.

(** ** More on writeBody *)

(** X16: The loops of [writeBody] run to [nPts], not to the number of rows
    held: of a coordinate table with at least [nPts] rows exactly the
    first [nPts] are written, and none when [nPts] is zero or negative. *)
Theorem writeBody_first_rows (printf_e : PetscReal -> string)
    (self : SingleBodyPoints) (filepath : string) :
  (Z.to_nat (nPts self) <= length (coords self))%nat ->
  Forall (fun row => (Z.to_nat (dim self) <= length row)%nat) (coords self) ->
  dim self = 2 \/ dim self = 3 ->
  (writeBody printf_e self filepath).1.1 = Ok tt /\
  viewer_lines (writeBody printf_e self filepath).1.2
  = coordinate_line printf_e (dim self)
      <$> take (Z.to_nat (nPts self)) (coords self).
Proof.
  intros Hrows Hwide Hdim. unfold writeBody.
  destruct (Z.eqb_spec (dim self) 3) as [H3 | H3];
    [| destruct (Z.eqb_spec (dim self) 2) as [H2 | H2]; [| lia]].
  - rewrite H3 in *.
    rewrite (writeBody_rows3_spec printf_e self (Z.to_nat (nPts self)) 0)
      by (assumption || cbn; lia).
    cbn [fst snd viewer_file viewer_lines app]. rewrite drop_0.
    split; reflexivity.
  - rewrite H2 in *.
    rewrite (writeBody_rows2_spec printf_e self (Z.to_nat (nPts self)) 0)
      by (assumption || cbn; lia).
    cbn [fst snd viewer_file viewer_lines app]. rewrite drop_0.
    split; reflexivity.
Qed.

Lemma writeBody_first_rows_witness :
  viewer_lines (writeBody sample_printf sample_pair "out.txt").1.2
  = coordinate_line sample_printf 2
      <$> [Num <$> [1 # 2; 1 # 2]; Num <$> [3 # 2; 1 # 2]]%Q.
Proof.
  destruct (writeBody_first_rows sample_printf sample_pair "out.txt")
    as (_ & Hlines).
  - cbn. lia.
  - repeat constructor.
  - left. reflexivity.
  - exact Hlines.
Defined.

(** ** The further statements at the sample data *)

Lemma getGlobalIndex_decode_witness :
  nPts sample_body * dim sample_body <= PETSC_MAX_INT /\
  getGlobalIndex sample_body (1 / dim sample_body) (1 `mod` dim sample_body)
  = Ok 1.
Proof.
  assert (nPts sample_body * dim sample_body <= PETSC_MAX_INT) as Hfit
    by (vm_compute; discriminate).
  split; [exact Hfit |].
  destruct (getGlobalIndex_decode sample_body Hfit) as (_ & Henc & _).
  apply Henc; cbn; lia.
Defined.

Lemma findProc_owns_every_dof_witness :
  exists b (p : nat) (o cnt : Z),
    sample_world_after !! 0%nat = Some b /\
    findProc b 2 = Ok (Z.of_nat p) /\
    offsetsAllProcs b !! p = Some o /\
    nLclAllProcs b !! p = Some cnt /\
    o <= 5 < o + cnt.
Proof.
  eexists.
  destruct (findProc_owns_every_dof 2 3 2 sample_world sample_world_after
              ltac:(lia) ltac:(lia) sample_world_collective
              sample_world_run ltac:(unfold PETSC_MAX_INT; lia) ltac:(lia)
              ltac:(unfold PETSC_MAX_INT; lia) 0%nat _ 2 1 5 eq_refl eq_refl)
    as (p & o & cnt & Hp & Ho & Hc & Hin).
  exists p, o, cnt. split; [reflexivity |].
  split; [exact Hp |]. split; [exact Ho |]. split; [exact Hc | exact Hin].
Defined.

Lemma findProc_monotone_witness :
  exists b p q,
    sample_world_after !! 1%nat = Some b /\
    findProc b 1 = Ok p /\ findProc b 2 = Ok q /\ p <= q.
Proof.
  eexists _, _, _. split; [reflexivity |].
  split; [reflexivity |]. split; [reflexivity |].
  apply (findProc_monotone 2 3 2 sample_world sample_world_after
           ltac:(lia) ltac:(lia) sample_world_collective
           sample_world_run ltac:(unfold PETSC_MAX_INT; lia) ltac:(lia)
           ltac:(unfold PETSC_MAX_INT; lia) 1%nat _ 1 2 _ _ eq_refl
           ltac:(lia) eq_refl eq_refl).
Defined.

Lemma findProc_same_on_every_process_witness :
  exists b b',
    sample_world_after !! 0%nat = Some b /\
    sample_world_after !! 1%nat = Some b' /\
    findProc b 2 = findProc b' 2.
Proof.
  eexists _, _. split; [reflexivity |]. split; [reflexivity |].
  apply (findProc_same_on_every_process 2 3 2 sample_world sample_world_after
           ltac:(lia) ltac:(lia) sample_world_collective sample_world_run
           0%nat 1%nat _ _ 2 0 eq_refl eq_refl).
Defined.


Lemma createDMDA_idempotent_witness :
  exists self',
    createDMDA (base_body 2 1 3 2) = Ok self' /\ createDMDA self' = Ok self'.
Proof.
  eexists. split; [reflexivity |].
  apply (createDMDA_idempotent (base_body 2 1 3 2)).
  - constructor; cbn; first [reflexivity | lia].
  - cbn. lia.
  - reflexivity.
Defined.

Lemma createSingleBoundary_class_determines_tag_witness :
  In 2 [NOBC; PERIODIC; DIRICHLET; NEUMANN; CONVECTIVE] /\ 2 = DIRICHLET.
Proof.
  assert (In 2 [NOBC; PERIODIC; DIRICHLET; NEUMANN; CONVECTIVE]) as H2
    by (cbn; auto).
  split; [exact H2 |].
  apply (createSingleBoundary_class_determines_tag
           (MeshT := unit) (BCLocT := unit) (FieldT := unit)
           tt tt tt tt tt tt (Num 1) (Num 0) 2 DIRICHLET None None H2).
  - cbn. auto.
  - reflexivity.
Defined.
